(** * Sprotty client: selection commands, diagram server adapter, action
      handler registry.

    A shallow embedding of
    - [client/src/features/select/select.ts] (SelectCommand, SelectAllCommand),
    - [client/src/model-source/diagram-server.ts] (DiagramServer),
    - the action handler registry ([ActionHandlerRegistry.registerCommand]),
    together with the properties the specification states about them. *)

From Stdlib Require Import ZArith.
From stdpp Require Import gmap strings list fin_maps.

Local Open Scope Z_scope.
Set Warnings "-register-all".

(** ** The internal model: elements with identity, parent links, an index *)

Module SModel.

(** What [instanceof SNode] and [instanceof SEdge] observe of an element. *)
Inductive ElementClass := SNodeClass | SEdgeClass | SOtherClass.

#[global] Instance ElementClass_eq_dec : EqDecision ElementClass.
Proof. solve_decision. Defined.

(** Modelled from the spec: the element classes and the index of
    [smodel.ts], which are not part of the sources at hand: "a single mutable
    tree, each element identified by a globally-unique string id", with "an
    auxiliary index" for "id -> element lookup".

    An element object. Objects are referred to by their id, which the model
    index keeps unique; [parent] and [children] hold ids of other objects.
    An element is an [SChildElement] exactly when it has a parent.
    [selectable] is the answer of [isSelectable] (the element supports the
    selectable capability); it never changes. *)
Record SModelElement := mkElement {
  type : string;
  class : ElementClass;
  selectable : bool;
  selected : bool;
  parent : option string;
  children : list string;
  sourceId : string;
  targetId : string
}.

#[global] Instance SModelElement_eq_dec : EqDecision SModelElement.
Proof. solve_decision. Defined.

Definition set_selected (b : bool) (e : SModelElement) : SModelElement :=
  mkElement (type e) (class e) (selectable e) b (parent e) (children e)
            (sourceId e) (targetId e).

Definition set_children (l : list string) (e : SModelElement) : SModelElement :=
  mkElement (type e) (class e) (selectable e) (selected e) (parent e) l
            (sourceId e) (targetId e).

(** The model root with its index: [elements] is the id -> element map behind
    [index.getById], [all_ids] the order in which [index.all()] lists it. *)
Record SModelRoot := mkRoot {
  id : string;
  all_ids : list string;
  elements : gmap string SModelElement
}.

#[global] Instance SModelRoot_eq_dec : EqDecision SModelRoot.
Proof. solve_decision. Defined.

Definition with_elements (f : gmap string SModelElement → gmap string SModelElement)
    (root : SModelRoot) : SModelRoot :=
  mkRoot (id root) (all_ids root) (f (elements root)).

Definition getById (root : SModelRoot) (i : string) : option SModelElement :=
  elements root !! i.

Definition all (root : SModelRoot) : list (string * SModelElement) :=
  omap (λ i, (λ e, (i, e)) <$> getById root i) (all_ids root).

Definition isSelectable (e : SModelElement) : bool := selectable e.
Definition isSChildElement (e : SModelElement) : bool := bool_decide (parent e ≠ None).
Definition isSNode (e : SModelElement) : bool := bool_decide (class e = SNodeClass).
Definition isSEdge (e : SModelElement) : bool := bool_decide (class e = SEdgeClass).

(** [Array.prototype.indexOf]: position of the first occurrence, -1 if none. *)
Fixpoint indexOf (x : string) (l : list string) : Z :=
  match l with
  | [] => -1
  | y :: l' =>
      if decide (y = x) then 0
      else let r := indexOf x l' in if r <? 0 then -1 else r + 1
  end.

(** [element.parent.children] *)
Definition siblings (root : SModelRoot) (e : SModelElement) : list string :=
  match parent e with
  | Some p => match getById root p with Some pe => children pe | None => [] end
  | None => []
  end.

(** Modelled from the spec: [SParentElement.move(child, newIndex)], which is
    not part of the sources at hand. The child is taken out of the list and put
    back at [newIndex] ("moved to the end of its parent's child list",
    "restoring each element to its originally captured sibling index"). The
    spec fixes the result only for a child that is in the list and an index
    inside it; any other call leaves the list as it is. *)
Definition move (child : string) (newIndex : Z) (l : list string) : list string :=
  let i := indexOf child l in
  if (i <? 0) || (newIndex <? 0) || (Z.of_nat (length l) - 1 <? newIndex) then l
  else
    let l' := delete (Z.to_nat i) l in
    take (Z.to_nat newIndex) l' ++ child :: drop (Z.to_nat newIndex) l'.

(** [element.parent.move(element, childrenLength - 1)], on the list. *)
Definition move_end (x : string) (l : list string) : list string :=
  move x (Z.of_nat (length l) - 1) l.

(** The spec's "moved to the end of its parent's child list": the others
    keep their order and the child comes last. *)
Definition to_end (x : string) (l : list string) : list string :=
  if decide (x ∈ l) then filter (λ y, y ≠ x) l ++ [x] else l.

(** Indices that go down along a list of (child, index) pairs. *)
Fixpoint descending (S : list (string * Z)) : Prop :=
  match S with
  | [] => True
  | s :: S' => Forall (λ t, t.2 < s.2) S' ∧ descending S'
  end.

(** [element.parent.move(element, newIndex)] on the object graph. *)
Definition parent_move (i : string) (newIndex : Z) (root : SModelRoot) : SModelRoot :=
  match getById root i with
  | Some e =>
      match parent e with
      | Some p =>
          with_elements (alter (λ pe, set_children (move i newIndex (children pe)) pe) p) root
      | None => root
      end
  | None => root
  end.

(** [if (isSelectable(element)) element.selected = b] *)
Definition select_if_selectable (b : bool) (i : string) (root : SModelRoot) : SModelRoot :=
  with_elements (alter (λ e, if isSelectable e then set_selected b e else e) i) root.

(** What can be observed of the element with a given id: the properties
    no command writes, its [selected] flag, and its children in order. *)
Definition fixed (e : SModelElement) :=
  (type e, class e, selectable e, parent e, sourceId e, targetId e).
Definition static (root : SModelRoot) (i : string) := fixed <$> getById root i.
Definition flag (root : SModelRoot) (i : string) : option bool := selected <$> getById root i.
Definition kids (root : SModelRoot) (i : string) : option (list string) :=
  children <$> getById root i.

(** [element.parent], by id, and [isSelectable(element)], by id. *)
Definition parentOf (root : SModelRoot) (i : string) : option string :=
  getById root i ≫= parent.
Definition selectableAt (root : SModelRoot) (i : string) : bool :=
  default false (selectable <$> getById root i).

(** Two roots that differ in flags and child order at most. *)
Definition same_static (r r' : SModelRoot) : Prop :=
  id r = id r' ∧ all_ids r = all_ids r' ∧ ∀ j, static r j = static r' j.

(** No element lists a child twice. *)
Definition children_NoDup (root : SModelRoot) : Prop :=
  map_Forall (λ _ e, NoDup (children e)) (elements root).

(** Every element that has a parent is among the children of that parent. *)
Definition listed (root : SModelRoot) (i : string) (e : SModelElement) : bool :=
  match parent e with
  | Some _ => bool_decide (i ∈ siblings root e)
  | None => true
  end.

Definition children_listed (root : SModelRoot) : Prop :=
  map_Forall (λ i e, listed root i e = true) (elements root).

#[global] Instance children_NoDup_dec root : Decision (children_NoDup root).
Proof. unfold children_NoDup. apply _. Defined.

#[global] Instance children_listed_dec root : Decision (children_listed root).
Proof. unfold children_listed. apply _. Defined.

(** Two roots with the same children everywhere. *)
Definition kids_same (r r' : SModelRoot) : Prop := ∀ j, kids r j = kids r' j.

End SModel.

(** ** select.ts: SelectCommand *)

Module SelectCommand.
Import SModel.

Definition KIND : string := "elementSelected".

Record SelectAction := mkSelectAction {
  selectedElementsIDs : list string;
  deselectedElementsIDs : list string
}.

(** [ElementSelection]: the element (by id) and its captured sibling index. *)
Record ElementSelection := mkSelection {
  element : string;
  index : Z
}.

#[global] Instance ElementSelection_eq_dec : EqDecision ElementSelection.
Proof. solve_decision. Defined.

(** The command object: its action and the two captured lists. *)
Record SelectCommand := mkCommand {
  action : SelectAction;
  selected : list ElementSelection;
  deselected : list ElementSelection
}.

(** [new SelectCommand(action)] *)
Definition new (a : SelectAction) : SelectCommand := mkCommand a [] [].

(** [{ element: element, index: element.parent.children.indexOf(element) }] *)
Definition selection_of (root : SModelRoot) (i : string) (e : SModelElement)
    : ElementSelection :=
  mkSelection i (indexOf i (siblings root e)).

(** The first [forEach] of [execute]: pushes onto [this.selected] and onto
    the local [selectedNodeIds]. *)
Definition capture_selected (root : SModelRoot)
    (acc : list ElementSelection * list string) (i : string)
    : list ElementSelection * list string :=
  match getById root i with
  | Some e =>
      if isSChildElement e && isSelectable e then
        (acc.1 ++ [selection_of root i e],
         if isSNode e then acc.2 ++ [i] else acc.2)
      else acc
  | None => acc
  end.

(** The [index.all().forEach] of [execute]: pushes onto [connectedEdges]. *)
Definition capture_edge (root : SModelRoot) (selectedNodeIds : list string)
    (acc : list ElementSelection) (ie : string * SModelElement)
    : list ElementSelection :=
  let e := ie.2 in
  if isSEdge e
     && ((0 <=? indexOf (sourceId e) selectedNodeIds)
         || (0 <=? indexOf (targetId e) selectedNodeIds))
  then acc ++ [selection_of root ie.1 e]
  else acc.

(** The last [forEach] of [execute]: pushes onto [this.deselected]. *)
Definition capture_deselected (root : SModelRoot)
    (acc : list ElementSelection) (i : string) : list ElementSelection :=
  match getById root i with
  | Some e =>
      if isSChildElement e && isSelectable e then acc ++ [selection_of root i e]
      else acc
  | None => acc
  end.

(** The first loop of [redo]: one iteration. *)
Definition redo_move (root : SModelRoot) (s : ElementSelection) : SModelRoot :=
  match getById root (element s) with
  | Some e =>
      let childrenLength := Z.of_nat (length (siblings root e)) in
      parent_move (element s) (childrenLength - 1) root
  | None => root
  end.

(** One iteration of the [forEach] loops that set the flag:
    [if (isSelectable(selection.element)) selection.element.selected = b]. *)
Definition select_step (b : bool) (root : SModelRoot) (s : ElementSelection) : SModelRoot :=
  select_if_selectable b (element s) root.

Definition redo (cmd : SelectCommand) (root : SModelRoot) : SelectCommand * SModelRoot :=
  let r1 := foldl redo_move root (selected cmd) in
  let r2 := foldl (select_step false) r1 (deselected cmd) in
  let r3 := foldl (select_step true) r2 (selected cmd) in
  (cmd, r3).

(** The loop of [undo] over [this.selected], from the last entry down. *)
Definition undo_step (root : SModelRoot) (s : ElementSelection) : SModelRoot :=
  parent_move (element s) (index s) (select_if_selectable false (element s) root).

(** [this.deselected.reverse()] reverses the array in place, so the command
    keeps the reversed list. *)
Definition undo (cmd : SelectCommand) (root : SModelRoot) : SelectCommand * SModelRoot :=
  let r1 := foldl undo_step root (reverse (selected cmd)) in
  let deselected' := reverse (deselected cmd) in
  let r2 := foldl (select_step true) r1 deselected' in
  (mkCommand (action cmd) (selected cmd) deselected', r2).

(** The ids of the captured elements, and the captured elements whose
    parent is [j]. *)
Definition ids (S : list ElementSelection) : list string := element <$> S.

Definition at_parent (root : SModelRoot) (j : string) (S : list ElementSelection)
    : list ElementSelection :=
  filter (λ s, parentOf root (element s) = Some j) S.

Definition execute (cmd : SelectCommand) (root : SModelRoot) : SelectCommand * SModelRoot :=
  let model := root in
  let '(selected1, selectedNodeIds) :=
    foldl (capture_selected model) (selected cmd, []) (selectedElementsIDs (action cmd)) in
  let selected2 :=
    if 0 <? Z.of_nat (length selectedNodeIds) then
      let connectedEdges := foldl (capture_edge model selectedNodeIds) [] (all model) in
      connectedEdges ++ selected1
    else selected1 in
  let deselected1 :=
    foldl (capture_deselected model) (deselected cmd) (deselectedElementsIDs (action cmd)) in
  redo (mkCommand (action cmd) selected2 deselected1) root.

(** One iteration of the loop of [undo], on the list of children. *)
Definition move_back (l : list string) (s : ElementSelection) : list string :=
  move (element s) (index s) l.

(** *** The capture phase, as the spec words it *)

(** "resolve via the index; if the element exists and supports the
    selectable capability, capture {element, index-among-current-siblings}" *)
Definition selectable_child (root : SModelRoot) (i : string) : option ElementSelection :=
  getById root i ≫= λ e,
    if isSChildElement e && isSelectable e then Some (selection_of root i e) else None.

(** The selected ids that resolve to a selectable element of the node
    variant. *)
Definition is_selected_node (root : SModelRoot) (i : string) : bool :=
  match getById root i with
  | Some e => isSChildElement e && isSelectable e && isSNode e
  | None => false
  end.

Definition selected_nodes (root : SModelRoot) (l : list string) : list string :=
  filter (λ i, is_selected_node root i = true) l.

(** "every edge element currently referencing that node as source or
    target", in the order of the index. *)
Definition connected_edges (root : SModelRoot) (nodes : list string)
    : list ElementSelection :=
  omap (λ ie : string * SModelElement,
          if isSEdge ie.2
             && (bool_decide (sourceId ie.2 ∈ nodes) || bool_decide (targetId ie.2 ∈ nodes))
          then Some (selection_of root ie.1 ie.2) else None)
       (all root).

Definition capture (cmd : SelectCommand) (root : SModelRoot) : SelectCommand :=
  let nodes := selected_nodes root (selectedElementsIDs (action cmd)) in
  let edges := match nodes with [] => [] | _ => connected_edges root nodes end in
  mkCommand (action cmd)
    (edges ++ selected cmd ++ omap (selectable_child root) (selectedElementsIDs (action cmd)))
    (deselected cmd ++ omap (selectable_child root) (deselectedElementsIDs (action cmd))).

(** A captured selection holds the sibling index its element has in
    [root]. *)
Definition captured_at (root : SModelRoot) (s : ElementSelection) : Prop :=
  ∃ e, getById root (element s) = Some e
       ∧ index s = indexOf (element s) (siblings root e).

(** Along the captured list, an element captured later has a smaller index
    than every sibling captured before it. *)
Fixpoint descending_siblings (root : SModelRoot) (S : list ElementSelection) : bool :=
  match S with
  | [] => true
  | s :: S' =>
      forallb (λ t, if bool_decide (parentOf root (element t) = parentOf root (element s))
                    then index t <? index s else true) S'
      && descending_siblings root S'
  end.

End SelectCommand.

(** ** select.ts: SelectAllCommand *)

Module SelectAllCommand.
Import SModel.

Definition KIND : string := "allSelected".

Record SelectAllAction := mkSelectAllAction { select : bool }.

(** The command object; [previousSelection] is the plain JS object used as
    a map from element id to the recorded flag: its own properties, which are
    what [for (const id in ...)] goes through. It is written by [assign]
    only. *)
Record SelectAllCommand := mkCommand {
  action : SelectAllAction;
  previousSelection : gmap string bool
}.

Definition new (a : SelectAllAction) : SelectAllCommand := mkCommand a ∅.

(** [this.previousSelection[key] = value] on the plain object: the
    assignment creates the property [key] or overwrites it, except for the
    key [__proto__], where it reaches the setter inherited from
    [Object.prototype]; given a boolean, the setter does nothing, and the
    object gets no property. *)
Definition assign (key : string) (value : bool) (o : gmap string bool) : gmap string bool :=
  if decide (key = "__proto__") then o else <[key := value]> o.

(** The [if (isSelectable(element)) { ... }] block of [selectAll]. *)
Definition record_and_set (i : string) (e : SModelElement) (newState : bool)
    (st : gmap string bool * SModelRoot) : gmap string bool * SModelRoot :=
  if isSelectable e then
    (assign i (selected e) st.1, with_elements (alter (set_selected newState) i) st.2)
  else st.

(** [selectAll(element, newState)]: the recursion follows [children] through
    the object graph, so it is bounded by [fuel]; [None] means the bound was
    reached. A child id without an object cannot occur in the source and
    is passed over. *)
Fixpoint selectAll (fuel : nat) (i : string) (newState : bool)
    (st : gmap string bool * SModelRoot) : option (gmap string bool * SModelRoot) :=
  match fuel with
  | O => None
  | S fuel' =>
      match getById st.2 i with
      | Some e =>
          foldl (λ acc child, acc ≫= selectAll fuel' child newState)
                (Some (record_and_set i e newState st)) (children e)
      | None => Some st
      end
  end.

(** The elements [selectAll] comes by when it starts at [i], in the order
    of the walk; [None] when the walk is deeper than [fuel]. *)
Fixpoint descendants (fuel : nat) (root : SModelRoot) (i : string) : option (list string) :=
  match fuel with
  | O => None
  | S fuel' =>
      match getById root i with
      | Some e => (λ ls, i :: concat ls) <$> mapM (descendants fuel' root) (children e)
      | None => Some []
      end
  end.

(** What [selectAll] does at one element of the walk. *)
Definition visit (newState : bool) (st : gmap string bool * SModelRoot) (i : string)
    : gmap string bool * SModelRoot :=
  match getById st.2 i with
  | Some e => record_and_set i e newState st
  | None => st
  end.

Definition execute (fuel : nat) (cmd : SelectAllCommand) (root : SModelRoot)
    : option (SelectAllCommand * SModelRoot) :=
  (λ st, (mkCommand (action cmd) st.1, st.2))
    <$> selectAll fuel (id root) (select (action cmd)) (previousSelection cmd, root).

(** One iteration of the [for (const id in this.previousSelection)] loop. *)
Definition restore (i : string) (b : bool) (root : SModelRoot) : SModelRoot :=
  match getById root i with
  | Some e => if isSelectable e then with_elements (alter (set_selected b) i) root else root
  | None => root
  end.

(** The loop visits every recorded id once; iterations touch different
    elements, so the enumeration order of the keys has no influence. *)
Definition undo (cmd : SelectAllCommand) (root : SModelRoot) : SelectAllCommand * SModelRoot :=
  (cmd, map_fold restore root (previousSelection cmd)).

Definition redo (fuel : nat) (cmd : SelectAllCommand) (root : SModelRoot)
    : option (SelectAllCommand * SModelRoot) :=
  (λ st, (mkCommand (action cmd) st.1, st.2))
    <$> selectAll fuel (id root) (select (action cmd)) (previousSelection cmd, root).

End SelectAllCommand.

(** ** The action handler registry *)

Module ActionHandlerRegistry.

(** A command constructor as [registerCommand] sees it: its [name] and, when
    it has one of its own, its static [KIND] property. *)
Record CommandConstructor := mkConstructor {
  name : string;
  KIND : option string
}.

(** [new CommandActionHandler(commandType)] *)
Inductive ActionHandler :=
| CommandActionHandler (commandType : CommandConstructor).

Section Registry.

(** The inherited [InstanceRegistry]: its state and its [register] method,
    which are not part of the sources at hand and are taken as they come.
    [register] may throw ([None]). *)
Context {Elements : Type}.
Variable register : string → ActionHandler → Elements → option Elements.

Record Registry := mkRegistry {
  elements : Elements;
  logger_errors : list string
}.

(** [registerCommand(commandType)]; [None] stands for a thrown exception. *)
Definition registerCommand (commandType : CommandConstructor) (this : Registry)
    : option Registry :=
  match KIND commandType with
  | Some kind =>
      (λ els, mkRegistry els (logger_errors this))
        <$> register kind (CommandActionHandler commandType) (elements this)
  | None =>
      Some (mkRegistry (elements this)
              (logger_errors this ++
                 ["Command " +:+ name commandType +:+ "  does not have a KIND property"]))
  end.

End Registry.

(** Modelled from the spec: [register(kind, handler)] of the registry's base
    class, which is not part of the sources at hand: "binds a handler object to
    a kind; multiple registrations for the same kind are permitted (the most
    recent does not replace earlier ones)". *)
Definition multi_register (kind : string) (h : ActionHandler)
    (m : gmap string (list ActionHandler)) : option (gmap string (list ActionHandler)) :=
  Some (<[kind := default [] (m !! kind) ++ [h]]> m).

End ActionHandlerRegistry.

(** ** diagram-server.ts *)

Module DiagramServer.

(** Coordinates are only copied around, never computed with. *)
Definition number := Z.

Record Point := mkPoint { x : number; y : number }.
Record Dimension := mkDimension { width : number; height : number }.
(** [interface Bounds extends Point, Dimension] *)
Record Bounds := mkBounds { bounds_point :> Point; bounds_dimension :> Dimension }.

(** [SModelElementSchema]: the plain external form of a model, a tree. Only
    the properties this class reads or writes are kept. *)
Inductive SModelElementSchema := mkSchema {
  type : string;
  id : string;
  position : option Point;
  size : option Dimension;
  alignment : option Point;
  children : list SModelElementSchema
}.

Definition SModelRootSchema := SModelElementSchema.

Record ElementAndBounds := mkElementAndBounds { elementId : string; newBounds : Bounds }.
Record ElementAndAlignment := mkElementAndAlignment { a_elementId : string; newAlignment : Point }.

(** An action object, with the properties this class looks at.
    [receivedFromServer] is the [__receivedFromServer] mark; [newRoot] is
    [None] when the property is missing or empty. *)
Record Action := mkAction {
  kind : string;
  receivedFromServer : bool;
  newRoot : option SModelRootSchema;
  bounds : list ElementAndBounds;
  alignments : option (list ElementAndAlignment);
  svg : string
}.

(** The action kinds this class compares with. [SetModelCommand.KIND],
    [UpdateModelCommand.KIND], [RequestBoundsCommand.KIND] and
    [ComputedBoundsAction.KIND] are the strings of the server-side
    [Actions.xtend]. *)
Definition SetModelCommand_KIND : string := "setModel".
Definition UpdateModelCommand_KIND : string := "updateModel".
Definition RequestBoundsCommand_KIND : string := "requestBounds".
Definition ComputedBoundsAction_KIND : string := "computedBounds".
Definition ServerStatusAction_KIND : string := "serverStatus".
(** Modelled from the spec: [ExportSvgAction.KIND], whose class is not part of
    the sources at hand; the spec lists the kind as [export]. *)
Definition ExportSvgAction_KIND : string := "export".

(** [new UpdateModelAction(root)] and [new SetModelAction(root)] *)
Definition UpdateModelAction (root : SModelRootSchema) : Action :=
  mkAction UpdateModelCommand_KIND false (Some root) [] None "".
Definition SetModelAction (root : SModelRootSchema) : Action :=
  mkAction SetModelCommand_KIND false (Some root) [] None "".

Record ActionMessage := mkActionMessage { clientId : string; action : Action }.

(** Values of type [any], as far as [messageReceived] looks into them. An
    object is the list of its own properties. *)
Inductive JsValue :=
| JsUndefined
| JsNull
| JsBoolean (b : bool)
| JsNumber (n : Z)
| JsString (s : string)
| JsObject (properties : list (string * JsValue)).

(** What the class does to its collaborators, in the order it happens. *)
Inductive Effect :=
| LoggerLog (message : string)
| LoggerError (message : string) (object : JsValue)
| SendMessage (message : ActionMessage)
| Dispatch (a : Action)
| DispatchReceived (a : JsValue) (* with [this.storeNewModel.bind(this)] as the callback *)
| StorageStore (root : SModelRootSchema)
| SaveAs (content : string) (filename : string).

(** The instance: its fields, [viewerOptions.needsServerLayout], and the trace
    of effects so far. [lastSubmittedModelType] is [None] until it is first
    assigned. *)
Record DiagramServer := mkServer {
  this_clientId : string;
  needsServerLayout : bool;
  currentRoot : SModelRootSchema;
  lastSubmittedModelType : option string;
  trace : list Effect
}.

Definition emit (e : Effect) (this : DiagramServer) : DiagramServer :=
  mkServer (this_clientId this) (needsServerLayout this) (currentRoot this)
           (lastSubmittedModelType this) (trace this ++ [e]).

Definition set_currentRoot (r : SModelRootSchema) (this : DiagramServer) : DiagramServer :=
  mkServer (this_clientId this) (needsServerLayout this) r
           (lastSubmittedModelType this) (trace this).

Definition set_lastSubmittedModelType (t : string) (this : DiagramServer) : DiagramServer :=
  mkServer (this_clientId this) (needsServerLayout this) (currentRoot this)
           (Some t) (trace this).

Definition storeNewModel (a : Action) (this : DiagramServer) : DiagramServer :=
  if bool_decide (kind a = SetModelCommand_KIND)
     || bool_decide (kind a = UpdateModelCommand_KIND)
     || bool_decide (kind a = RequestBoundsCommand_KIND)
  then
    match newRoot a with
    | Some newRoot =>
        let this1 := set_currentRoot newRoot this in
        let this2 :=
          if bool_decide (kind a = SetModelCommand_KIND)
             || bool_decide (kind a = UpdateModelCommand_KIND)
          then set_lastSubmittedModelType (type newRoot) this1
          else this1 in
        emit (StorageStore (currentRoot this2)) this2
    | None => this
    end
  else this.

Definition applyBounds (newBounds : Bounds) (e : SModelElementSchema) : SModelElementSchema :=
  mkSchema (type e) (id e)
           (Some (mkPoint (x newBounds) (y newBounds)))
           (Some (mkDimension (width newBounds) (height newBounds)))
           (alignment e) (children e).

Definition applyAlignment (newAlignment : Point) (e : SModelElementSchema) : SModelElementSchema :=
  mkSchema (type e) (id e) (position e) (size e)
           (Some (mkPoint (x newAlignment) (y newAlignment))) (children e).

(** Modelled from the spec: [SModelIndex], which is not part of the sources at
    hand: "an auxiliary index provides id -> element lookup", here "a freshly
    built index over currentRoot", each element being "identified by a
    globally-unique string id". [index_all] lists the elements the index is
    built from, the root first; [getById] finds the one with the id. *)
Fixpoint index_all (e : SModelElementSchema) : list SModelElementSchema :=
  e :: flat_map index_all (children e).

Definition getById (root : SModelRootSchema) (i : string) : option SModelElementSchema :=
  find (λ e, bool_decide (id e = i)) (index_all root).

(** [const element = index.getById(i); if (element !== undefined) f(element)],
    where [f] assigns properties of the element found: the tree with the
    element of that id changed in place. *)
Fixpoint update_element (i : string) (f : SModelElementSchema → SModelElementSchema)
    (e : SModelElementSchema) : SModelElementSchema :=
  let e' := if bool_decide (id e = i) then f e else e in
  mkSchema (type e') (id e') (position e') (size e') (alignment e')
           (map (update_element i f) (children e)).

(** One iteration of [for (const b of action.bounds)]. *)
Definition bounds_step (r : SModelRootSchema) (b : ElementAndBounds) : SModelRootSchema :=
  match getById r (elementId b) with
  | Some _ => update_element (elementId b) (applyBounds (newBounds b)) r
  | None => r
  end.

(** One iteration of [for (const a of action.alignments)]. *)
Definition alignment_step (r : SModelRootSchema) (al : ElementAndAlignment)
    : SModelRootSchema :=
  match getById r (a_elementId al) with
  | Some _ => update_element (a_elementId al) (applyAlignment (newAlignment al)) r
  | None => r
  end.

Definition handleComputedBounds (a : Action) (this : DiagramServer) : bool * DiagramServer :=
  if needsServerLayout this then (true, this)
  else
    let root := currentRoot this in
    let root1 := foldl bounds_step root (bounds a) in
    let root2 :=
      match alignments a with
      | Some als => foldl alignment_step root1 als
      | None => root1
      end in
    let this1 := set_currentRoot root2 this in
    let this2 :=
      if bool_decide (Some (type root2) = lastSubmittedModelType this1)
      then emit (Dispatch (UpdateModelAction root2)) this1
      else emit (Dispatch (SetModelAction root2)) this1 in
    (false, set_lastSubmittedModelType (type root2) this2).

Definition handleExportSvgAction (a : Action) (this : DiagramServer) : bool * DiagramServer :=
  (false, emit (SaveAs (svg a) "diagram.svg") this).

Definition handleServerStateAction (a : Action) (this : DiagramServer) : bool * DiagramServer :=
  (false, this).

Definition handleLocally (a : Action) (this : DiagramServer) : bool * DiagramServer :=
  let this1 := storeNewModel a this in
  if bool_decide (kind a = ComputedBoundsAction_KIND) then handleComputedBounds a this1
  else if bool_decide (kind a = RequestBoundsCommand_KIND) then (false, this1)
  else if bool_decide (kind a = ExportSvgAction_KIND) then handleExportSvgAction a this1
  else if bool_decide (kind a = ServerStatusAction_KIND) then handleServerStateAction a this1
  else (negb (receivedFromServer a), this1).

Definition handle (a : Action) (this : DiagramServer) : DiagramServer :=
  let '(forwardToServer, this1) := handleLocally a this in
  if forwardToServer then
    let message := mkActionMessage (this_clientId this1) a in
    emit (SendMessage message) (emit (LoggerLog "sending") this1)
  else this1.

(** The messages handed to [sendMessage] in a trace. *)
Definition sent (tr : list Effect) : list ActionMessage :=
  omap (λ e, match e with SendMessage m => Some m | _ => None end) tr.

(** The roots handed to [storage.store] in a trace. *)
Definition stored (tr : list Effect) : list SModelRootSchema :=
  omap (λ e, match e with StorageStore r => Some r | _ => None end) tr.

(** The kinds [handleLocally] has a case for. *)
Definition policy_kinds : list string :=
  [ComputedBoundsAction_KIND; RequestBoundsCommand_KIND; ExportSvgAction_KIND;
   ServerStatusAction_KIND].

(** The layout a batch prescribes for one element: the bounds of the last
    entry naming it, then the alignment of the last entry naming it. *)
Definition last_bounds (bs : list ElementAndBounds) (i : string) : option Bounds :=
  newBounds <$> last (filter (λ b, elementId b = i) bs).

Definition last_alignment (als : list ElementAndAlignment) (i : string) : option Point :=
  newAlignment <$> last (filter (λ al, a_elementId al = i) als).

Definition with_bounds (bs : list ElementAndBounds) (e : SModelElementSchema)
    : SModelElementSchema :=
  match last_bounds bs (id e) with
  | Some nb => applyBounds nb e
  | None => e
  end.

Definition with_alignment (als : list ElementAndAlignment) (e : SModelElementSchema)
    : SModelElementSchema :=
  match last_alignment als (id e) with
  | Some p => applyAlignment p e
  | None => e
  end.

(** The tree with every element changed by [g], the shape kept. *)
Fixpoint map_elements (g : SModelElementSchema → SModelElementSchema)
    (e : SModelElementSchema) : SModelElementSchema :=
  let e' := g e in
  mkSchema (type e') (id e') (position e') (size e') (alignment e')
           (map (map_elements g) (children e)).

Definition laid_out (a : Action) (root : SModelRootSchema) : SModelRootSchema :=
  map_elements (λ e, with_alignment (default [] (alignments a))
                       (with_bounds (bounds a) e)) root.

(** The action with another batch of bounds. *)
Definition with_bounds_of (a : Action) (bs : list ElementAndBounds) : Action :=
  mkAction (kind a) (receivedFromServer a) (newRoot a) bs (alignments a) (svg a).

(** *** Receiving *)

Definition receivedFromServerProperty : string := "__receivedFromServer".

(** What a call can end in. *)
Inductive Outcome (A : Type) :=
| Returns (a : A)
| ThrowsTypeError
| ThrowsSyntaxError.
Arguments Returns {A} a.
Arguments ThrowsTypeError {A}.
Arguments ThrowsSyntaxError {A}.

(** A statement after a call that may throw runs only when the call returns. *)
Definition and_then {A B : Type} (o : Outcome A) (k : A → Outcome B) : Outcome B :=
  match o with
  | Returns a => k a
  | ThrowsTypeError => ThrowsTypeError
  | ThrowsSyntaxError => ThrowsSyntaxError
  end.

(** The own properties of an object, by name. *)
Fixpoint assoc (p : string) (props : list (string * JsValue)) : option JsValue :=
  match props with
  | [] => None
  | (q, v) :: props' => if decide (q = p) then Some v else assoc p props'
  end.

(** [object.hasOwnProperty(p)] for a value that is neither [undefined] nor
    [null]. An object is a plain one, as [JSON.parse] builds it: the method
    called is the one inherited from [Object.prototype], unless the object
    has a property named [hasOwnProperty] of its own; that property holds a
    value that is no function, and calling it throws. A primitive has
    neither of the properties asked for here. *)
Definition hasOwnProperty (p : string) (object : JsValue) : Outcome bool :=
  match object with
  | JsObject props =>
      match assoc "hasOwnProperty" props with
      | Some _ => ThrowsTypeError
      | None => Returns (bool_decide (is_Some (assoc p props)))
      end
  | _ => Returns false
  end.

(** [object.p] for a value that is neither [undefined] nor [null]. *)
Definition get (p : string) (object : JsValue) : JsValue :=
  match object with
  | JsObject props => default JsUndefined (assoc p props)
  | _ => JsUndefined
  end.

(** Truthiness, as [!v] and [a && b] test it. *)
Definition truthy (v : JsValue) : bool :=
  match v with
  | JsUndefined | JsNull => false
  | JsBoolean b => b
  | JsNumber n => negb (n =? 0)
  | JsString s => negb (bool_decide (s = ""))
  | JsObject _ => true
  end.

(** [v === s] for a string [s]. *)
Definition strict_equals_string (v : JsValue) (s : string) : bool :=
  match v with
  | JsString s' => bool_decide (s' = s)
  | _ => false
  end.

(** [isActionMessage(object)]: [null] passes the [!== undefined] test, and
    reading [hasOwnProperty] off it throws; the second [hasOwnProperty] is
    called only when the first has answered true. *)
Definition isActionMessage (object : JsValue) : Outcome bool :=
  match object with
  | JsUndefined => Returns false
  | JsNull => ThrowsTypeError
  | _ =>
      and_then (hasOwnProperty "clientId" object) (λ has_clientId,
        if has_clientId then hasOwnProperty "action" object else Returns false)
  end.

(** [(object.action as any)[receivedFromServerProperty] = true]. The
    assignment adds or replaces the property of an object; on a primitive
    value it throws in strict mode, which is how modules are compiled. *)
Fixpoint set_property (p : string) (v : JsValue) (props : list (string * JsValue))
    : list (string * JsValue) :=
  match props with
  | [] => [(p, v)]
  | (q, w) :: props' =>
      if decide (q = p) then (q, v) :: props' else (q, w) :: set_property p v props'
  end.

Definition mark_received (a : JsValue) : Outcome JsValue :=
  match a with
  | JsObject props => Returns (JsObject (set_property receivedFromServerProperty (JsBoolean true) props))
  | _ => ThrowsTypeError
  end.

(** Data as it arrives: text, still to be parsed, or a value. [Text s] is
    the string [s], as [Value (JsString s)] is: [typeof(data) === 'string']
    holds of both. *)
Inductive Data :=
| Text (s : string)
| Value (v : JsValue).

Section Receiving.

(** [JSON.parse]; [None] when the text is not JSON and the call throws. *)
Variable JSON_parse : string → option JsValue.

(** [this.actionDispatcher.dispatch(action, callback)], called on the
    instance in the state given. The dispatcher is not part of the sources at
    hand: what the call does to this instance, by running the callback or
    by coming back through [handle], and whether it throws, is taken as it
    comes. *)
Variable dispatch : JsValue → (Action → DiagramServer → DiagramServer) →
                    DiagramServer → Outcome DiagramServer.

Definition messageReceived (data : Data) (this : DiagramServer) : Outcome DiagramServer :=
  let parsed := match data with
                | Text s => JSON_parse s
                | Value (JsString s) => JSON_parse s
                | Value v => Some v
                end in
  match parsed with
  | None => ThrowsSyntaxError
  | Some object =>
      and_then (isActionMessage object) (λ is_message,
        if is_message && truthy (get "action" object) then
          if negb (truthy (get "clientId" object))
             || strict_equals_string (get "clientId" object) (this_clientId this)
          then
            and_then (mark_received (get "action" object)) (λ a,
              dispatch a storeNewModel
                (emit (DispatchReceived a) (emit (LoggerLog "receiving") this)))
          else Returns this
        else
          Returns (emit (LoggerError "received data is not an action message" object) this))
  end.

End Receiving.

End DiagramServer.

(** ** Sample models *)

Module Samples.

Module Select.
Import SModel SelectCommand.

Definition node (p : string) (sel : bool) : SModelElement :=
  mkElement "node" SNodeClass true sel (Some p) [] "" "".
Definition edge (p : string) (sel : bool) (s t : string) : SModelElement :=
  mkElement "edge" SEdgeClass true sel (Some p) [] s t.
Definition graph (ch : list string) : SModelElement :=
  mkElement "graph" SOtherClass false false None ch "" "".

(** Three nodes under one graph; [b] is selected. *)
Definition three_nodes : SModelRoot :=
  mkRoot "g" ["g"; "a"; "b"; "c"]
    (list_to_map [("g", graph ["a"; "b"; "c"]); ("a", node "g" false);
                  ("b", node "g" true); ("c", node "g" false)]).

(** The graph of the spec's example: node N1 with the edge E1 into it, and
    the edge E2 between two other nodes. *)
Definition wired : SModelRoot :=
  mkRoot "g" ["g"; "N1"; "N2"; "N3"; "E1"; "E2"]
    (list_to_map [("g", graph ["N1"; "E1"; "E2"; "N2"; "N3"]);
                  ("N1", node "g" false); ("N2", node "g" false);
                  ("N3", node "g" true);
                  ("E1", edge "g" false "N2" "N1"); ("E2", edge "g" false "N2" "N3")]).

Definition select_N1 : SelectAction := mkSelectAction ["N1"] ["N3"].

(** A graph before a click on N1: the edge E1 into N1, N1 itself, then N2;
    nothing is selected. [click_N1] is the action of a plain click on N1. *)
Definition clicked : SModelRoot :=
  mkRoot "g" ["g"; "E1"; "N1"; "N2"]
    (list_to_map [("g", graph ["E1"; "N1"; "N2"]);
                  ("E1", edge "g" false "N2" "N1");
                  ("N1", node "g" false); ("N2", node "g" false)]).

Definition click_N1 : SelectAction := mkSelectAction ["N1"] [].

(** Two nodes, one of them with the id [__proto__]; [a] is selected. *)
Definition with_proto : SModelRoot :=
  mkRoot "g" ["g"; "__proto__"; "a"]
    (list_to_map [("g", graph ["__proto__"; "a"]);
                  ("__proto__", node "g" false); ("a", node "g" true)]).

Definition both_lists : SelectCommand :=
  mkCommand (mkSelectAction ["a"] ["a"]) [mkSelection "a" 0] [mkSelection "a" 0].

End Select.

Module Server.
Import DiagramServer.

Definition echo_action (received : bool) : Action :=
  mkAction "elementSelected" received None [] None "".

Definition idle_server : DiagramServer :=
  mkServer "sprotty" false (mkSchema "NONE" "ROOT" None None None []) None [].

Definition small_root : SModelRootSchema := mkSchema "graph" "g" None None None [].

(** A dispatcher that runs the callback once, on a setModel action with
    [small_root]. *)
Definition storing_dispatch (a : JsValue) (callback : Action → DiagramServer → DiagramServer)
    (this : DiagramServer) : Outcome DiagramServer :=
  Returns (callback (mkAction "setModel" true (Some small_root) [] None "") this).

Definition bounds_root : SModelRootSchema :=
  mkSchema "graph" "g" None None None [mkSchema "node" "n1" None None None []].

Definition bounds_server : DiagramServer :=
  mkServer "sprotty" false bounds_root (Some "graph") [].

Definition bounds_action : Action :=
  mkAction ComputedBoundsAction_KIND false None
    [mkElementAndBounds "n1" (mkBounds (mkPoint 10 20) (mkDimension 5 5));
     mkElementAndBounds "missing" (mkBounds (mkPoint 1 1) (mkDimension 1 1))]
    None "".

Definition bounds_root_after : SModelRootSchema :=
  mkSchema "graph" "g" None None None
    [mkSchema "node" "n1" (Some (mkPoint 10 20)) (Some (mkDimension 5 5)) None []].

End Server.

Module Registry.
Import ActionHandlerRegistry.

Definition SelectCommand_constructor : CommandConstructor :=
  mkConstructor "SelectCommand" (Some "elementSelected").

Definition anonymous_constructor : CommandConstructor :=
  mkConstructor "Anonymous" None.

Definition one_binding : Registry :=
  mkRegistry ({[ "allSelected" := [CommandActionHandler (mkConstructor "SelectAllCommand" (Some "allSelected"))] ]} : gmap string (list ActionHandler)) [].

End Registry.

End Samples.

(** ** More of select.ts: what the commands keep *)

Module SelectCommandShape.
Import SModel SelectCommand.

(** [r'] has the elements of [r] with the same fixed properties, every list
    of children is a rearrangement of what it was, and the two invariants
    of the tree carry over. *)
Definition same_shape (r r' : SModelRoot) : Prop :=
  same_static r r'
  ∧ (∀ j, match kids r j, kids r' j with
          | Some l, Some l' => l' ≡ₚ l
          | None, None => True
          | _, _ => False
          end)
  ∧ (children_NoDup r → children_NoDup r')
  ∧ (children_listed r → children_listed r').

End SelectCommandShape.
(** ** select.ts: the listeners *)

Module SelectListeners.
Import SModel SelectCommand.

(** What the listeners read of an event: [event.button], [event.keyCode]
    and the answer of [isCtrlOrCmd(event)]. *)
Record MouseEvent := mkMouseEvent { button : Z; mouse_ctrlOrCmd : bool }.
Record KeyboardEvent := mkKeyboardEvent { key_ctrlOrCmd : bool; keyCode : Z }.

(** The fields of a [SelectMouseListener]. *)
Record SelectMouseListener := mkListener { wasSelected : bool; hasDragged : bool }.

(** [new SelectMouseListener(...)] *)
Definition new_listener : SelectMouseListener := mkListener false false.

(** The actions a listener returns: a [SelectAction], or whatever a button
    handler has answered. *)
Inductive ListenerAction (B : Type) :=
| Select (a : SelectAction)
| FromButton (b : B).
Arguments Select {B} a.
Arguments FromButton {B} b.

(** [selectableTarget.selected] *)
Definition selectedAt (root : SModelRoot) (i : string) : bool :=
  default false (flag root i).

(** [target.root.index.all().filter(element => isSelectable(element) &&
    element.selected).map(element => element.id)] *)
Definition selected_ids (root : SModelRoot) : list string :=
  (λ ie : string * SModelElement, ie.1)
    <$> filter (λ ie : string * SModelElement, isSelectable ie.2 && SModel.selected ie.2 = true)
               (all root).

(** [element.root.index.all().filter(e => isSelectable(e)).map(e => e.id)] *)
Definition selectable_ids (root : SModelRoot) : list string :=
  (λ ie : string * SModelElement, ie.1)
    <$> filter (λ ie : string * SModelElement, isSelectable ie.2 = true) (all root).

Section Listeners.

Context {B : Type}.

(** [findParentByFeature(target, isSelectable)] of [smodel-utils], and the
    button branch of [mouseDown] ([Some actions] when the registry is there,
    the target is an enabled [SButton] and a handler is registered for its
    type; [actions] is what [buttonPressed] returns). Neither is in the
    sources at hand; both are taken as they come. *)
Variable findParentByFeature : SModelRoot → string → option string.
Variable buttonPressed : SModelRoot → string → option (list (ListenerAction B)).

Definition mouseDown (this : SelectMouseListener) (root : SModelRoot) (target : string)
    (event : MouseEvent) : list (ListenerAction B) * SelectMouseListener :=
  if bool_decide (button event = 0) then
    match buttonPressed root target with
    | Some actions => (actions, this)
    | None =>
        let selectableTarget := findParentByFeature root target in
        if bool_decide (selectableTarget ≠ None) || bool_decide (target = id root) then
          let this1 := mkListener (wasSelected this) false in
          let deselectIds :=
            if negb (mouse_ctrlOrCmd event) then selected_ids root else [] in
          match selectableTarget with
          | Some t =>
              if negb (selectedAt root t) then
                ([Select (mkSelectAction [t] deselectIds)],
                 mkListener false (hasDragged this1))
              else if mouse_ctrlOrCmd event then
                ([Select (mkSelectAction [] [t])], mkListener false (hasDragged this1))
              else ([], mkListener true (hasDragged this1))
          | None => ([Select (mkSelectAction [] deselectIds)], this1)
          end
        else ([], this)
    end
  else ([], this).

Definition mouseMove (this : SelectMouseListener) (root : SModelRoot) (target : string)
    (event : MouseEvent) : list (ListenerAction B) * SelectMouseListener :=
  ([], mkListener (wasSelected this) true).

Definition mouseUp (this : SelectMouseListener) (root : SModelRoot) (target : string)
    (event : MouseEvent) : list (ListenerAction B) * SelectMouseListener :=
  let finish := ([], mkListener (wasSelected this) false) in
  if bool_decide (button event = 0) then
    if negb (hasDragged this) then
      match findParentByFeature root target with
      | Some t =>
          if wasSelected this then ([Select (mkSelectAction [t] [])], this)
          else finish
      | None => finish
      end
    else finish
  else finish.

End Listeners.

(** [SelectKeyboardListener.keyDown] *)
Definition keyDown (root : SModelRoot) (event : KeyboardEvent) : list SelectAction :=
  if key_ctrlOrCmd event && bool_decide (keyCode event = 65) then
    [mkSelectAction (selectable_ids root) []]
  else [].


(** [SEdge] extends [SChildElement]: an edge has a parent. *)
Definition edges_have_parents (root : SModelRoot) : Prop :=
  ∀ j e, getById root j = Some e → isSEdge e = true → isSChildElement e = true.

End SelectListeners.

(** Sample surroundings of the listeners: on a flat graph the nearest
    selectable element at or above a target is the target itself, if it is
    selectable; no button handler is registered. *)
Module ListenerSamples.
Import SModel SelectListeners.

Definition own_feature (root : SModelRoot) (target : string) : option string :=
  if selectableAt root target then Some target else None.

Definition no_buttons (root : SModelRoot) (target : string)
    : option (list (ListenerAction Empty_set)) := None.

Definition left_click : MouseEvent := mkMouseEvent 0 false.
Definition ctrl_A : KeyboardEvent := mkKeyboardEvent true 65.

End ListenerSamples.

(** ** diagram-server.ts: the effects of [handle] *)

Module DiagramServerEffects.
Import DiagramServer.

(** The effects [handle] can have: everything but the error log and the
    dispatch of a received action, which are [messageReceived]'s. *)
Definition own_effect (e : Effect) : Prop :=
  match e with
  | LoggerError _ _ | DispatchReceived _ => False
  | _ => True
  end.

End DiagramServerEffects.

(** ** action-handler.ts: [isAction] and the registry's constructor *)

Module Actions.
Import DiagramServer ActionHandlerRegistry.

(** [typeof(v)] *)
Definition typeof (v : JsValue) : string :=
  match v with
  | JsUndefined => "undefined"
  | JsNull => "object"
  | JsBoolean _ => "boolean"
  | JsNumber _ => "number"
  | JsString _ => "string"
  | JsObject _ => "object"
  end.

(** [isAction(object)]: the value of
    [object && object.hasOwnProperty('kind') && typeof(object['kind']) == 'string'],
    which is [object] itself when that is falsy; the call of
    [hasOwnProperty] may throw. *)
Definition isAction (object : JsValue) : Outcome JsValue :=
  if truthy object then
    and_then (hasOwnProperty "kind" object) (λ has_kind,
      if has_kind
      then Returns (JsBoolean (bool_decide (typeof (get "kind" object) = "string")))
      else Returns (JsBoolean false))
  else Returns object.

Section Construction.

Context {Elements : Type}.
Variable register : string → ActionHandler → Elements → option Elements.

(** The constructor of [ActionHandlerRegistry], for the array of command
    constructors it is given: [super()] leaves the inherited registry in
    the state [super]; [logger] holds what the injected logger has been
    told so far. An exception of [register] ends the loop. *)
Definition constructor (super : Elements) (commandCtrs : list CommandConstructor)
    (logger : list string) : option (Registry (Elements:=Elements)) :=
  foldl (λ this commandCtr, this ≫= registerCommand register commandCtr)
        (Some (mkRegistry super logger)) commandCtrs.

End Construction.

(** The message [registerCommand] logs for a constructor, and the
    constructors of an array that have a [KIND], with it. *)
Definition error_message (c : CommandConstructor) : string :=
  "Command " +:+ name c +:+ "  does not have a KIND property".

Definition with_KIND (ctrs : list CommandConstructor) : list (string * CommandConstructor) :=
  omap (λ c, (λ k, (k, c)) <$> KIND c) ctrs.

End Actions.

(** * Properties *)

(** ** The model *)

Module SModelFacts.
Import SModel.

(** *** [indexOf] and [move] on lists *)

Lemma indexOf_not_in x l : x ∉ l → indexOf x l = -1.
Proof.
  induction l as [|y l IH]; simpl; [done|].
  intros Hx. apply not_elem_of_cons in Hx as [Hne Hx].
  rewrite decide_False by done. rewrite IH by done. reflexivity.
Qed.

Lemma indexOf_app_middle x l1 l2 :
  x ∉ l1 → indexOf x (l1 ++ x :: l2) = Z.of_nat (length l1).
Proof.
  induction l1 as [|y l1 IH]; simpl; intros Hx.
  - by rewrite decide_True.
  - apply not_elem_of_cons in Hx as [Hne Hx].
    rewrite decide_False by done. rewrite IH by done.
    destruct (Z.ltb_spec (Z.of_nat (length l1)) 0); lia.
Qed.

Lemma indexOf_in x l : x ∈ l → 0 ≤ indexOf x l < Z.of_nat (length l).
Proof.
  intros Hx. apply list_elem_of_split_l in Hx as (l1 & l2 & -> & Hx).
  rewrite indexOf_app_middle by done. rewrite length_app. simpl. lia.
Qed.

Lemma move_not_in x k l : x ∉ l → move x k l = l.
Proof. intros Hx. unfold move. by rewrite indexOf_not_in. Qed.

Lemma move_app_middle x k l1 l2 :
  x ∉ l1 → 0 ≤ k ≤ Z.of_nat (length (l1 ++ l2)) →
  move x k (l1 ++ x :: l2)
  = take (Z.to_nat k) (l1 ++ l2) ++ x :: drop (Z.to_nat k) (l1 ++ l2).
Proof.
  intros Hx Hk. unfold move. rewrite indexOf_app_middle by done.
  rewrite length_app in *. simpl.
  destruct (Z.ltb_spec (Z.of_nat (length l1)) 0); [lia|].
  destruct (Z.ltb_spec k 0); [lia|].
  destruct (Z.ltb_spec (Z.of_nat (length l1 + S (length l2)) - 1) k); [lia|].
  simpl. rewrite Nat2Z.id. by rewrite delete_middle.
Qed.

Lemma move_out_of_range x k l :
  k < 0 ∨ Z.of_nat (length l) - 1 < k → move x k l = l.
Proof.
  intros Hk. unfold move.
  destruct (Z.ltb_spec (indexOf x l) 0); [done|].
  destruct (Z.ltb_spec k 0); [done|].
  destruct (Z.ltb_spec (Z.of_nat (length l) - 1) k); [done|]. lia.
Qed.

(** A move is a rearrangement. *)
Lemma move_Permutation x k l : move x k l ≡ₚ l.
Proof.
  destruct (decide (x ∈ l)) as [Hx|Hx]; [|by rewrite move_not_in].
  destruct (decide (0 ≤ k ≤ Z.of_nat (length l) - 1)) as [Hk|Hk];
    [|rewrite move_out_of_range; [done|lia]].
  apply list_elem_of_split_l in Hx as (l1 & l2 & -> & Hx).
  rewrite move_app_middle.
  - rewrite <- Permutation_middle. rewrite take_drop. apply Permutation_middle.
  - done.
  - rewrite length_app in *. simpl in *. lia.
Qed.

Lemma move_NoDup x k l : NoDup l → NoDup (move x k l).
Proof. intros H. by rewrite move_Permutation. Qed.

Lemma move_elem_of x k l y : y ∈ move x k l ↔ y ∈ l.
Proof. by rewrite move_Permutation. Qed.

(** Moving [x] does not disturb what is left once [x] is filtered out. *)
Lemma filter_move (P : string → Prop) `{!∀ y, Decision (P y)} x k l :
  ¬ P x → filter P (move x k l) = filter P l.
Proof.
  intros HP.
  destruct (decide (x ∈ l)) as [Hx|Hx]; [|by rewrite move_not_in].
  destruct (decide (0 ≤ k ≤ Z.of_nat (length l) - 1)) as [Hk|Hk];
    [|rewrite move_out_of_range; [done|lia]].
  apply list_elem_of_split_l in Hx as (l1 & l2 & -> & Hx).
  rewrite move_app_middle; [|done|rewrite length_app in *; simpl in *; lia].
  rewrite !filter_app, !filter_cons_False by done.
  rewrite <- !filter_app. by rewrite take_drop.
Qed.

Lemma filter_ne_not_in (x : string) (l : list string) : x ∉ l → filter (λ y, y ≠ x) l = l.
Proof.
  induction l as [|y l IH]; [done|]. intros Hx.
  apply not_elem_of_cons in Hx as [Hne Hx].
  rewrite filter_cons_True by done. by rewrite IH.
Qed.

Lemma filter_ne_app_middle (x : string) (l1 l2 : list string) :
  x ∉ l1 → x ∉ l2 → filter (λ y, y ≠ x) (l1 ++ x :: l2) = l1 ++ l2.
Proof.
  intros H1 H2. rewrite filter_app, filter_cons_False by (intros H; by apply H).
  by rewrite !filter_ne_not_in.
Qed.

Lemma NoDup_app_middle (x : string) (l1 l2 : list string) :
  NoDup (l1 ++ x :: l2) → (x ∉ l1) ∧ (x ∉ l2) ∧ NoDup (l1 ++ l2).
Proof.
  intros H. apply NoDup_app in H as (H1 & H2 & H3).
  apply NoDup_cons in H3 as [H3 H4].
  split; [|split; [done|]].
  - intros Hx. apply (H2 x Hx). by left.
  - apply NoDup_app. split; [done|]. split; [|done].
    intros y Hy Hy'. apply (H2 y Hy). by right.
Qed.

Lemma move_end_to_end x l : NoDup l → move_end x l = to_end x l.
Proof.
  intros Hnd. unfold move_end, to_end.
  case_decide as Hx; [|by apply move_not_in].
  apply list_elem_of_split in Hx as (l1 & l2 & ->).
  apply NoDup_app_middle in Hnd as (H1 & H2 & _).
  rewrite move_app_middle; [|done|rewrite !length_app; simpl; lia].
  rewrite filter_ne_app_middle by done.
  replace (Z.to_nat (Z.of_nat (length (l1 ++ x :: l2)) - 1)) with (length (l1 ++ l2))
    by (rewrite !length_app; simpl; lia).
  by rewrite firstn_all, drop_all.
Qed.

Lemma filter_all (P : string → Prop) `{!∀ y, Decision (P y)} (l : list string) :
  (∀ y, y ∈ l → P y) → filter P l = l.
Proof.
  induction l as [|y l IH]; intros Hall; [done|].
  rewrite filter_cons_True by (apply Hall; by left).
  rewrite IH; [done|]. intros z Hz. apply Hall. by right.
Qed.

Lemma to_end_NoDup x l : NoDup l → NoDup (to_end x l).
Proof. intros H. rewrite <- move_end_to_end by done. by apply move_NoDup. Qed.

Lemma to_end_elem_of x l y : NoDup l → y ∈ to_end x l ↔ y ∈ l.
Proof. intros H. rewrite <- move_end_to_end by done. apply move_elem_of. Qed.

(** **** Moving to the end twice over lists that agree on the rest *)

Lemma foldl_to_end_agree (Q : list string) (L L' : list string) :
  NoDup L → NoDup L' → (∀ y, y ∈ L ↔ y ∈ L') →
  filter (λ y, y ∉ Q) L = filter (λ y, y ∉ Q) L' →
  foldl (λ l x, to_end x l) L Q = foldl (λ l x, to_end x l) L' Q.
Proof.
  revert L L'. induction Q as [|x Q IH]; intros L L' Hnd Hnd' Hin Hf.
  - simpl. rewrite !filter_all in Hf; [done| |]; intros y _; apply not_elem_of_nil.
  - simpl. apply IH.
    + by apply to_end_NoDup.
    + by apply to_end_NoDup.
    + intros y. rewrite !to_end_elem_of by done. apply Hin.
    + assert (∀ M : list string,
                filter (λ y, y ∉ Q) (filter (λ y, y ≠ x) M) = filter (λ y, y ∉ x :: Q) M)
        as Hff.
      { intros M. rewrite list_filter_filter. apply list_filter_iff.
        intros y. rewrite not_elem_of_cons. tauto. }
      unfold to_end. destruct (decide (x ∈ L)) as [Hx|Hx].
      * rewrite decide_True by (by apply Hin).
        rewrite !filter_app, !Hff. by rewrite Hf.
      * rewrite decide_False by (by rewrite <- Hin).
        rewrite <- (filter_ne_not_in x L), <- (filter_ne_not_in x L'), !Hff;
          [done | by rewrite <- Hin | done].
Qed.

(** **** Moving to the end, then back to the captured indices *)

Lemma indexOf_app_l y (l1 l : list string) : y ∈ l1 → indexOf y (l1 ++ l) = indexOf y l1.
Proof.
  induction l1 as [|z l1 IH]; simpl; intros Hy; [by apply elem_of_nil in Hy|].
  case_decide; [done|].
  apply elem_of_cons in Hy as [->|Hy]; [done|]. by rewrite IH.
Qed.

Lemma indexOf_app_r y (l1 l : list string) :
  y ∉ l1 → y ∈ l → indexOf y (l1 ++ l) = Z.of_nat (length l1) + indexOf y l.
Proof.
  induction l1 as [|z l1 IH]; simpl; intros Hy Hl; [lia|].
  apply not_elem_of_cons in Hy as [Hne Hy].
  rewrite decide_False by done. rewrite IH by done.
  apply indexOf_in in Hl.
  destruct (Z.ltb_spec (Z.of_nat (length l1) + indexOf y l) 0); lia.
Qed.

Lemma indexOf_to_end_before x y l :
  NoDup l → 0 ≤ indexOf y l < indexOf x l → indexOf y (to_end x l) = indexOf y l.
Proof.
  intros Hnd Hlt.
  assert (x ∈ l) as Hx.
  { destruct (decide (x ∈ l)); [done|]. rewrite (indexOf_not_in x l) in Hlt by done. lia. }
  assert (y ∈ l) as Hy.
  { destruct (decide (y ∈ l)); [done|]. rewrite (indexOf_not_in y l) in Hlt by done. lia. }
  unfold to_end. rewrite decide_True by done.
  apply list_elem_of_split in Hx as (l1 & l2 & ->).
  apply NoDup_app_middle in Hnd as (H1 & H2 & _).
  rewrite filter_ne_app_middle by done.
  rewrite indexOf_app_middle in Hlt by done.
  destruct (decide (y ∈ l1)) as [Hy1|Hy1].
  - rewrite <- app_assoc. by rewrite !indexOf_app_l.
  - apply elem_of_app in Hy as [Hy|Hy]; [done|].
    rewrite indexOf_app_r in Hlt by done.
    apply indexOf_in in Hy. lia.
Qed.

Lemma move_back_to_end x l :
  NoDup l → x ∈ l → move x (indexOf x l) (to_end x l) = l.
Proof.
  intros Hnd Hx. unfold to_end. rewrite decide_True by done.
  apply list_elem_of_split in Hx as (l1 & l2 & ->).
  apply NoDup_app_middle in Hnd as (H1 & H2 & _).
  rewrite filter_ne_app_middle, indexOf_app_middle by done.
  rewrite move_app_middle.
  - rewrite app_nil_r, Nat2Z.id. by rewrite take_app_length, drop_app_length.
  - rewrite elem_of_app. tauto.
  - rewrite app_nil_r, length_app. lia.
Qed.

Lemma foldl_move_back (S : list (string * Z)) (L : list string) :
  NoDup L →
  Forall (λ s, s.2 = indexOf s.1 L ∧ 0 ≤ s.2) S →
  descending S →
  foldl (λ l s, move s.1 s.2 l) (foldl (λ l s, to_end s.1 l) L S) (reverse S) = L.
Proof.
  revert L. induction S as [|[x i] S IH]; intros L Hnd Hidx Hdesc; [done|].
  simpl in *. destruct Hdesc as [Hlt Hdesc].
  apply Forall_cons in Hidx as [[Hi Hi0] Hidx]. simpl in *.
  rewrite reverse_cons, foldl_app. simpl.
  rewrite IH; [| by apply to_end_NoDup | | done].
  - subst i. apply move_back_to_end; [done|].
    destruct (decide (x ∈ L)); [done|]. rewrite indexOf_not_in in Hi0 by done. lia.
  - rewrite Forall_forall in *. intros [y j] Hy. simpl.
    destruct (Hidx _ Hy) as [Hj Hj0]. specialize (Hlt _ Hy). simpl in *.
    split; [|done]. rewrite indexOf_to_end_before; [done|done|lia].
Qed.

(** **** Where everything is after moving to the end *)

Lemma remove_dups_snoc (M : list string) x :
  remove_dups (M ++ [x]) = filter (λ y, y ≠ x) (remove_dups M) ++ [x].
Proof.
  induction M as [|y M IH]; [done|].
  simpl.
  destruct (decide_rel elem_of y (M ++ [x])) as [H1|H1];
    destruct (decide_rel elem_of y M) as [H2|H2].
  - done.
  - apply elem_of_app in H1 as [H1|H1]; [done|].
    apply list_elem_of_singleton in H1 as ->.
    rewrite filter_cons_False by (intros H'; by apply H'). done.
  - exfalso. apply H1, elem_of_app. by left.
  - rewrite filter_cons_True; [by rewrite IH|].
    intros ->. apply H1, elem_of_app. right. by left.
Qed.

Lemma foldl_to_end_closed (Q : list string) (L : list string) :
  NoDup L →
  foldl (λ l x, to_end x l) L Q
  = filter (λ y, y ∉ Q) L ++ remove_dups (filter (λ y, y ∈ L) Q).
Proof.
  intros Hnd. induction Q as [|x Q IH] using rev_ind.
  - simpl. rewrite app_nil_r. symmetry. apply filter_all.
    intros y _. apply not_elem_of_nil.
  - rewrite foldl_app. simpl. rewrite IH.
    assert (∀ M : list string,
              filter (λ y, y ≠ x) (filter (λ y, y ∉ Q) M) = filter (λ y, y ∉ Q ++ [x]) M)
      as Hff.
    { intros M. rewrite list_filter_filter. apply list_filter_iff.
      intros y. rewrite not_elem_of_app, not_elem_of_cons.
      pose proof (not_elem_of_nil y). tauto. }
    rewrite (filter_app (λ y, y ∈ L) Q [x]).
    unfold to_end. destruct (decide (x ∈ L)) as [Hx|Hx].
    + rewrite decide_True.
      2:{ apply elem_of_app. destruct (decide (x ∈ Q)) as [HQ|HQ].
          - right. apply elem_of_remove_dups, list_elem_of_filter. done.
          - left. apply list_elem_of_filter. done. }
      rewrite filter_cons_True, filter_nil by done.
      rewrite remove_dups_snoc. rewrite filter_app, Hff. by rewrite app_assoc.
    + rewrite filter_cons_False, filter_nil, app_nil_r by done.
      rewrite decide_False.
      2:{ rewrite elem_of_app, elem_of_remove_dups, !list_elem_of_filter. tauto. }
      f_equal. rewrite <- Hff. symmetry. apply filter_ne_not_in.
      rewrite list_elem_of_filter. tauto.
Qed.

(** *** The object graph *)

Lemma root_ext r r' :
  same_static r r' → (∀ j, flag r j = flag r' j) → (∀ j, kids r j = kids r' j) → r = r'.
Proof.
  intros (Hid & Hall & Hst) Hfl Hk.
  destruct r as [i a m], r' as [i' a' m']. simpl in *. subst. f_equal.
  apply map_eq. intros j.
  specialize (Hst j). specialize (Hfl j). specialize (Hk j).
  unfold static, flag, kids, getById, fixed in *. simpl in *.
  destruct (m !! j) as [[]|], (m' !! j) as [[]|]; simpl in *; congruence.
Qed.

Lemma same_static_trans r1 r2 r3 :
  same_static r1 r2 → same_static r2 r3 → same_static r1 r3.
Proof.
  intros (H1 & H2 & H3) (H1' & H2' & H3').
  split; [congruence|]. split; [congruence|]. intros j. by rewrite H3, H3'.
Qed.

Lemma same_static_sym r1 r2 : same_static r1 r2 → same_static r2 r1.
Proof. intros (H1 & H2 & H3). split; [done|]. split; [done|]. intros j. by rewrite H3. Qed.

Lemma same_static_parentOf r r' i : same_static r r' → parentOf r' i = parentOf r i.
Proof.
  intros (_ & _ & H). specialize (H i). unfold static, parentOf, fixed in *.
  destruct (getById r i) as [[]|], (getById r' i) as [[]|]; simpl in *; congruence.
Qed.

Lemma same_static_selectableAt r r' i : same_static r r' → selectableAt r' i = selectableAt r i.
Proof.
  intros (_ & _ & H). specialize (H i). unfold static, selectableAt, fixed in *.
  destruct (getById r i) as [[]|], (getById r' i) as [[]|]; simpl in *; congruence.
Qed.

Lemma getById_select b i r j :
  getById (select_if_selectable b i r) j
  = (λ e, if bool_decide (j = i) && isSelectable e then set_selected b e else e)
      <$> getById r j.
Proof.
  unfold select_if_selectable, getById, with_elements. simpl.
  rewrite lookup_alter. case_decide as Hij.
  - subst. rewrite bool_decide_eq_true_2 by done. by destruct (elements r !! j).
  - rewrite bool_decide_eq_false_2 by done. by destruct (elements r !! j).
Qed.

Lemma select_static b i r : same_static r (select_if_selectable b i r).
Proof.
  split; [done|]. split; [done|]. intros j. unfold static.
  rewrite getById_select. destruct (getById r j) as [e|]; [|done]. simpl.
  by destruct (_ && _).
Qed.

Lemma select_kids b i r j : kids (select_if_selectable b i r) j = kids r j.
Proof.
  unfold kids. rewrite getById_select. destruct (getById r j) as [e|]; [|done]. simpl.
  by destruct (_ && _).
Qed.

Lemma select_flag b i r j :
  flag (select_if_selectable b i r) j
  = if bool_decide (j = i) && selectableAt r j then Some b else flag r j.
Proof.
  unfold flag, selectableAt. rewrite getById_select.
  destruct (getById r j) as [e|]; simpl; [|by rewrite andb_false_r].
  unfold isSelectable. by destruct (_ && _).
Qed.

Lemma getById_parent_move i k r j :
  getById (parent_move i k r) j
  = (λ e, if bool_decide (parentOf r i = Some j)
          then set_children (move i k (children e)) e else e) <$> getById r j.
Proof.
  assert (∀ o : option SModelElement, (λ e : SModelElement, e) <$> o = o) as Hid
    by (by intros []).
  unfold parent_move, parentOf.
  destruct (getById r i) as [e|] eqn:He; cbn.
  2:{ by rewrite Hid. }
  destruct (parent e) as [p|] eqn:Hp; cbn.
  2:{ by rewrite Hid. }
  unfold getById, with_elements. cbn. rewrite lookup_alter.
  case_decide as Hpj.
  - subst. by rewrite bool_decide_eq_true_2.
  - rewrite bool_decide_eq_false_2 by congruence. by rewrite Hid.
Qed.

Lemma parent_move_static i k r : same_static r (parent_move i k r).
Proof.
  split; [by unfold parent_move; repeat case_match|].
  split; [by unfold parent_move; repeat case_match|].
  intros j. unfold static.
  rewrite getById_parent_move. destruct (getById r j) as [e|]; [|done]. simpl.
  by destruct (bool_decide _).
Qed.

Lemma parent_move_flag i k r j : flag (parent_move i k r) j = flag r j.
Proof.
  unfold flag. rewrite getById_parent_move. destruct (getById r j) as [e|]; [|done]. simpl.
  by destruct (bool_decide _).
Qed.

Lemma parent_move_kids i k r j :
  kids (parent_move i k r) j
  = if bool_decide (parentOf r i = Some j) then move i k <$> kids r j else kids r j.
Proof.
  unfold kids. rewrite getById_parent_move. destruct (getById r j) as [e|]; simpl.
  - by destruct (bool_decide _).
  - by destruct (bool_decide _).
Qed.

Lemma children_NoDup_kids r j l : children_NoDup r → kids r j = Some l → NoDup l.
Proof.
  unfold children_NoDup, kids, getById. intros H Hk.
  destruct (elements r !! j) as [e|] eqn:He; [|done]. simpl in Hk.
  injection Hk as <-. by apply (H j e).
Qed.

End SModelFacts.

(** ** SelectCommand *)

Module SelectCommandFacts.
Import SModel SModelFacts SelectCommand Samples.Select.

(** *** One step of each loop *)

Lemma siblings_kids r i e j l :
  getById r i = Some e → parentOf r i = Some j → kids r j = Some l → siblings r e = l.
Proof.
  unfold parentOf, kids, siblings. intros He Hp Hk. rewrite He in Hp. simpl in Hp.
  rewrite Hp. destruct (getById r j); simpl in *; congruence.
Qed.

Lemma redo_move_static r s : same_static r (redo_move r s).
Proof. unfold redo_move. destruct (getById r (element s)); [apply parent_move_static|done]. Qed.

Lemma redo_move_flag r s j : flag (redo_move r s) j = flag r j.
Proof. unfold redo_move. destruct (getById r (element s)); [apply parent_move_flag|done]. Qed.

Lemma redo_move_kids r s j :
  kids (redo_move r s) j
  = if bool_decide (parentOf r (element s) = Some j)
    then move_end (element s) <$> kids r j else kids r j.
Proof.
  unfold redo_move. destruct (getById r (element s)) as [e|] eqn:He.
  - rewrite parent_move_kids. case_bool_decide as Hp; [|done].
    destruct (kids r j) as [l|] eqn:Hk; [|done]. simpl.
    by rewrite (siblings_kids r (element s) e j l).
  - unfold parentOf. rewrite He. cbn. by rewrite bool_decide_eq_false_2.
Qed.

Lemma undo_step_static r s : same_static r (undo_step r s).
Proof.
  unfold undo_step. eapply same_static_trans; [apply select_static|apply parent_move_static].
Qed.

Lemma undo_step_flag r s j :
  flag (undo_step r s) j
  = if bool_decide (j = element s) && selectableAt r j then Some false else flag r j.
Proof. unfold undo_step. by rewrite parent_move_flag, select_flag. Qed.

Lemma undo_step_kids r s j :
  kids (undo_step r s) j
  = if bool_decide (parentOf r (element s) = Some j)
    then move (element s) (index s) <$> kids r j else kids r j.
Proof.
  unfold undo_step. rewrite parent_move_kids, select_kids.
  by rewrite (same_static_parentOf r _ _ (select_static _ _ _)).
Qed.

(** *** The loops *)

Lemma foldl_redo_move_static S r : same_static r (foldl redo_move r S).
Proof.
  revert r. induction S as [|s S IH]; intros r; [done|]. simpl.
  eapply same_static_trans; [apply redo_move_static|apply IH].
Qed.

Lemma foldl_redo_move_flag S r j : flag (foldl redo_move r S) j = flag r j.
Proof.
  revert r. induction S as [|s S IH]; intros r; [done|]. simpl.
  by rewrite IH, redo_move_flag.
Qed.

Lemma at_parent_static r r' j S : same_static r r' → at_parent r' j S = at_parent r j S.
Proof.
  intros H. unfold at_parent. apply list_filter_iff. intros s.
  by rewrite (same_static_parentOf r r').
Qed.

Lemma foldl_redo_move_kids S r j :
  kids (foldl redo_move r S) j
  = (λ l, foldl (λ l x, move_end x l) l (ids (at_parent r j S))) <$> kids r j.
Proof.
  revert r. induction S as [|s S IH]; intros r.
  - simpl. by destruct (kids r j).
  - simpl. rewrite IH, redo_move_kids.
    rewrite (at_parent_static r _ _ _ (redo_move_static r s)).
    unfold at_parent at 2. case_bool_decide as Hp.
    + rewrite filter_cons_True by done. by destruct (kids r j).
    + rewrite filter_cons_False by done. done.
Qed.

Lemma foldl_select_static b S r : same_static r (foldl (select_step b) r S).
Proof.
  revert r. induction S as [|s S IH]; intros r; [done|]. simpl.
  eapply same_static_trans; [apply select_static|apply IH].
Qed.

Lemma foldl_select_kids b S r j : kids (foldl (select_step b) r S) j = kids r j.
Proof.
  revert r. induction S as [|s S IH]; intros r; [done|]. simpl.
  unfold select_step at 2. by rewrite IH, select_kids.
Qed.

Lemma foldl_select_flag b S r j :
  flag (foldl (select_step b) r S) j
  = if bool_decide (j ∈ ids S) && selectableAt r j then Some b else flag r j.
Proof.
  revert r. induction S as [|s S IH]; intros r.
  - cbn [foldl ids fmap list_fmap]. rewrite bool_decide_eq_false_2; [done|]. apply not_elem_of_nil.
  - simpl. rewrite IH. unfold select_step.
    rewrite (same_static_selectableAt r _ _ (select_static _ _ _)), select_flag.
    destruct (selectableAt r j); rewrite ?andb_true_r, ?andb_false_r; [|done].
    destruct (decide (j = element s)) as [->|Hne].
    + rewrite (bool_decide_eq_true_2 (element s ∈ element s :: _)) by (by left).
      rewrite (bool_decide_eq_true_2 (element s = element s)) by done.
      by case_bool_decide.
    + rewrite (bool_decide_eq_false_2 (j = element s)) by done.
      apply (f_equal (λ c : bool, if c then Some b else flag r j)).
      apply bool_decide_ext. rewrite elem_of_cons. tauto.
Qed.

Lemma foldl_undo_step_static S r : same_static r (foldl undo_step r S).
Proof.
  revert r. induction S as [|s S IH]; intros r; [done|]. simpl.
  eapply same_static_trans; [apply undo_step_static|apply IH].
Qed.

Lemma foldl_undo_step_flag S r j :
  flag (foldl undo_step r S) j
  = if bool_decide (j ∈ ids S) && selectableAt r j then Some false else flag r j.
Proof.
  revert r. induction S as [|s S IH]; intros r.
  - cbn [foldl ids fmap list_fmap]. rewrite bool_decide_eq_false_2; [done|]. apply not_elem_of_nil.
  - simpl. rewrite IH.
    rewrite (same_static_selectableAt r _ _ (undo_step_static _ _)), undo_step_flag.
    destruct (selectableAt r j); rewrite ?andb_true_r, ?andb_false_r; [|done].
    destruct (decide (j = element s)) as [->|Hne].
    + rewrite (bool_decide_eq_true_2 (element s ∈ element s :: _)) by (by left).
      rewrite (bool_decide_eq_true_2 (element s = element s)) by done.
      by case_bool_decide.
    + rewrite (bool_decide_eq_false_2 (j = element s)) by done.
      apply (f_equal (λ c : bool, if c then Some false else flag r j)).
      apply bool_decide_ext. rewrite elem_of_cons. tauto.
Qed.

Lemma foldl_undo_step_kids S r j :
  kids (foldl undo_step r S) j
  = (λ l, foldl (λ l s, move (element s) (index s) l) l (at_parent r j S)) <$> kids r j.
Proof.
  revert r. induction S as [|s S IH]; intros r.
  - simpl. by destruct (kids r j).
  - simpl. rewrite IH, undo_step_kids.
    rewrite (at_parent_static r _ _ _ (undo_step_static r s)).
    unfold at_parent at 2. case_bool_decide as Hp.
    + rewrite filter_cons_True by done. by destruct (kids r j).
    + rewrite filter_cons_False by done. done.
Qed.

(** *** [redo] and [undo] as a whole *)

Lemma redo_static cmd r : same_static r (redo cmd r).2.
Proof.
  unfold redo. simpl.
  eapply same_static_trans; [apply foldl_redo_move_static|].
  eapply same_static_trans; apply foldl_select_static.
Qed.

Lemma redo_kids cmd r j :
  kids (redo cmd r).2 j
  = (λ l, foldl (λ l x, move_end x l) l (ids (at_parent r j (selected cmd)))) <$> kids r j.
Proof. unfold redo. simpl. by rewrite !foldl_select_kids, foldl_redo_move_kids. Qed.

Lemma redo_flag cmd r j :
  flag (redo cmd r).2 j
  = if bool_decide (j ∈ ids (selected cmd)) && selectableAt r j then Some true
    else if bool_decide (j ∈ ids (deselected cmd)) && selectableAt r j then Some false
    else flag r j.
Proof.
  unfold redo. simpl. rewrite !foldl_select_flag, foldl_redo_move_flag.
  rewrite (same_static_selectableAt _ _ j (foldl_select_static false (deselected cmd) _)).
  by rewrite (same_static_selectableAt _ _ j (foldl_redo_move_static (selected cmd) r)).
Qed.

Lemma undo_static cmd r : same_static r (undo cmd r).2.
Proof.
  unfold undo. simpl.
  eapply same_static_trans; [apply foldl_undo_step_static|apply foldl_select_static].
Qed.

Lemma undo_kids cmd r j :
  kids (undo cmd r).2 j
  = (λ l, foldl (λ l s, move (element s) (index s) l) l
            (reverse (at_parent r j (selected cmd)))) <$> kids r j.
Proof.
  unfold undo. simpl. rewrite foldl_select_kids, foldl_undo_step_kids.
  unfold at_parent. by rewrite filter_reverse.
Qed.

Lemma ids_reverse S j : j ∈ ids (reverse S) ↔ j ∈ ids S.
Proof. unfold ids. by rewrite fmap_reverse, elem_of_reverse. Qed.

Lemma undo_flag cmd r j :
  flag (undo cmd r).2 j
  = if bool_decide (j ∈ ids (deselected cmd)) && selectableAt r j then Some true
    else if bool_decide (j ∈ ids (selected cmd)) && selectableAt r j then Some false
    else flag r j.
Proof.
  unfold undo. simpl. rewrite foldl_select_flag, foldl_undo_step_flag.
  rewrite (same_static_selectableAt _ _ j (foldl_undo_step_static _ r)).
  rewrite (bool_decide_ext _ _ (ids_reverse (deselected cmd) j)).
  by rewrite (bool_decide_ext _ _ (ids_reverse (selected cmd) j)).
Qed.

(** *** The capture loops of [execute] *)

Lemma selected_nodes_cons root i l :
  selected_nodes root (i :: l)
  = if is_selected_node root i then i :: selected_nodes root l else selected_nodes root l.
Proof.
  unfold selected_nodes. destruct (is_selected_node root i) eqn:E.
  - by rewrite filter_cons_True.
  - rewrite filter_cons_False; [done|]. by rewrite E.
Qed.

Lemma foldl_capture_selected root l acc nodes :
  foldl (capture_selected root) (acc, nodes) l
  = (acc ++ omap (selectable_child root) l, nodes ++ selected_nodes root l).
Proof.
  revert acc nodes. induction l as [|i l IH]; intros acc nodes.
  - simpl. by rewrite !app_nil_r.
  - rewrite selected_nodes_cons. cbn [foldl omap list_omap].
    unfold capture_selected at 2. unfold selectable_child at 1, is_selected_node.
    destruct (getById root i) as [e|] eqn:He; cbn [mbind option_bind fst snd].
    + destruct (isSChildElement e && isSelectable e) eqn:E; cbn [andb].
      * rewrite IH. destruct (isSNode e); by rewrite <- !app_assoc.
      * by rewrite IH.
    + by rewrite IH.
Qed.

Lemma indexOf_nonneg_bool x l : (0 <=? indexOf x l) = bool_decide (x ∈ l).
Proof.
  destruct (decide (x ∈ l)) as [Hx|Hx].
  - rewrite bool_decide_eq_true_2 by done. apply indexOf_in in Hx. apply Z.leb_le. lia.
  - rewrite bool_decide_eq_false_2 by done. rewrite indexOf_not_in by done. done.
Qed.

Lemma foldl_capture_edge root nodes l acc :
  foldl (capture_edge root nodes) acc l
  = acc ++ omap (λ ie : string * SModelElement,
                   if isSEdge ie.2
                      && (bool_decide (sourceId ie.2 ∈ nodes)
                          || bool_decide (targetId ie.2 ∈ nodes))
                   then Some (selection_of root ie.1 ie.2) else None) l.
Proof.
  revert acc. induction l as [|[i e] l IH]; intros acc.
  - simpl. by rewrite app_nil_r.
  - simpl. rewrite IH. unfold capture_edge. simpl. rewrite !indexOf_nonneg_bool.
    destruct (isSEdge e && _); simpl; [by rewrite <- app_assoc | done].
Qed.

Lemma foldl_capture_deselected root l acc :
  foldl (capture_deselected root) acc l = acc ++ omap (selectable_child root) l.
Proof.
  revert acc. induction l as [|i l IH]; intros acc.
  - simpl. by rewrite app_nil_r.
  - simpl. rewrite IH. unfold capture_deselected, selectable_child at 2.
    destruct (getById root i) as [e|]; cbn; [|done].
    destruct (isSChildElement e && isSelectable e); cbn; [by rewrite <- app_assoc | done].
Qed.

Lemma execute_capture cmd root : execute cmd root = redo (capture cmd root) root.
Proof.
  unfold execute, capture. rewrite foldl_capture_selected. simpl.
  rewrite foldl_capture_deselected, foldl_capture_edge. simpl.
  unfold connected_edges.
  destruct (selected_nodes root (selectedElementsIDs (action cmd))); reflexivity.
Qed.

(** *** The three loops on one list of children *)

Lemma foldl_move_end_to_end (Q : list string) (l : list string) :
  NoDup l → foldl (λ l x, move_end x l) l Q = foldl (λ l x, to_end x l) l Q.
Proof.
  revert l. induction Q as [|x Q IH]; intros l Hnd; [done|].
  simpl. rewrite move_end_to_end by done. apply IH. by apply to_end_NoDup.
Qed.

Lemma filter_to_end (P : string → Prop) `{!∀ y, Decision (P y)} x (l : list string) :
  NoDup l → ¬ P x → filter P (to_end x l) = filter P l.
Proof. intros Hnd HP. rewrite <- move_end_to_end by done. by apply filter_move. Qed.

Lemma foldl_to_end_frame (Q Q' : list string) (l : list string) :
  NoDup l → (∀ x, x ∈ Q' → x ∈ Q) →
  NoDup (foldl (λ l x, to_end x l) l Q')
  ∧ (∀ y, y ∈ foldl (λ l x, to_end x l) l Q' ↔ y ∈ l)
  ∧ filter (λ y, y ∉ Q) (foldl (λ l x, to_end x l) l Q') = filter (λ y, y ∉ Q) l.
Proof.
  revert l. induction Q' as [|x Q' IH]; intros l Hnd Hsub; [done|].
  simpl. destruct (IH (to_end x l)) as (H1 & H2 & H3).
  - by apply to_end_NoDup.
  - intros y Hy. apply Hsub. by right.
  - split; [done|]. split.
    + intros y. rewrite H2. by apply to_end_elem_of.
    + rewrite H3. apply filter_to_end; [done|]. intros Hx. apply Hx, Hsub. by left.
Qed.

Lemma foldl_move_back_frame (Q : list string) (T : list ElementSelection) (l : list string) :
  NoDup l → (∀ s, s ∈ T → element s ∈ Q) →
  NoDup (foldl move_back l T)
  ∧ (∀ y, y ∈ foldl move_back l T ↔ y ∈ l)
  ∧ filter (λ y, y ∉ Q) (foldl move_back l T) = filter (λ y, y ∉ Q) l.
Proof.
  revert l. induction T as [|s T IH]; intros l Hnd Hsub; [done|].
  simpl. destruct (IH (move_back l s)) as (H1 & H2 & H3).
  - by apply move_NoDup.
  - intros t Ht. apply Hsub. by right.
  - split; [done|]. split.
    + intros y. rewrite H2. apply move_elem_of.
    + rewrite H3. apply filter_move. intros Hx. apply Hx, Hsub. by left.
Qed.

(** Redo, undo, redo again: the second redo arrives where the first did. *)
Lemma redo_undo_redo_list (S : list ElementSelection) (l : list string) :
  NoDup l →
  foldl (λ l x, move_end x l)
        (foldl move_back (foldl (λ l x, move_end x l) l (ids S)) (reverse S)) (ids S)
  = foldl (λ l x, move_end x l) l (ids S).
Proof.
  intros Hnd.
  rewrite (foldl_move_end_to_end (ids S) l) by done.
  destruct (foldl_to_end_frame (ids S) (ids S) l Hnd) as (H1 & H2 & H3); [done|].
  destruct (foldl_move_back_frame (ids S) (reverse S) _ H1) as (H4 & H5 & H6).
  { intros s Hs. rewrite elem_of_reverse in Hs. unfold ids.
    apply list_elem_of_fmap. by exists s. }
  rewrite foldl_move_end_to_end by done.
  apply foldl_to_end_agree; [done|done| |].
  - intros y. by rewrite H5, H2.
  - by rewrite H6, H3.
Qed.

(** Redo, then undo, with indices that go down: back to the start. *)
Lemma undo_redo_list (S : list ElementSelection) (l : list string) :
  NoDup l →
  Forall (λ s, index s = indexOf (element s) l ∧ 0 ≤ index s) S →
  descending ((λ s, (element s, index s)) <$> S) →
  foldl move_back (foldl (λ l x, move_end x l) l (ids S)) (reverse S) = l.
Proof.
  intros Hnd Hidx Hdesc.
  rewrite foldl_move_end_to_end by done.
  pose proof (foldl_move_back ((λ s, (element s, index s)) <$> S) l Hnd) as H.
  rewrite <- fmap_reverse, !foldl_fmap in H. unfold ids. rewrite foldl_fmap.
  apply H; [|done]. by apply Forall_fmap.
Qed.

Lemma undo_selected cmd r : selected (undo cmd r).1 = selected cmd.
Proof. done. Qed.

Lemma undo_deselected cmd r : deselected (undo cmd r).1 = reverse (deselected cmd).
Proof. done. Qed.

Lemma redo_undo_redo cmd r :
  children_NoDup r →
  (redo (undo cmd (redo cmd r).2).1 (undo cmd (redo cmd r).2).2).2 = (redo cmd r).2.
Proof.
  intros Hnd.
  set (r1 := (redo cmd r).2). set (r2 := (undo cmd r1).2).
  assert (same_static r r1) as H01 by apply redo_static.
  assert (same_static r1 r2) as H12 by apply undo_static.
  assert (same_static r r2) as H02 by (by eapply same_static_trans).
  apply root_ext.
  - apply same_static_sym. eapply same_static_trans; [exact H12|apply redo_static].
  - intros j. rewrite redo_flag, undo_selected, undo_deselected.
    fold r2. rewrite (same_static_selectableAt r r2) by done.
    unfold r2. rewrite undo_flag. fold r2.
    rewrite (same_static_selectableAt r r1) by done.
    pose proof (redo_flag cmd r j) as Hf1. fold r1 in Hf1. rewrite !Hf1.
    rewrite (bool_decide_ext _ _ (ids_reverse (deselected cmd) j)).
    destruct (bool_decide (j ∈ ids (selected cmd))), (selectableAt r j),
      (bool_decide (j ∈ ids (deselected cmd))); reflexivity.
  - intros j. rewrite redo_kids, undo_selected. fold r2.
    rewrite (at_parent_static r r2) by done.
    unfold r2. rewrite undo_kids. rewrite (at_parent_static r r1) by done.
    unfold r1. rewrite redo_kids.
    destruct (kids r j) as [l|] eqn:Hk; [|done]. simpl. f_equal.
    rewrite <- (redo_undo_redo_list (at_parent r j (selected cmd)) l) at 2; [done|].
    by eapply children_NoDup_kids.
Qed.

(** *** What [execute] captures *)

Lemma selectable_child_captured root l :
  Forall (captured_at root) (omap (selectable_child root) l).
Proof.
  induction l as [|i l IH]; [by constructor|].
  cbn [omap list_omap]. unfold selectable_child at 1.
  destruct (getById root i) as [e|] eqn:He; cbn [mbind option_bind]; [|done].
  destruct (isSChildElement e && isSelectable e); [|done].
  constructor; [|done]. by exists e.
Qed.

Lemma all_getById root i e : (i, e) ∈ all root → getById root i = Some e.
Proof.
  unfold all. rewrite list_elem_of_omap. intros (j & _ & Hj).
  destruct (getById root j) eqn:E; simpl in Hj; congruence.
Qed.

Lemma connected_edges_captured root nodes :
  Forall (captured_at root) (connected_edges root nodes).
Proof.
  unfold connected_edges. apply Forall_forall. intros s.
  rewrite list_elem_of_omap. intros ([i e] & Hin & Hs). simpl in Hs.
  destruct (isSEdge e && _); [|done]. injection Hs as <-.
  exists e. split; [|done]. by apply all_getById.
Qed.

Lemma capture_new_captured a root :
  Forall (captured_at root) (selected (capture (new a) root)).
Proof.
  unfold capture. simpl. apply Forall_app. split.
  - destruct (selected_nodes _ _); [by constructor|apply connected_edges_captured].
  - apply selectable_child_captured.
Qed.

Lemma descending_at_parent root j S :
  descending_siblings root S = true →
  descending ((λ s, (element s, index s)) <$> at_parent root j S).
Proof.
  induction S as [|s S IH]; [done|].
  simpl. intros [Hall Hrest]%andb_true_iff.
  unfold at_parent. destruct (decide (parentOf root (element s) = Some j)) as [Hp|Hp].
  - rewrite filter_cons_True by done. rewrite fmap_cons. simpl. split; [|by apply IH].
    apply Forall_fmap, Forall_forall. intros t Ht. simpl.
    apply list_elem_of_filter in Ht as [Htp Ht].
    rewrite forallb_forall in Hall. apply list_elem_of_In in Ht.
    specialize (Hall t Ht). rewrite bool_decide_eq_true_2 in Hall by congruence.
    by apply Z.ltb_lt.
  - rewrite filter_cons_False by done. by apply IH.
Qed.

(** C9. [execute] is the capture phase followed by [redo]; and from the
    state [execute] leaves, [undo] followed by [redo] leads back to that
    state. *)
Theorem execute_is_capture_then_redo (a : SelectAction) (root : SModelRoot) :
  children_NoDup root →
  execute (new a) root = redo (capture (new a) root) root
  ∧ (redo (undo (execute (new a) root).1 (execute (new a) root).2).1
          (undo (execute (new a) root).1 (execute (new a) root).2).2).2
    = (execute (new a) root).2.
Proof.
  intros Hnd. split; [apply execute_capture|].
  rewrite execute_capture. by apply redo_undo_redo.
Qed.

Lemma undo_redo_restores cmd (root : SModelRoot) :
  children_NoDup root → children_listed root →
  Forall (captured_at root) (selected cmd) →
  (∀ s, s ∈ deselected cmd → flag root (element s) = Some true) →
  (∀ s, s ∈ selected cmd → element s ∉ ids (deselected cmd) →
        selectableAt root (element s) = true → flag root (element s) = Some false) →
  descending_siblings root (selected cmd) = true →
  (undo cmd (redo cmd root).2).2 = root.
Proof.
  intros Hnd Hlisted Hc HD HS Hdesc.
  set (r1 := (redo cmd root).2).
  assert (same_static root r1) as H01 by apply redo_static.
  symmetry. apply root_ext.
  - eapply same_static_trans; [exact H01|apply undo_static].
  - intros j. rewrite undo_flag. rewrite (same_static_selectableAt root r1) by done.
    unfold r1. rewrite redo_flag.
    destruct (decide (j ∈ ids (deselected cmd))) as [HjD|HjD];
      destruct (selectableAt root j) eqn:Hsel;
      rewrite ?(bool_decide_eq_true_2 _ HjD), ?(bool_decide_eq_false_2 _ HjD),
        ?andb_true_r, ?andb_false_r; try done.
    + apply list_elem_of_fmap in HjD as (s & -> & Hs). by apply HD.
    + destruct (decide (j ∈ ids (selected cmd))) as [HjS|HjS];
        rewrite ?(bool_decide_eq_true_2 _ HjS), ?(bool_decide_eq_false_2 _ HjS); [|done].
      apply list_elem_of_fmap in HjS as (s & -> & Hs). by apply HS.
  - intros j. rewrite undo_kids. rewrite (at_parent_static root r1) by done.
    unfold r1. rewrite redo_kids.
    destruct (kids root j) as [l|] eqn:Hk; [|done]. simpl. f_equal. symmetry.
    apply undo_redo_list.
    + by eapply children_NoDup_kids.
    + apply Forall_forall. intros s Hs.
      apply list_elem_of_filter in Hs as [Hp Hs].
      rewrite Forall_forall in Hc. destruct (Hc s Hs) as (e & He & Hi).
      rewrite (siblings_kids root (element s) e j l He Hp Hk) in Hi.
      split; [done|]. rewrite Hi.
      assert (element s ∈ l) as Hin; [|apply indexOf_in in Hin; lia].
      specialize (Hlisted (element s) e He). unfold listed in Hlisted.
      assert (parent e = Some j) as Hpe.
      { unfold parentOf in Hp. by rewrite He in Hp. }
      rewrite Hpe in Hlisted. apply bool_decide_eq_true in Hlisted.
      by rewrite (siblings_kids root (element s) e j l He Hp Hk) in Hlisted.
    + by apply descending_at_parent.
Qed.

(** A case in which the round trip holds. When the elements captured as
    deselected were selected and those captured as selected were not, and
    no sibling is captured before a sibling of smaller index, [undo] after
    [execute] gives back the model as it was: ids, attributes, flags and
    child order. *)
Theorem undo_execute_restores (a : SelectAction) (root : SModelRoot) :
  children_NoDup root → children_listed root →
  (∀ s, s ∈ deselected (execute (new a) root).1 → flag root (element s) = Some true) →
  (∀ s, s ∈ selected (execute (new a) root).1 →
        element s ∉ ids (deselected (execute (new a) root).1) →
        selectableAt root (element s) = true →
        flag root (element s) = Some false) →
  descending_siblings root (selected (execute (new a) root).1) = true →
  (undo (execute (new a) root).1 (execute (new a) root).2).2 = root.
Proof.
  rewrite execute_capture. intros Hnd Hlisted HD HS Hdesc.
  apply (undo_redo_restores (capture (new a) root) root); try done.
  apply capture_new_captured.
Qed.

Example execute_select_N1 :
  selected (execute (new select_N1) wired).1 = [mkSelection "E1" 1; mkSelection "N1" 0]
  ∧ deselected (execute (new select_N1) wired).1 = [mkSelection "N3" 4]
  ∧ kids (execute (new select_N1) wired).2 "g" = Some ["E2"; "N2"; "N3"; "E1"; "N1"].
Proof. vm_compute. done. Qed.

Lemma execute_is_capture_then_redo_witness :
  (redo (undo (execute (new select_N1) wired).1 (execute (new select_N1) wired).2).1
        (undo (execute (new select_N1) wired).1 (execute (new select_N1) wired).2).2).2
  = (execute (new select_N1) wired).2.
Proof.
  apply (execute_is_capture_then_redo select_N1 wired).
  apply (bool_decide_unpack _). vm_compute. exact I.
Defined.

Lemma undo_execute_restores_witness :
  (undo (execute (new select_N1) wired).1 (execute (new select_N1) wired).2).2 = wired.
Proof.
  apply (undo_execute_restores select_N1 wired).
  - apply (bool_decide_unpack _). vm_compute. exact I.
  - apply (bool_decide_unpack _). vm_compute. exact I.
  - intros s Hs. vm_compute in Hs. apply list_elem_of_singleton in Hs as ->. reflexivity.
  - intros s Hs _ _. vm_compute in Hs.
    apply elem_of_cons in Hs as [->|Hs]; [reflexivity|].
    apply list_elem_of_singleton in Hs as ->. reflexivity.
  - reflexivity.
Defined.

(** Three round trips that do not come back to where they started. *)
Example undo_execute_values :
  (* two siblings captured in the order of their indices *)
  kids (undo (execute (new (mkSelectAction ["a"; "b"] [])) three_nodes).1
             (execute (new (mkSelectAction ["a"; "b"] [])) three_nodes).2).2 "g"
    = Some ["a"; "c"; "b"]
  ∧ kids three_nodes "g" = Some ["a"; "b"; "c"]
  (* an element that was selected before it is selected *)
  ∧ flag (undo (execute (new (mkSelectAction ["b"] [])) three_nodes).1
               (execute (new (mkSelectAction ["b"] [])) three_nodes).2).2 "b"
    = Some false
  ∧ flag three_nodes "b" = Some true
  (* an element that was not selected before it is deselected *)
  ∧ flag (undo (execute (new (mkSelectAction [] ["c"])) three_nodes).1
               (execute (new (mkSelectAction [] ["c"])) three_nodes).2).2 "c"
    = Some true
  ∧ flag three_nodes "c" = Some false.
Proof. vm_compute. done. Qed.

(** Three actions on [three_nodes] after which [undo] does not give back
    the model: two siblings captured in the order of their indices, an
    element selected again, and an element deselected again. *)
Lemma undo_execute_not_identity :
  (undo (execute (new (mkSelectAction ["a"; "b"] [])) three_nodes).1
        (execute (new (mkSelectAction ["a"; "b"] [])) three_nodes).2).2 ≠ three_nodes
  ∧ (undo (execute (new (mkSelectAction ["b"] [])) three_nodes).1
          (execute (new (mkSelectAction ["b"] [])) three_nodes).2).2 ≠ three_nodes
  ∧ (undo (execute (new (mkSelectAction [] ["c"])) three_nodes).1
          (execute (new (mkSelectAction [] ["c"])) three_nodes).2).2 ≠ three_nodes.
Proof.
  split; [|split]; intros H.
  - apply (f_equal (λ r, kids r "g")) in H. vm_compute in H. discriminate.
  - apply (f_equal (λ r, flag r "b")) in H. vm_compute in H. discriminate.
  - apply (f_equal (λ r, flag r "c")) in H. vm_compute in H. discriminate.
Qed.

(** Two siblings captured in the order of their indices, with a further
    sibling behind the second. [redo] takes both to the end; [undo] puts
    the second back first, while the first is still at the end and every
    sibling in between stands one place lower than when the index was
    captured: the second ends one place too far back. *)
Lemma undo_redo_ascending_pair (A B C : list string) (x y c : string) :
  NoDup (A ++ x :: B ++ y :: c :: C) →
  foldl (λ l s, move (element s) (index s) l)
        (foldl (λ l z, move_end z l) (A ++ x :: B ++ y :: c :: C) [x; y])
        [mkSelection y (Z.of_nat (length A + 1 + length B));
         mkSelection x (Z.of_nat (length A))]
  = A ++ x :: B ++ c :: y :: C.
Proof.
  intros Hnd.
  pose proof Hnd as Hnd0.
  apply NoDup_app_middle in Hnd as (HxA & HxR & Hnd1).
  assert (NoDup ((A ++ B) ++ y :: c :: C)) as Hnd2 by (by rewrite <- app_assoc).
  apply NoDup_app_middle in Hnd2 as (HyAB & HyR & Hnd3).
  assert (x ≠ y) as Hxy.
  { intros ->. apply HxR. apply elem_of_app. right. by left. }
  assert (y ∉ (c :: C) ++ [x]) as HyR'.
  { intros H. apply elem_of_app in H as [H|H]; [by apply HyR|].
    apply list_elem_of_singleton in H. by apply Hxy. }
  assert (y ∉ (A ++ B) ++ (c :: C) ++ [x]) as Hy.
  { intros H. apply elem_of_app in H as [H|H]; [by apply HyAB|by apply HyR']. }
  assert (x ∉ A ++ B ++ c :: y :: C) as Hx.
  { intros H. apply elem_of_app in H as [H|H]; [by apply HxA|]. apply HxR.
    apply elem_of_app in H as [H|H]; apply elem_of_app; [by left|right].
    apply elem_of_cons in H as [->|H]; [right; by left|].
    apply elem_of_cons in H as [->|H]; [by left|]. right. by right. }
  rewrite foldl_move_end_to_end by done.
  cbn [foldl element index]. unfold to_end at 2.
  rewrite decide_True by (apply elem_of_app; right; by left).
  rewrite filter_ne_app_middle by done.
  replace ((A ++ B ++ y :: c :: C) ++ [x]) with ((A ++ B) ++ y :: (c :: C) ++ [x])
    by (by rewrite <- !app_assoc).
  unfold to_end. rewrite decide_True by (apply elem_of_app; right; by left).
  rewrite filter_ne_app_middle by done.
  rewrite (move_app_middle y _ ((A ++ B) ++ (c :: C) ++ [x]) []); [|done|].
  2:{ rewrite app_nil_r, !length_app. cbn [length]. lia. }
  rewrite app_nil_r, Nat2Z.id.
  replace ((A ++ B) ++ (c :: C) ++ [x]) with ((A ++ B ++ [c]) ++ C ++ [x])
    by (by rewrite <- !app_assoc).
  replace (length A + 1 + length B)%nat with (length (A ++ B ++ [c]))
    by (rewrite !length_app; cbn [length]; lia).
  rewrite take_app_length, drop_app_length.
  replace ((A ++ B ++ [c]) ++ y :: C ++ [x]) with ((A ++ B ++ c :: y :: C) ++ x :: [])
    by (by rewrite <- !app_assoc).
  rewrite (move_app_middle x _ (A ++ B ++ c :: y :: C) []); [|done|].
  2:{ rewrite app_nil_r, !length_app. lia. }
  rewrite app_nil_r, Nat2Z.id.
  by rewrite take_app_length, drop_app_length.
Qed.

(** C1. [undo] visibly means to put every element back where it was, and
    misses for two siblings captured in the order of their indices when a
    further sibling stands behind the second: after [execute] and [undo]
    the second has changed places with the sibling behind it. A plain
    click on a node whose edge comes before it among the children is such
    a case. *)
Theorem undo_execute_misplaces (a : SelectAction) (root : SModelRoot) (p : string)
    (A B C : list string) (x y c : string) :
  kids root p = Some (A ++ x :: B ++ y :: c :: C) →
  NoDup (A ++ x :: B ++ y :: c :: C) →
  at_parent root p (selected (execute (new a) root).1)
  = [mkSelection x (Z.of_nat (length A));
     mkSelection y (Z.of_nat (length A + 1 + length B))] →
  kids (undo (execute (new a) root).1 (execute (new a) root).2).2 p
  = Some (A ++ x :: B ++ c :: y :: C)
  ∧ kids (undo (execute (new a) root).1 (execute (new a) root).2).2 p ≠ kids root p.
Proof.
  intros Hk Hnd. rewrite execute_capture.
  change (redo (capture (new a) root) root).1 with (capture (new a) root).
  set (cmd := capture (new a) root). intros Hat.
  assert (kids (undo cmd (redo cmd root).2).2 p = Some (A ++ x :: B ++ c :: y :: C)) as H.
  { rewrite undo_kids, redo_kids, Hk.
    rewrite (at_parent_static root _ p _ (redo_static cmd root)), Hat.
    cbn [fmap option_fmap option_map ids list_fmap element].
    f_equal. by apply undo_redo_ascending_pair. }
  split; [exact H|].
  rewrite H, Hk. intros [= Heq]. apply app_inv_head in Heq. injection Heq as Heq.
  apply app_inv_head in Heq. injection Heq as Heq _.
  apply NoDup_app in Hnd as (_ & _ & Hnd). apply NoDup_cons in Hnd as [_ Hnd].
  apply NoDup_app in Hnd as (_ & _ & Hnd). apply NoDup_cons in Hnd as [Hy _].
  apply Hy. rewrite Heq. by left.
Qed.

Lemma undo_execute_misplaces_witness :
  kids clicked "g" = Some ["E1"; "N1"; "N2"]
  ∧ selected (execute (new click_N1) clicked).1 = [mkSelection "E1" 0; mkSelection "N1" 1]
  ∧ kids (execute (new click_N1) clicked).2 "g" = Some ["N2"; "E1"; "N1"]
  ∧ kids (undo (execute (new click_N1) clicked).1 (execute (new click_N1) clicked).2).2 "g"
    = Some ["E1"; "N2"; "N1"]
  ∧ Forall (λ j, flag (undo (execute (new click_N1) clicked).1
                            (execute (new click_N1) clicked).2).2 j = flag clicked j)
           ["g"; "E1"; "N1"; "N2"].
Proof.
  split; [reflexivity|]. split; [reflexivity|]. split; [reflexivity|]. split.
  - apply (undo_execute_misplaces click_N1 clicked "g" [] [] [] "E1" "N1" "N2").
    + reflexivity.
    + apply (bool_decide_unpack _). vm_compute. exact I.
    + reflexivity.
  - repeat constructor.
Defined.




(** C3, as stated, fails: the edge E2, connected to no selected node, is at
    index 2 before [execute] and at index 0 after it. *)
Lemma unrelated_edge_changes_index :
  indexOf "E2" (default [] (kids wired "g")) = 2
  ∧ indexOf "E2" (default [] (kids (execute (new (mkSelectAction ["N1"] [])) wired).2 "g")) = 0
  ∧ indexOf "E2" (default [] (kids (execute (new (mkSelectAction ["N1"] [])) wired).2 "g"))
    ≠ indexOf "E2" (default [] (kids wired "g")).
Proof. vm_compute. done. Qed.

(** C3, as amended. When [execute] captures a node, the selected list
    is the connected edges, in index order and with their sibling indices,
    followed by the elements selected by id. After [execute] the elements
    of a parent that were not captured come first, in the order they had,
    and the captured ones follow in the order of their (last) capture. *)
Theorem execute_captures_edges_first (a : SelectAction) (root : SModelRoot) :
  let nodes := selected_nodes root (selectedElementsIDs a) in
  let direct := omap (selectable_child root) (selectedElementsIDs a) in
  (nodes ≠ [] →
     selected (execute (new a) root).1 = connected_edges root nodes ++ direct)
  ∧ (nodes = [] → selected (execute (new a) root).1 = direct)
  ∧ (∀ j l, kids root j = Some l → NoDup l →
       let moved := ids (at_parent root j (selected (execute (new a) root).1)) in
       kids (execute (new a) root).2 j
       = Some (filter (λ y, y ∉ moved) l ++ remove_dups (filter (λ y, y ∈ l) moved))).
Proof.
  intros nodes direct. rewrite execute_capture.
  split; [|split].
  - intros Hn. unfold redo, capture. simpl. fold nodes. by destruct nodes.
  - intros Hn. unfold redo, capture. simpl. fold nodes. by rewrite Hn.
  - intros j l Hk Hnd moved. rewrite redo_kids, Hk. simpl.
    rewrite foldl_move_end_to_end by done. by rewrite foldl_to_end_closed.
Qed.

Lemma execute_captures_edges_first_witness :
  selected (execute (new select_N1) wired).1 = [mkSelection "E1" 1; mkSelection "N1" 0]
  ∧ kids (execute (new select_N1) wired).2 "g" = Some ["E2"; "N2"; "N3"; "E1"; "N1"].
Proof.
  destruct (execute_captures_edges_first select_N1 wired) as (Hs & _ & Hk).
  split.
  - rewrite Hs; [reflexivity|]. vm_compute. discriminate.
  - rewrite (Hk "g" ["N1"; "E1"; "E2"; "N2"; "N3"]); [reflexivity|reflexivity|].
    apply (bool_decide_unpack _). vm_compute. exact I.
Defined.

End SelectCommandFacts.

(** ** SelectAllCommand *)

Module SelectAllCommandFacts.
Import SModel SModelFacts SelectAllCommand Samples.Select.

Lemma descendants_kids_same fuel r r' i :
  kids_same r r' → descendants fuel r i = descendants fuel r' i.
Proof.
  intros H. revert i. induction fuel as [|n IH]; intros i; [done|].
  simpl. pose proof (H i) as Hi. unfold kids in Hi.
  destruct (getById r i) as [e|], (getById r' i) as [e'|]; simpl in Hi; try done.
  injection Hi as ->. f_equal.
  induction (children e') as [|c cs IHcs]; [done|].
  cbn [mapM]. by rewrite IH, IHcs.
Qed.

Lemma visit_root b p r i : (visit b (p, r) i).2 = select_if_selectable b i r.
Proof.
  unfold visit, record_and_set, select_if_selectable. simpl.
  destruct (getById r i) as [e|] eqn:He; simpl.
  - destruct (isSelectable e) eqn:Hs; simpl.
    + unfold with_elements. f_equal. apply map_eq. intros j.
      rewrite !lookup_alter. case_decide; [|done]. subst.
      unfold getById in He. rewrite He. simpl. by rewrite Hs.
    + destruct r as [ri ra rm]. unfold with_elements. simpl. f_equal.
      apply map_eq. intros j. rewrite lookup_alter. case_decide; [|done]. subst.
      unfold getById in He. simpl in He. rewrite He. simpl. by rewrite Hs.
  - destruct r as [ri ra rm]. unfold with_elements. simpl. f_equal.
    apply map_eq. intros j. rewrite lookup_alter. case_decide; [|done]. subst.
    unfold getById in He. simpl in He. by rewrite He.
Qed.

Lemma lookup_assign k v (o : gmap string bool) j :
  assign k v o !! j
  = if bool_decide (j = k) && bool_decide (j ≠ "__proto__") then Some v else o !! j.
Proof.
  unfold assign. destruct (decide (k = "__proto__")) as [->|Hk].
  - case_bool_decide as Hj; [|done]. subst.
    by rewrite (bool_decide_eq_false_2 ("__proto__" ≠ "__proto__")) by (intros H; by apply H).
  - destruct (decide (j = k)) as [->|Hne].
    + by rewrite lookup_insert_eq, !bool_decide_eq_true_2.
    + by rewrite lookup_insert_ne, (bool_decide_eq_false_2 (j = k)).
Qed.

Lemma visit_previous b p r i :
  (visit b (p, r) i).1
  = if selectableAt r i then assign i (default false (flag r i)) p else p.
Proof.
  unfold visit, record_and_set, selectableAt, flag. simpl.
  destruct (getById r i) as [e|]; simpl; [|done].
  unfold isSelectable. by destruct (selectable e).
Qed.

Lemma visit_kids_same b st i : kids_same st.2 (visit b st i).2.
Proof.
  destruct st as [p r]. rewrite visit_root. intros j. simpl. by rewrite select_kids.
Qed.

Lemma foldl_visit_kids_same b l st : kids_same st.2 (foldl (visit b) st l).2.
Proof.
  revert st. induction l as [|i l IH]; intros st; [done|].
  simpl. intros j. rewrite <- IH. apply visit_kids_same.
Qed.

(** [selectAll] is the walk, with [visit] at every element. *)
Lemma selectAll_walk fuel b i st l :
  descendants fuel st.2 i = Some l →
  selectAll fuel i b st = Some (foldl (visit b) st l).
Proof.
  revert i st l. induction fuel as [|n IH]; intros i st l Hd; [done|].
  simpl in *.
  destruct (getById st.2 i) as [e|] eqn:He.
  2:{ injection Hd as <-. done. }
  destruct (mapM (descendants n st.2) (children e)) as [ls|] eqn:Hm; [|done].
  injection Hd as <-. simpl. unfold visit at 2. rewrite He.
  assert (kids_same st.2 (record_and_set i e b st).2) as Hsame.
  { pose proof (visit_kids_same b st i) as H. unfold visit in H. by rewrite He in H. }
  generalize dependent (record_and_set i e b st). intros st' Hsame.
  clear He. revert ls st' Hm Hsame.
  induction (children e) as [|c cs IHcs]; intros ls st' Hm Hsame.
  - injection Hm as <-. done.
  - cbn [mapM] in Hm.
    destruct (descendants n st.2 c) as [lc|] eqn:Hc; [|done]. cbn in Hm.
    destruct (mapM (descendants n st.2) cs) as [ls'|] eqn:Hcs; [|done].
    injection Hm as <-. simpl.
    rewrite (IH c st' lc) by (by rewrite <- (descendants_kids_same n st.2)).
    rewrite foldl_app. apply IHcs; [done|].
    intros j. rewrite (Hsame j). apply foldl_visit_kids_same.
Qed.

Lemma foldl_visit_static b l st : same_static st.2 (foldl (visit b) st l).2.
Proof.
  revert st. induction l as [|i l IH]; intros [p r]; [done|].
  simpl. eapply same_static_trans; [|apply IH].
  rewrite visit_root. apply select_static.
Qed.

Lemma foldl_visit_flag b l p r j :
  flag (foldl (visit b) (p, r) l).2 j
  = if bool_decide (j ∈ l) && selectableAt r j then Some b else flag r j.
Proof.
  revert p r. induction l as [|i l IH]; intros p r.
  - cbn [foldl]. rewrite bool_decide_eq_false_2; [done|]. apply not_elem_of_nil.
  - simpl. destruct (visit b (p, r) i) as [p' r'] eqn:Hv.
    assert (r' = select_if_selectable b i r) as ->.
    { by rewrite <- (visit_root b p r i), Hv. }
    rewrite IH.
    rewrite (same_static_selectableAt r _ _ (select_static _ _ _)), select_flag.
    destruct (selectableAt r j); rewrite ?andb_true_r, ?andb_false_r; [|done].
    destruct (decide (j = i)) as [->|Hne].
    + rewrite (bool_decide_eq_true_2 (i ∈ i :: l)) by (by left).
      rewrite (bool_decide_eq_true_2 (i = i)) by done.
      by case_bool_decide.
    + rewrite (bool_decide_eq_false_2 (j = i)) by done.
      apply (f_equal (λ c : bool, if c then Some b else flag r j)).
      apply bool_decide_ext. rewrite elem_of_cons. tauto.
Qed.

(** When the walk meets no element twice, what is recorded for an element
    is the flag it had before the walk; for the id [__proto__] nothing is
    recorded. *)
Lemma foldl_visit_previous b l p r j :
  NoDup l →
  (foldl (visit b) (p, r) l).1 !! j
  = if bool_decide (j ∈ l) && selectableAt r j && bool_decide (j ≠ "__proto__")
    then flag r j else p !! j.
Proof.
  revert p r. induction l as [|i l IH]; intros p r Hnd.
  - cbn [foldl]. rewrite bool_decide_eq_false_2; [done|]. apply not_elem_of_nil.
  - apply NoDup_cons in Hnd as [Hi Hnd].
    simpl. destruct (visit b (p, r) i) as [p' r'] eqn:Hv.
    assert (r' = select_if_selectable b i r) as ->.
    { by rewrite <- (visit_root b p r i), Hv. }
    assert (p' = if selectableAt r i then assign i (default false (flag r i)) p else p) as ->.
    { by rewrite <- (visit_previous b p r i), Hv. }
    rewrite IH by done.
    rewrite (same_static_selectableAt r _ _ (select_static _ _ _)), select_flag.
    destruct (decide (j = i)) as [->|Hne].
    + rewrite (bool_decide_eq_false_2 (i ∈ l)) by done.
      rewrite (bool_decide_eq_true_2 (i ∈ i :: l)) by (by left). simpl.
      destruct (selectableAt r i) eqn:Hs; [|done].
      rewrite lookup_assign, (bool_decide_eq_true_2 (i = i)) by done. cbn [andb].
      destruct (bool_decide (i ≠ "__proto__")); [|done].
      unfold selectableAt, flag in *. by destruct (getById r i).
    + rewrite (bool_decide_eq_false_2 (j = i)) by done. simpl.
      assert (bool_decide (j ∈ i :: l) = bool_decide (j ∈ l)) as ->.
      { apply bool_decide_ext. rewrite elem_of_cons. tauto. }
      destruct (bool_decide (j ∈ l) && selectableAt r j && bool_decide (j ≠ "__proto__"));
        [done|].
      destruct (selectableAt r i); [|done].
      by rewrite lookup_assign, (bool_decide_eq_false_2 (j = i)).
Qed.

Lemma restore_select i b r : restore i b r = select_if_selectable b i r.
Proof.
  pose proof (visit_root b ∅ r i) as H. unfold visit, record_and_set in H.
  unfold restore. simpl in H.
  destruct (getById r i) as [e|]; [|done]. by destruct (isSelectable e).
Qed.

(** [undo] on the object graph. *)
Lemma undo_effect (cmd : SelectAllCommand) r :
  same_static r (undo cmd r).2
  ∧ kids_same r (undo cmd r).2
  ∧ ∀ j, flag (undo cmd r).2 j
         = match previousSelection cmd !! j with
           | Some v => if selectableAt r j then Some v else flag r j
           | None => flag r j
           end.
Proof.
  unfold undo. simpl.
  apply (map_fold_weak_ind
           (λ r' (m : gmap string bool),
              same_static r r' ∧ kids_same r r'
              ∧ ∀ j, flag r' j = match m !! j with
                                 | Some v => if selectableAt r j then Some v else flag r j
                                 | None => flag r j
                                 end)).
  - split; [done|]. split; [done|]. intros j. by rewrite lookup_empty.
  - intros i v m r' Hi (Hst & Hk & Hf). rewrite restore_select. split; [|split].
    + eapply same_static_trans; [exact Hst|apply select_static].
    + intros j. by rewrite select_kids.
    + intros j. rewrite select_flag, (same_static_selectableAt r r') by done.
      destruct (decide (j = i)) as [->|Hne].
      * rewrite lookup_insert_eq, bool_decide_eq_true_2 by done. simpl.
        destruct (selectableAt r i); [done|]. rewrite Hf. by rewrite Hi.
      * rewrite lookup_insert_ne, bool_decide_eq_false_2 by done. simpl. apply Hf.
Qed.

Lemma foldl_visit_root_independent b l p p' r :
  (foldl (visit b) (p, r) l).2 = (foldl (visit b) (p', r) l).2.
Proof.
  apply root_ext.
  - eapply same_static_trans; [apply same_static_sym, (foldl_visit_static b l (p, r))|].
    apply (foldl_visit_static b l (p', r)).
  - intros j. by rewrite !foldl_visit_flag.
  - intros j. rewrite <- (foldl_visit_kids_same b l (p, r) j).
    by rewrite <- (foldl_visit_kids_same b l (p', r) j).
Qed.

(** More fuel changes nothing once the walk has ended. *)
Lemma descendants_more_fuel fuel fuel' r i l :
  descendants fuel r i = Some l → (fuel ≤ fuel')%nat → descendants fuel' r i = Some l.
Proof.
  revert fuel' i l. induction fuel as [|n IH]; intros fuel' i l Hd Hle; [done|].
  destruct fuel' as [|n']; [lia|]. simpl in *.
  destruct (getById r i) as [e|]; [|done].
  destruct (mapM (descendants n r) (children e)) as [ls|] eqn:Hm; [|done].
  injection Hd as <-.
  assert (mapM (descendants n' r) (children e) = Some ls) as ->; [|done].
  revert ls Hm. induction (children e) as [|c cs IHcs]; intros ls Hm; [done|].
  cbn [mapM] in *.
  destruct (descendants n r c) as [lc|] eqn:Hc; [|done]. cbn in Hm.
  destruct (mapM (descendants n r) cs) as [ls'|] eqn:Hcs; [|done].
  injection Hm as <-.
  rewrite (IH n' c lc) by (done || lia). cbn. by rewrite (IHcs ls').
Qed.




End SelectAllCommandFacts.

(** ** The diagram server *)

Module DiagramServerFacts.
Import DiagramServer Samples.Server.

(** Induction over a schema tree, with the hypothesis for every child. *)
Lemma schema_ind_all (P : SModelElementSchema → Prop) :
  (∀ t i p s a ch, Forall P ch → P (mkSchema t i p s a ch)) → ∀ e, P e.
Proof.
  intros H. fix IH 1. intros [t i p s a ch]. apply H.
  induction ch as [|c ch IHch]; constructor; [apply IH | exact IHch].
Qed.

Lemma sent_app tr1 tr2 : sent (tr1 ++ tr2) = sent tr1 ++ sent tr2.
Proof. unfold sent. apply omap_app. Qed.

Lemma sent_storeNewModel a this :
  sent (trace (storeNewModel a this)) = sent (trace this).
Proof.
  unfold storeNewModel.
  destruct (_ || _); [|done].
  destruct (newRoot a) as [r|]; [|done].
  destruct (_ || _); simpl; rewrite sent_app; simpl; apply app_nil_r.
Qed.

Lemma clientId_storeNewModel a this :
  this_clientId (storeNewModel a this) = this_clientId this.
Proof.
  unfold storeNewModel.
  destruct (_ || _); [|done].
  destruct (newRoot a) as [r|]; [|done].
  by destruct (_ || _).
Qed.

Lemma sent_handleLocally a this :
  sent (trace (handleLocally a this).2) = sent (trace this)
  ∧ this_clientId (handleLocally a this).2 = this_clientId this.
Proof.
  unfold handleLocally.
  pose proof (sent_storeNewModel a this) as Hs.
  pose proof (clientId_storeNewModel a this) as Hc.
  repeat case_bool_decide; simpl; try done.
  - unfold handleComputedBounds.
    destruct (needsServerLayout _); simpl; [done|].
    case_bool_decide; simpl; rewrite sent_app; simpl; rewrite app_nil_r; done.
  - rewrite sent_app. simpl. rewrite app_nil_r. done.
Qed.

(** C5. [handle] sends an envelope with this instance's client id and the
    action exactly when [handleLocally] answers true, and sends nothing
    else; for a kind outside the policy table [handleLocally] answers true
    exactly when the action does not carry the received-from-server mark. *)
Theorem handle_forwards_iff_handleLocally (a : Action) (this : DiagramServer) :
  sent (trace (handle a this))
    = sent (trace this)
      ++ (if (handleLocally a this).1
          then [mkActionMessage (this_clientId this) a] else [])
  ∧ (kind a ∉ policy_kinds →
     (handleLocally a this).1 = negb (receivedFromServer a)).
Proof.
  split.
  - unfold handle.
    destruct (sent_handleLocally a this) as [Hs Hc].
    destruct (handleLocally a this) as [[] this1]; simpl in *.
    + rewrite !sent_app, Hs, Hc. simpl. by rewrite app_nil_r.
    + by rewrite Hs, app_nil_r.
  - intros Hk. unfold policy_kinds in Hk. unfold handleLocally.
    repeat case_bool_decide; try done; exfalso; apply Hk; set_solver.
Qed.

Lemma handle_forwards_iff_handleLocally_witness :
  sent (trace (handle (echo_action true) idle_server)) = []
  ∧ sent (trace (handle (echo_action false) idle_server))
    = [mkActionMessage "sprotty" (echo_action false)].
Proof.
  destruct (handle_forwards_iff_handleLocally (echo_action true) idle_server) as [H1 H2].
  destruct (handle_forwards_iff_handleLocally (echo_action false) idle_server) as [H3 H4].
  rewrite H1, H3, H2, H4; [done | |]; unfold policy_kinds; vm_compute;
    intros H; repeat (apply elem_of_cons in H as [H|H]; [discriminate|]);
    by apply elem_of_nil in H.
Defined.

Lemma trace_handleLocally_prefix a this :
  trace (storeNewModel a this) `prefix_of` trace (handleLocally a this).2.
Proof.
  unfold handleLocally.
  repeat case_bool_decide; simpl; try done.
  - unfold handleComputedBounds.
    destruct (needsServerLayout _); simpl; [done|].
    case_bool_decide; simpl; by apply prefix_app_r.
  - by apply prefix_app_r.
Qed.

Lemma stored_app tr1 tr2 : stored (tr1 ++ tr2) = stored tr1 ++ stored tr2.
Proof. unfold stored. apply omap_app. Qed.

(** C10, as amended. [storeNewModel] is the first thing [handle] does. For
    a setModel, updateModel or requestBounds action carrying a new root it
    replaces [currentRoot] and hands the root to the storage; it assigns
    [lastSubmittedModelType] for setModel and updateModel only, so a
    requestBounds action leaves it as it was (also after the whole of
    [handle]); for any other kind, or without a new root, [storeNewModel]
    changes nothing and the whole of [handle] stores nothing, and, unless
    the action is a computedBounds action laid out locally, [handle] leaves
    [currentRoot] and [lastSubmittedModelType] as they were. *)
Theorem storeNewModel_frame (a : Action) (this : DiagramServer) :
  trace (storeNewModel a this) `prefix_of` trace (handle a this)
  ∧ (∀ r, newRoot a = Some r →
       kind a = SetModelCommand_KIND ∨ kind a = UpdateModelCommand_KIND →
       storeNewModel a this
       = mkServer (this_clientId this) (needsServerLayout this) r (Some (type r))
                  (trace this ++ [StorageStore r]))
  ∧ (∀ r, newRoot a = Some r → kind a = RequestBoundsCommand_KIND →
       storeNewModel a this
       = mkServer (this_clientId this) (needsServerLayout this) r
                  (lastSubmittedModelType this) (trace this ++ [StorageStore r])
       ∧ lastSubmittedModelType (handle a this) = lastSubmittedModelType this)
  ∧ (newRoot a = None
     ∨ (kind a ≠ SetModelCommand_KIND ∧ kind a ≠ UpdateModelCommand_KIND
        ∧ kind a ≠ RequestBoundsCommand_KIND) →
     storeNewModel a this = this
     ∧ stored (trace (handle a this)) = stored (trace this)
     ∧ (kind a ≠ ComputedBoundsAction_KIND ∨ needsServerLayout this = true →
        currentRoot (handle a this) = currentRoot this
        ∧ lastSubmittedModelType (handle a this) = lastSubmittedModelType this)).
Proof.
  split; [|split; [|split]].
  - unfold handle.
    pose proof (trace_handleLocally_prefix a this) as Hp.
    destruct (handleLocally a this) as [[] this1]; simpl in *; [|done].
    etrans; [exact Hp|]. rewrite <- app_assoc. by apply prefix_app_r.
  - intros r Hr Hk. unfold storeNewModel. rewrite Hr.
    destruct Hk as [-> | ->]; reflexivity.
  - intros r Hr Hk. split.
    + unfold storeNewModel. rewrite Hr, Hk. reflexivity.
    + unfold handle, handleLocally, storeNewModel. rewrite Hr, Hk. reflexivity.
  - intros Hno.
    assert (storeNewModel a this = this) as Hst.
    { destruct Hno as [Hn | (H1 & H2 & H3)]; unfold storeNewModel.
      - rewrite Hn. by destruct (_ || _).
      - by rewrite !bool_decide_eq_false_2. }
    split; [done|].
    unfold handle, handleLocally. rewrite Hst.
    unfold handleComputedBounds, handleExportSvgAction, handleServerStateAction.
    split.
    + repeat case_bool_decide; try destruct (needsServerLayout this);
        try destruct (receivedFromServer a); try case_bool_decide;
        cbn; rewrite ?stored_app; cbn; by rewrite ?app_nil_r.
    + intros [Hk|Hn].
      * rewrite (bool_decide_eq_false_2 _ Hk).
        repeat case_bool_decide; try destruct (receivedFromServer a); done.
      * rewrite Hn.
        repeat case_bool_decide; try destruct (receivedFromServer a); done.
Qed.

(** C10, as stated, fails: a computedBounds action is of another kind, and
    handling it without server layout lays out [currentRoot] and assigns
    [lastSubmittedModelType]. *)
Lemma handle_computedBounds_not_framed :
  (kind bounds_action ∉ [SetModelCommand_KIND; UpdateModelCommand_KIND;
                         RequestBoundsCommand_KIND])
  ∧ currentRoot (handle bounds_action bounds_server) ≠ currentRoot bounds_server
  ∧ lastSubmittedModelType idle_server = None
  ∧ lastSubmittedModelType (handle bounds_action idle_server) = Some "NONE".
Proof.
  split; [|split; [|split]].
  - intros H. repeat (apply elem_of_cons in H as [H|H]; [discriminate|]).
    by apply elem_of_nil in H.
  - intros H. vm_compute in H. discriminate.
  - reflexivity.
  - reflexivity.
Qed.

Lemma storeNewModel_frame_witness :
  storeNewModel (SetModelAction small_root) idle_server
  = mkServer "sprotty" false small_root (Some "graph") [StorageStore small_root]
  ∧ lastSubmittedModelType
      (handle (mkAction RequestBoundsCommand_KIND false (Some small_root) [] None "")
              idle_server) = None
  ∧ storeNewModel (echo_action false) idle_server = idle_server
  ∧ currentRoot (handle (echo_action false) bounds_server) = bounds_root
  ∧ lastSubmittedModelType (handle (echo_action false) bounds_server) = Some "graph".
Proof.
  destruct (storeNewModel_frame (SetModelAction small_root) idle_server) as (_ & H1 & _).
  destruct (storeNewModel_frame
              (mkAction RequestBoundsCommand_KIND false (Some small_root) [] None "")
              idle_server) as (_ & _ & H2 & _).
  destruct (storeNewModel_frame (echo_action false) idle_server) as (_ & _ & _ & H3).
  destruct (storeNewModel_frame (echo_action false) bounds_server) as (_ & _ & _ & H4).
  split; [|split; [|split]].
  - apply H1; [reflexivity|by left].
  - by destruct (H2 small_root eq_refl eq_refl) as [_ ->].
  - by destruct (H3 (or_introl eq_refl)) as [-> _].
  - destruct (H4 (or_introl eq_refl)) as (_ & _ & H5). apply H5. left. discriminate.
Defined.

(** C6. A payload of [null] passes the [!== undefined] test of
    [isActionMessage], and asking it for [hasOwnProperty] throws: the call
    ends in a TypeError, and the error is not logged. *)
Theorem messageReceived_null_throws (parse : string → option JsValue)
    (dispatch : JsValue → (Action → DiagramServer → DiagramServer) →
                DiagramServer → Outcome DiagramServer)
    (this : DiagramServer) :
  messageReceived parse dispatch (Value JsNull) this = ThrowsTypeError
  ∧ messageReceived (λ _, Some JsNull) dispatch (Text "null") this = ThrowsTypeError.
Proof. split; reflexivity. Qed.

(** What [messageReceived] does with every payload that is not text, not
    [null] and no object with a property [hasOwnProperty] of its own. *)
Lemma messageReceived_not_null parse dispatch object this :
  object ≠ JsNull → (∀ s, object ≠ JsString s) →
  (∀ props, object = JsObject props → assoc "hasOwnProperty" props = None) →
  let a := get "action" object in
  let c := get "clientId" object in
  let has := λ p, match object with
                  | JsObject props => bool_decide (is_Some (assoc p props))
                  | _ => false
                  end in
  messageReceived parse dispatch (Value object) this =
    if has "clientId" && has "action" && truthy a
    then
      if negb (truthy c) || strict_equals_string c (this_clientId this)
      then and_then (mark_received a) (λ a',
             dispatch a' storeNewModel
               (emit (DispatchReceived a') (emit (LoggerLog "receiving") this)))
      else Returns this
    else Returns (emit (LoggerError "received data is not an action message" object) this).
Proof.
  intros Hn Hs Hown. destruct object as [| | | |s|props]; try done.
  - by destruct (Hs s).
  - cbn zeta. unfold messageReceived, isActionMessage, hasOwnProperty.
    rewrite (Hown props eq_refl). cbn [and_then].
    by destruct (bool_decide (is_Some (assoc "clientId" props))).
Qed.

Lemma map_elements_ext g g' t :
  (∀ e, g e = g' e) → map_elements g t = map_elements g' t.
Proof.
  intros Hg. induction t as [t i p s a ch IH] using schema_ind_all.
  simpl. rewrite Hg. f_equal.
  induction IH as [|c ch Hc _ IHch]; simpl; [done|]. by rewrite Hc, IHch.
Qed.

Lemma map_elements_id t : map_elements (λ e, e) t = t.
Proof.
  induction t as [t i p s a ch IH] using schema_ind_all.
  simpl. f_equal.
  induction IH as [|c ch Hc _ IHch]; simpl; [done|]. by rewrite Hc, IHch.
Qed.

Lemma index_all_map_elements g t :
  index_all (map_elements g t) = map (map_elements g) (index_all t).
Proof.
  induction t as [t i p s a ch IH] using schema_ind_all.
  simpl. f_equal.
  induction IH as [|c ch Hc _ IHch]; simpl; [done|].
  by rewrite map_app, Hc, IHch.
Qed.

Lemma find_map {A B} (h : A → B) (P : B → bool) (l : list A) :
  find P (map h l) = h <$> find (λ x, P (h x)) l.
Proof. induction l as [|x l IH]; simpl; [done|]. by destruct (P (h x)). Qed.

Lemma find_ext {A} (P Q : A → bool) (l : list A) :
  (∀ x, P x = Q x) → find P l = find Q l.
Proof. intros H. induction l as [|x l IH]; simpl; [done|]. by rewrite H, IH. Qed.

Lemma getById_map_elements g t i :
  (∀ e, id (g e) = id e) →
  getById (map_elements g t) i = map_elements g <$> getById t i.
Proof.
  intros Hg. unfold getById. rewrite index_all_map_elements, find_map.
  f_equal. apply find_ext. intros e.
  destruct e; simpl. by rewrite Hg.
Qed.

Lemma getById_None_update i f t :
  getById t i = None → update_element i f t = t.
Proof.
  unfold getById. intros Hn.
  assert (Forall (λ e, id e ≠ i) (index_all t)) as Hall.
  { apply Forall_forall. intros e He Hi.
    apply list_elem_of_In in He.
    apply (find_none _ _ Hn) in He. by rewrite bool_decide_eq_true_2 in He. }
  clear Hn. induction t as [t j p s a ch IH] using schema_ind_all.
  simpl in *. apply Forall_cons in Hall as [Hj Hall]. simpl in Hj.
  rewrite bool_decide_eq_false_2 by done. simpl. f_equal.
  induction IH as [|c ch Hc _ IHch]; simpl in *; [done|].
  apply Forall_app in Hall as [H1 H2]. by rewrite Hc, IHch.
Qed.

Lemma last_bounds_snoc bs b i :
  last_bounds (bs ++ [b]) i =
    if bool_decide (elementId b = i) then Some (newBounds b) else last_bounds bs i.
Proof.
  unfold last_bounds. rewrite filter_app.
  case_bool_decide as Hb.
  - rewrite filter_cons_True, filter_nil by done. by rewrite last_snoc.
  - rewrite filter_cons_False, filter_nil by done. by rewrite app_nil_r.
Qed.

Lemma last_alignment_snoc als al i :
  last_alignment (als ++ [al]) i =
    if bool_decide (a_elementId al = i) then Some (newAlignment al) else last_alignment als i.
Proof.
  unfold last_alignment. rewrite filter_app.
  case_bool_decide as Hb.
  - rewrite filter_cons_True, filter_nil by done. by rewrite last_snoc.
  - rewrite filter_cons_False, filter_nil by done. by rewrite app_nil_r.
Qed.

Lemma id_with_bounds bs e : id (with_bounds bs e) = id e.
Proof. unfold with_bounds. by destruct (last_bounds _ _). Qed.

Lemma id_with_alignment als e : id (with_alignment als e) = id e.
Proof. unfold with_alignment. by destruct (last_alignment _ _). Qed.

(** One more entry of the batch, on a tree already laid out by [g]. *)
Lemma update_bounds_step g bs b t :
  (∀ e, g e = with_bounds bs e) →
  update_element (elementId b) (applyBounds (newBounds b)) (map_elements g t)
  = map_elements (with_bounds (bs ++ [b])) t.
Proof.
  intros Hg. induction t as [t j p s a ch IH] using schema_ind_all.
  simpl. rewrite Hg.
  assert (map (update_element (elementId b) (applyBounds (newBounds b)))
              (map (map_elements g) ch)
          = map (map_elements (with_bounds (bs ++ [b]))) ch) as ->.
  { induction IH as [|c ch Hc _ IHch]; simpl; [done|]. by rewrite Hc, IHch. }
  unfold with_bounds. simpl. rewrite last_bounds_snoc.
  destruct (last_bounds bs j); simpl; repeat case_bool_decide; simpl;
    first [reflexivity | congruence].
Qed.

Lemma update_alignment_step g als al t :
  update_element (a_elementId al) (applyAlignment (newAlignment al))
                 (map_elements (λ e, with_alignment als (g e)) t)
  = map_elements (λ e, with_alignment (als ++ [al]) (g e)) t.
Proof.
  induction t as [t j p s a ch IH] using schema_ind_all.
  simpl.
  assert (map (update_element (a_elementId al) (applyAlignment (newAlignment al)))
              (map (map_elements (λ e, with_alignment als (g e))) ch)
          = map (map_elements (λ e, with_alignment (als ++ [al]) (g e))) ch) as ->.
  { induction IH as [|c ch Hc _ IHch]; simpl; [done|]. by rewrite Hc, IHch. }
  unfold with_alignment. rewrite last_alignment_snoc.
  destruct (last_alignment als _); simpl; repeat case_bool_decide; simpl;
    first [reflexivity | congruence].
Qed.

Lemma bounds_step_update r b :
  bounds_step r b = update_element (elementId b) (applyBounds (newBounds b)) r.
Proof.
  unfold bounds_step. destruct (getById r (elementId b)) eqn:E; [done|].
  by rewrite getById_None_update.
Qed.

Lemma alignment_step_update r al :
  alignment_step r al
  = update_element (a_elementId al) (applyAlignment (newAlignment al)) r.
Proof.
  unfold alignment_step. destruct (getById r (a_elementId al)) eqn:E; [done|].
  by rewrite getById_None_update.
Qed.

Lemma foldl_bounds_step bs root :
  foldl bounds_step root bs = map_elements (with_bounds bs) root.
Proof.
  induction bs as [|b bs IH] using rev_ind.
  - simpl. rewrite <- (map_elements_id root) at 1. by apply map_elements_ext.
  - rewrite foldl_app. simpl. rewrite IH, bounds_step_update.
    by apply update_bounds_step.
Qed.

Lemma foldl_alignment_step g als root :
  foldl alignment_step (map_elements g root) als
  = map_elements (λ e, with_alignment als (g e)) root.
Proof.
  induction als as [|al als IH] using rev_ind.
  - simpl. by apply map_elements_ext.
  - rewrite foldl_app. simpl. rewrite IH, alignment_step_update.
    by apply update_alignment_step.
Qed.

Lemma handleComputedBounds_laid_out a this :
  needsServerLayout this = false →
  let root' := laid_out a (currentRoot this) in
  handleComputedBounds a this =
    (false,
     mkServer (this_clientId this) false root' (Some (type root'))
       (trace this ++
          [Dispatch (if bool_decide (Some (type root') = lastSubmittedModelType this)
                     then UpdateModelAction root' else SetModelAction root')])).
Proof.
  intros Hn root'. unfold handleComputedBounds. rewrite Hn.
  rewrite foldl_bounds_step.
  assert (match alignments a with
          | Some als => foldl alignment_step
                          (map_elements (with_bounds (bounds a)) (currentRoot this)) als
          | None => map_elements (with_bounds (bounds a)) (currentRoot this)
          end = root') as ->.
  { unfold root', laid_out. destruct (alignments a) as [als|]; simpl.
    - apply foldl_alignment_step.
    - by apply map_elements_ext. }
  simpl. case_bool_decide; unfold set_lastSubmittedModelType, emit, set_currentRoot;
    simpl; by rewrite Hn.
Qed.

Lemma type_laid_out a root : type (laid_out a root) = type root.
Proof.
  unfold laid_out. destruct root; simpl.
  unfold with_alignment, with_bounds.
  destruct (last_bounds _ _); simpl; by destruct (last_alignment _ _).
Qed.

Lemma laid_out_skip a a' root :
  (∀ e, e ∈ index_all root →
     last_bounds (bounds a) (id e) = last_bounds (bounds a') (id e)
     ∧ last_alignment (default [] (alignments a)) (id e)
       = last_alignment (default [] (alignments a')) (id e)) →
  laid_out a root = laid_out a' root.
Proof.
  unfold laid_out. intros H.
  induction root as [t j p s al ch IH] using schema_ind_all.
  simpl.
  assert (map (map_elements (λ e, with_alignment (default [] (alignments a))
                                   (with_bounds (bounds a) e))) ch
          = map (map_elements (λ e, with_alignment (default [] (alignments a'))
                                   (with_bounds (bounds a') e))) ch) as ->.
  { assert (∀ e c, c ∈ ch → e ∈ index_all c →
       last_bounds (bounds a) (id e) = last_bounds (bounds a') (id e)
       ∧ last_alignment (default [] (alignments a)) (id e)
         = last_alignment (default [] (alignments a')) (id e)) as Hch.
    { intros e c Hc He. apply H. simpl. right.
      apply list_elem_of_In, in_flat_map. exists c. by rewrite <- !list_elem_of_In. }
    clear H. induction IH as [|c ch Hc _ IHch]; simpl; [done|].
    rewrite Hc, IHch; [done| |].
    - intros e c' Hc' He. apply (Hch e c'); [by right | done].
    - intros e He. apply (Hch e c); [by left | done]. }
  destruct (H (mkSchema t j p s al ch)) as [Hb Ha]; [by left|].
  unfold with_alignment, with_bounds. simpl in *. rewrite Hb.
  destruct (last_bounds (bounds a') j); simpl; by rewrite Ha.
Qed.

Lemma getById_Some_id root i e : getById root i = Some e → id e = i ∧ e ∈ index_all root.
Proof.
  unfold getById. intros H. apply find_some in H as [H1 H2].
  split; [by apply bool_decide_eq_true in H2 | by apply list_elem_of_In].
Qed.

Lemma getById_None_id root i e : getById root i = None → e ∈ index_all root → id e ≠ i.
Proof.
  unfold getById. intros H He Hi. apply list_elem_of_In in He.
  apply (find_none _ _ H) in He. by rewrite bool_decide_eq_true_2 in He.
Qed.

(** C7. For a computedBounds action: with [needsServerLayout] the action is
    sent on as it is and nothing else happens. Without it nothing is sent;
    every element of [currentRoot] named by the batch gets the position and
    size of the (last) bounds entry naming it and, when the action has
    alignments, the alignment of the (last) alignment entry naming it, the
    elements not named stay as they are, and an entry naming no element
    changes nothing; then an updateModel action with this root is
    dispatched when the root's type is [lastSubmittedModelType], a setModel
    action otherwise, and [lastSubmittedModelType] becomes that type. *)
Theorem handle_computedBounds (a : Action) (this : DiagramServer) :
  kind a = ComputedBoundsAction_KIND →
  (needsServerLayout this = true →
     handle a this
     = emit (SendMessage (mkActionMessage (this_clientId this) a))
            (emit (LoggerLog "sending") this))
  ∧ (needsServerLayout this = false →
     let root' := laid_out a (currentRoot this) in
     handle a this
     = mkServer (this_clientId this) false root' (Some (type root'))
         (trace this ++
            [Dispatch (mkAction (if bool_decide (Some (type (currentRoot this))
                                                 = lastSubmittedModelType this)
                                 then "updateModel" else "setModel")
                                false (Some root') [] None "")])
     ∧ sent (trace (handle a this)) = sent (trace this)
     ∧ type root' = type (currentRoot this)
     ∧ (∀ i e, getById (currentRoot this) i = Some e →
          ∃ e', getById root' i = Some e'
            ∧ (∀ nb, last_bounds (bounds a) i = Some nb →
                 position e' = Some (mkPoint (x nb) (y nb))
                 ∧ size e' = Some (mkDimension (width nb) (height nb)))
            ∧ (last_bounds (bounds a) i = None →
                 position e' = position e ∧ size e' = size e)
            ∧ alignment e'
              = match alignments a ≫= (λ als, last_alignment als i) with
                | Some p => Some (mkPoint (x p) (y p))
                | None => alignment e
                end)
     ∧ (∀ bs1 b bs2, bounds a = bs1 ++ b :: bs2 →
          getById (currentRoot this) (elementId b) = None →
          handle a this = handle (with_bounds_of a (bs1 ++ bs2)) this)).
Proof.
  intros Hk.
  assert (storeNewModel a this = this) as Hst.
  { unfold storeNewModel. by rewrite Hk. }
  assert (∀ bs, handle (with_bounds_of a bs) this
                = let '(f, this1) := handleComputedBounds (with_bounds_of a bs) this in
                  if f then emit (SendMessage (mkActionMessage (this_clientId this1)
                                                 (with_bounds_of a bs)))
                                 (emit (LoggerLog "sending") this1)
                  else this1) as Hh'.
  { intros bs. unfold handle, handleLocally, storeNewModel. simpl. by rewrite Hk. }
  assert (handle a this
          = let '(f, this1) := handleComputedBounds a this in
            if f then emit (SendMessage (mkActionMessage (this_clientId this1) a))
                           (emit (LoggerLog "sending") this1)
            else this1) as Hh.
  { unfold handle, handleLocally. by rewrite Hst, Hk. }
  split.
  - intros Hn. rewrite Hh. unfold handleComputedBounds. by rewrite Hn.
  - intros Hn root'.
    assert (type root' = type (currentRoot this)) as Ht by apply type_laid_out.
    assert (handle a this
            = mkServer (this_clientId this) false root' (Some (type root'))
                (trace this ++
                   [Dispatch (mkAction (if bool_decide (Some (type (currentRoot this))
                                                        = lastSubmittedModelType this)
                                        then "updateModel" else "setModel")
                                       false (Some root') [] None "")]))
      as Heq.
    { rewrite Hh, handleComputedBounds_laid_out by done. fold root'. rewrite Ht.
      by destruct (bool_decide _). }
    split; [exact Heq|]. split; [|split; [exact Ht|split]].
    + rewrite Heq. simpl. rewrite sent_app. simpl. apply app_nil_r.
    + intros i e He.
      destruct (getById_Some_id _ _ _ He) as [Hi _].
      unfold root', laid_out. rewrite getById_map_elements, He.
      2:{ intros e0. by rewrite id_with_alignment, id_with_bounds. }
      eexists. split; [reflexivity|].
      destruct e as [t j p s al ch]. simpl in Hi. subst j.
      unfold with_alignment, with_bounds. simpl.
      destruct (alignments a) as [als|]; simpl.
      * destruct (last_bounds (bounds a) i) as [nb|]; simpl;
          destruct (last_alignment als i); simpl;
          (split; [intros nb' Hnb; by simplify_eq | split; [done|done]]).
      * unfold last_alignment. cbn.
        destruct (last_bounds (bounds a) i) as [nb|]; simpl;
          (split; [intros nb' Hnb; by simplify_eq | split; [done|done]]).
    + intros bs1 b bs2 Hb Hnone.
      rewrite Hh, Hh', !handleComputedBounds_laid_out by done.
      assert (laid_out a (currentRoot this)
              = laid_out (with_bounds_of a (bs1 ++ bs2)) (currentRoot this)) as ->; [|done].
      apply laid_out_skip. intros e He. split; [|done].
      pose proof (getById_None_id _ _ _ Hnone He) as Hne.
      simpl. rewrite Hb. unfold last_bounds. rewrite !filter_app.
      rewrite filter_cons_False; [done|]. intros Heq'. by apply Hne.
Qed.

Lemma handle_computedBounds_witness :
  handle bounds_action bounds_server
  = mkServer "sprotty" false bounds_root_after (Some "graph")
             [Dispatch (mkAction "updateModel" false (Some bounds_root_after) [] None "")].
Proof.
  destruct (handle_computedBounds bounds_action bounds_server eq_refl) as [_ H].
  destruct (H eq_refl) as [Heq _]. exact Heq.
Defined.

End DiagramServerFacts.

(** ** The action handler registry *)

Module ActionHandlerRegistryFacts.
Import ActionHandlerRegistry Samples.Registry.

Section Registry.
Context {Elements : Type}.
Variable register : string → ActionHandler → Elements → option Elements.

(** C8. With a [KIND] of its own the constructor is registered: the call is
    [register(KIND, new CommandActionHandler(commandType))] and nothing is
    logged. Without one the call returns normally, the registry holds what it
    held before, and one error message is logged. *)
Theorem registerCommand_cases (commandType : CommandConstructor) (this : Registry) :
  (∀ kind, KIND commandType = Some kind →
     registerCommand register commandType this
     = (λ els, mkRegistry els (logger_errors this))
         <$> register kind (CommandActionHandler commandType) (elements this))
  ∧ (KIND commandType = None →
     registerCommand register commandType this
     = Some (mkRegistry (elements this)
               (logger_errors this
                ++ ["Command " +:+ name commandType
                    +:+ "  does not have a KIND property"]))).
Proof.
  split.
  - intros kind Hk. unfold registerCommand. by rewrite Hk.
  - intros Hk. unfold registerCommand. by rewrite Hk.
Qed.

End Registry.

Lemma registerCommand_cases_witness :
  (elements <$> registerCommand multi_register SelectCommand_constructor one_binding)
  = multi_register "elementSelected" (CommandActionHandler SelectCommand_constructor)
      (elements one_binding)
  ∧ registerCommand multi_register anonymous_constructor one_binding
    = Some (mkRegistry (elements one_binding)
              ["Command Anonymous  does not have a KIND property"]).
Proof.
  destruct (registerCommand_cases multi_register SelectCommand_constructor one_binding)
    as [H1 _].
  destruct (registerCommand_cases multi_register anonymous_constructor one_binding)
    as [_ H2].
  split.
  - rewrite (H1 "elementSelected" eq_refl). reflexivity.
  - exact (H2 eq_refl).
Defined.

(** With the registry of the spec, registering adds the handler to those of
    its kind and leaves every other kind alone. *)
Lemma registerCommand_multi_register c kind (this : Registry) :
  KIND c = Some kind →
  ∃ this', registerCommand multi_register c this = Some this'
    ∧ elements this' !! kind
      = Some (default [] (elements this !! kind) ++ [CommandActionHandler c])
    ∧ (∀ k, k ≠ kind → elements this' !! k = elements this !! k)
    ∧ logger_errors this' = logger_errors this.
Proof.
  intros Hk. unfold registerCommand, multi_register. rewrite Hk. simpl.
  eexists. split; [done|]. simpl. split; [by rewrite lookup_insert_eq|].
  split; [|done]. intros k Hne. by rewrite lookup_insert_ne.
Qed.

End ActionHandlerRegistryFacts.

(** ** SelectCommand: invariants, frame, bounds *)

Module SelectCommandMore.
Import SModel SModelFacts SelectCommand SelectCommandFacts SelectCommandShape Samples.Select.

Lemma same_shape_rearranged r r' :
  same_static r r' →
  (∀ j, ∃ f : list string → list string, (∀ l, f l ≡ₚ l) ∧ kids r' j = f <$> kids r j) →
  same_shape r r'.
Proof.
  intros Hst Hk.
  assert (∀ j, match kids r j, kids r' j with
               | Some l, Some l' => l' ≡ₚ l
               | None, None => True
               | _, _ => False
               end) as Hperm.
  { intros j. destruct (Hk j) as (f & Hf & ->). destruct (kids r j); simpl; [apply Hf|done]. }
  split; [done|]. split; [done|]. split.
  - intros Hnd j e' He'. specialize (Hperm j). unfold kids, getById in Hperm.
    rewrite He' in Hperm. simpl in Hperm.
    destruct (elements r !! j) as [e|] eqn:He; simpl in Hperm; [|done].
    rewrite Hperm. by apply (Hnd j e).
  - intros Hl i e' He'.
    destruct Hst as (_ & _ & Hst). pose proof (Hst i) as Hi.
    unfold static, getById in Hi. rewrite He' in Hi.
    destruct (elements r !! i) as [e|] eqn:He; simpl in Hi; [|done].
    specialize (Hl i e He). unfold listed in *.
    assert (parent e' = parent e) as Hp by (unfold fixed in Hi; congruence).
    rewrite Hp. destruct (parent e) as [p|] eqn:Hpe; [|done].
    apply bool_decide_eq_true in Hl. apply bool_decide_eq_true.
    unfold siblings in *. rewrite Hp, Hpe in *.
    specialize (Hperm p). unfold kids in Hperm.
    destruct (getById r p) as [pe|], (getById r' p) as [pe'|]; simpl in Hperm;
      first [done | by rewrite Hperm | by apply elem_of_nil in Hl].
Qed.

Lemma foldl_move_end_Permutation (Q : list string) (l : list string) :
  foldl (λ l x, move_end x l) l Q ≡ₚ l.
Proof.
  revert l. induction Q as [|x Q IH]; intros l; [done|].
  simpl. rewrite IH. apply move_Permutation.
Qed.

Lemma foldl_move_back_Permutation (T : list ElementSelection) (l : list string) :
  foldl move_back l T ≡ₚ l.
Proof.
  revert l. induction T as [|s T IH]; intros l; [done|].
  simpl. rewrite IH. apply move_Permutation.
Qed.

Lemma redo_same_shape cmd root : same_shape root (redo cmd root).2.
Proof.
  apply same_shape_rearranged; [apply redo_static|].
  intros j. eexists. split; [|apply redo_kids].
  intros l. apply foldl_move_end_Permutation.
Qed.

Lemma undo_same_shape cmd root : same_shape root (undo cmd root).2.
Proof.
  apply same_shape_rearranged; [apply undo_static|].
  intros j. eexists. split; [|apply undo_kids].
  intros l. apply (foldl_move_back_Permutation _ l).
Qed.

(** X1. [execute], [redo] and [undo] add and remove nothing: the elements
    and their fixed properties stay, every list of children is rearranged
    at most, no child comes to be listed twice, and every element stays
    among its parent's children. *)
Theorem commands_keep_shape (cmd : SelectCommand) (root : SModelRoot) :
  same_shape root (execute cmd root).2
  ∧ same_shape root (redo cmd root).2
  ∧ same_shape root (undo cmd root).2.
Proof.
  split; [|split].
  - rewrite execute_capture. apply redo_same_shape.
  - apply redo_same_shape.
  - apply undo_same_shape.
Qed.

Lemma filter_foldl_move_end (Q Q' : list string) (l : list string) :
  (∀ x, x ∈ Q' → x ∈ Q) →
  filter (λ y, y ∉ Q) (foldl (λ l x, move_end x l) l Q') = filter (λ y, y ∉ Q) l.
Proof.
  revert l. induction Q' as [|x Q' IH]; intros l Hsub; [done|].
  simpl. rewrite IH by (intros y Hy; apply Hsub; by right).
  apply filter_move. intros Hx. apply Hx, Hsub. by left.
Qed.

Lemma filter_foldl_move_back (Q : list string) (T : list ElementSelection) (l : list string) :
  (∀ s, s ∈ T → element s ∈ Q) →
  filter (λ y, y ∉ Q) (foldl move_back l T) = filter (λ y, y ∉ Q) l.
Proof.
  revert l. induction T as [|s T IH]; intros l Hsub; [done|].
  simpl. rewrite IH by (intros y Hy; apply Hsub; by right).
  apply filter_move. intros Hx. apply Hx, Hsub. by left.
Qed.

Lemma ids_at_parent_sub root j S x : x ∈ ids (at_parent root j S) → x ∈ ids S.
Proof.
  unfold ids, at_parent. rewrite !list_elem_of_fmap. intros (s & -> & Hs).
  apply list_elem_of_filter in Hs as [_ Hs]. by exists s.
Qed.

(** X2. The elements a command has not captured as selected never change
    their order among themselves: taking the captured ones out of a list of
    children gives the same list before and after [redo], and before and
    after [undo], whatever the captured indices are. *)
Theorem uncaptured_keep_their_order (cmd : SelectCommand) (root : SModelRoot) (j : string) :
  filter (λ y, y ∉ ids (selected cmd)) <$> kids (redo cmd root).2 j
  = filter (λ y, y ∉ ids (selected cmd)) <$> kids root j
  ∧ filter (λ y, y ∉ ids (selected cmd)) <$> kids (undo cmd root).2 j
    = filter (λ y, y ∉ ids (selected cmd)) <$> kids root j.
Proof.
  split.
  - rewrite redo_kids. destruct (kids root j) as [l|]; [|done]. simpl. f_equal.
    apply filter_foldl_move_end. apply ids_at_parent_sub.
  - rewrite undo_kids. destruct (kids root j) as [l|]; [|done]. simpl. f_equal.
    apply (filter_foldl_move_back _ _ l). intros s Hs. rewrite elem_of_reverse in Hs.
    apply (ids_at_parent_sub root j). unfold ids. apply list_elem_of_fmap. by exists s.
Qed.

(** X3. [redo] twice is [redo] once. *)
Theorem redo_idempotent (cmd : SelectCommand) (root : SModelRoot) :
  children_NoDup root →
  (redo cmd (redo cmd root).2).2 = (redo cmd root).2.
Proof.
  intros Hnd. set (r1 := (redo cmd root).2).
  assert (same_static root r1) as H01 by apply redo_static.
  apply root_ext.
  - apply same_static_sym, redo_static.
  - intros j. rewrite redo_flag. rewrite (same_static_selectableAt root r1) by done.
    unfold r1. rewrite redo_flag.
    destruct (bool_decide (j ∈ ids (selected cmd))), (selectableAt root j),
      (bool_decide (j ∈ ids (deselected cmd))); reflexivity.
  - intros j. rewrite redo_kids. rewrite (at_parent_static root r1) by done.
    unfold r1. rewrite redo_kids.
    destruct (kids root j) as [l|] eqn:Hk; [|done]. simpl. f_equal.
    assert (NoDup l) as Hl by (by eapply children_NoDup_kids).
    set (Q := ids (at_parent root j (selected cmd))).
    rewrite (foldl_move_end_to_end Q l) by done.
    destruct (foldl_to_end_frame Q Q l Hl) as (H1 & H2 & H3); [done|].
    rewrite foldl_move_end_to_end by done.
    by apply foldl_to_end_agree.
Qed.

Lemma redo_idempotent_witness :
  (redo both_lists (redo both_lists three_nodes).2).2 = (redo both_lists three_nodes).2.
Proof.
  apply (redo_idempotent both_lists three_nodes).
  apply (bool_decide_unpack _). vm_compute. exact I.
Defined.

(** The flags after [redo] and then [undo]. *)
Lemma undo_redo_flags cmd (root : SModelRoot) :
  (∀ s, s ∈ deselected cmd → flag root (element s) = Some true) →
  (∀ s, s ∈ selected cmd → element s ∉ ids (deselected cmd) →
        selectableAt root (element s) = true → flag root (element s) = Some false) →
  ∀ j, flag (undo cmd (redo cmd root).2).2 j = flag root j.
Proof.
  intros HD HS j.
  rewrite undo_flag. rewrite (same_static_selectableAt root _ j (redo_static cmd root)).
  rewrite redo_flag.
  destruct (decide (j ∈ ids (deselected cmd))) as [HjD|HjD];
    destruct (selectableAt root j) eqn:Hsel;
    rewrite ?(bool_decide_eq_true_2 _ HjD), ?(bool_decide_eq_false_2 _ HjD),
      ?andb_true_r, ?andb_false_r; try done.
  - apply list_elem_of_fmap in HjD as (s & -> & Hs). symmetry. by apply HD.
  - destruct (decide (j ∈ ids (selected cmd))) as [HjS|HjS];
      rewrite ?(bool_decide_eq_true_2 _ HjS), ?(bool_decide_eq_false_2 _ HjS); [|done].
    apply list_elem_of_fmap in HjS as (s & -> & Hs). symmetry. by apply HS.
Qed.

(** X4. When the action describes a real change (what it deselects was
    selected, what it selects was not), [undo] after [execute] gives every
    element the flag it had, in whatever order the elements were captured. *)
Theorem undo_execute_restores_flags (a : SelectAction) (root : SModelRoot) :
  (∀ s, s ∈ deselected (execute (new a) root).1 → flag root (element s) = Some true) →
  (∀ s, s ∈ selected (execute (new a) root).1 →
        element s ∉ ids (deselected (execute (new a) root).1) →
        selectableAt root (element s) = true →
        flag root (element s) = Some false) →
  ∀ j, flag (undo (execute (new a) root).1 (execute (new a) root).2).2 j = flag root j.
Proof.
  rewrite execute_capture. intros HD HS.
  by apply (undo_redo_flags (capture (new a) root) root).
Qed.

Lemma undo_execute_restores_flags_witness :
  flag three_nodes "b" = Some true
  ∧ ∀ j, flag (undo (execute (new (mkSelectAction ["a"; "c"] ["b"])) three_nodes).1
                    (execute (new (mkSelectAction ["a"; "c"] ["b"])) three_nodes).2).2 j
         = flag three_nodes j.
Proof.
  split; [reflexivity|].
  apply (undo_execute_restores_flags (mkSelectAction ["a"; "c"] ["b"]) three_nodes).
  - intros s Hs. vm_compute in Hs. apply list_elem_of_singleton in Hs as ->. reflexivity.
  - intros s Hs _ _. vm_compute in Hs.
    apply elem_of_cons in Hs as [->|Hs]; [reflexivity|].
    apply list_elem_of_singleton in Hs as ->. reflexivity.
Defined.

(** X5. What a command has not captured it leaves alone: the flag of an
    element in neither list, and the children of an element none of whose
    children is in the selected list, are the same after [redo] and after
    [undo]. *)
Theorem uncaptured_untouched (cmd : SelectCommand) (root : SModelRoot) (j : string) :
  (j ∉ ids (selected cmd) → j ∉ ids (deselected cmd) →
     flag (redo cmd root).2 j = flag root j ∧ flag (undo cmd root).2 j = flag root j)
  ∧ (at_parent root j (selected cmd) = [] →
     kids (redo cmd root).2 j = kids root j ∧ kids (undo cmd root).2 j = kids root j).
Proof.
  split.
  - intros HS HD. rewrite redo_flag, undo_flag.
    by rewrite !(bool_decide_eq_false_2 _ HS), !(bool_decide_eq_false_2 _ HD).
  - intros Hat. rewrite redo_kids, undo_kids, Hat. simpl.
    by destruct (kids root j).
Qed.

Lemma uncaptured_untouched_witness :
  flag (redo both_lists three_nodes).2 "b" = Some true
  ∧ kids (undo both_lists three_nodes).2 "a" = Some [].
Proof.
  destruct (uncaptured_untouched both_lists three_nodes "b") as [Hf _].
  destruct (uncaptured_untouched both_lists three_nodes "a") as [_ Hk].
  split.
  - destruct Hf as [-> _]; [| |reflexivity].
    + vm_compute. intros H. apply list_elem_of_singleton in H. discriminate.
    + vm_compute. intros H. apply list_elem_of_singleton in H. discriminate.
  - destruct Hk as [_ ->]; reflexivity.
Defined.

(** X6. When [undo] runs, every captured index lies inside the list of
    children it is used on: [move] is never asked for a place outside the
    list. *)
Theorem captured_indices_in_bounds (a : SelectAction) (root : SModelRoot)
    (s : ElementSelection) (p : string) :
  children_listed root →
  s ∈ selected (execute (new a) root).1 ∨ s ∈ deselected (execute (new a) root).1 →
  parentOf root (element s) = Some p →
  ∃ l, kids (execute (new a) root).2 p = Some l
       ∧ 0 ≤ index s ≤ Z.of_nat (length l) - 1.
Proof.
  rewrite execute_capture. intros Hlisted Hs Hp.
  assert (captured_at root s) as (e & He & Hi).
  { destruct Hs as [Hs|Hs].
    - pose proof (capture_new_captured a root) as Hc. rewrite Forall_forall in Hc.
      by apply Hc.
    - pose proof (selectable_child_captured root (deselectedElementsIDs a)) as Hc.
      rewrite Forall_forall in Hc. by apply Hc. }
  assert (parent e = Some p) as Hpe by (unfold parentOf in Hp; by rewrite He in Hp).
  pose proof (Hlisted (element s) e He) as Hl. unfold listed in Hl.
  rewrite Hpe in Hl. apply bool_decide_eq_true in Hl.
  destruct (kids root p) as [l0|] eqn:Hk.
  2:{ unfold siblings, kids in *. rewrite Hpe in Hl.
      destruct (getById root p); [done|]. by apply elem_of_nil in Hl. }
  rewrite (siblings_kids root (element s) e p l0 He Hp Hk) in Hl, Hi.
  destruct (redo_same_shape (capture (new a) root) root) as (_ & Hperm & _).
  specialize (Hperm p). cbn [snd] in *. rewrite Hk in Hperm.
  destruct (kids (redo (capture (new a) root) root).2 p) as [l|]; [|done].
  exists l. split; [done|]. rewrite Hperm, Hi.
  apply indexOf_in in Hl. lia.
Qed.

Lemma captured_indices_in_bounds_witness :
  ∃ l, kids (execute (new select_N1) wired).2 "g" = Some l
       ∧ 0 ≤ 1 ≤ Z.of_nat (length l) - 1.
Proof.
  apply (captured_indices_in_bounds select_N1 wired (mkSelection "E1" 1) "g").
  - apply (bool_decide_unpack _). vm_compute. exact I.
  - left. vm_compute. by left.
  - reflexivity.
Defined.

Lemma omap_all_None {A B} (f : A → option B) (l : list A) :
  (∀ x, x ∈ l → f x = None) → omap f l = [].
Proof.
  induction l as [|x l IH]; intros H; [done|].
  cbn [omap list_omap]. rewrite (H x) by (by left).
  apply IH. intros y Hy. apply H. by right.
Qed.

(** X7. Ids that resolve to nothing selectable (no such element, the root,
    an element without the selectable capability) are passed over: when no
    id of the action resolves, [execute] captures nothing and leaves the
    model as it is. *)
Theorem execute_nothing_resolved (a : SelectAction) (root : SModelRoot) :
  (∀ i e, i ∈ selectedElementsIDs a ++ deselectedElementsIDs a →
          getById root i = Some e → isSChildElement e && isSelectable e = false) →
  execute (new a) root = (new a, root).
Proof.
  intros H. rewrite execute_capture.
  assert (∀ i, i ∈ selectedElementsIDs a ++ deselectedElementsIDs a →
               selectable_child root i = None) as Hn.
  { intros i Hi. unfold selectable_child.
    destruct (getById root i) as [e|] eqn:He; [|done]. cbn.
    by rewrite (H i e Hi He). }
  unfold capture. cbn [action new selected deselected].
  rewrite !omap_all_None.
  - assert (selected_nodes root (selectedElementsIDs a) = []) as ->; [|by destruct root].
    assert (∀ i, i ∈ selectedElementsIDs a → is_selected_node root i = false) as Hf.
    { intros i Hi. unfold is_selected_node.
      destruct (getById root i) as [e|] eqn:He; [|done].
      by rewrite (H i e) by (done || (apply elem_of_app; by left)). }
    clear H Hn. induction (selectedElementsIDs a) as [|i l IH]; [done|].
    rewrite selected_nodes_cons, (Hf i) by (by left).
    apply IH. intros i' Hi'. apply Hf. by right.
  - intros i Hi. apply Hn, elem_of_app. by right.
  - intros i Hi. apply Hn, elem_of_app. by left.
Qed.

Lemma execute_nothing_resolved_witness :
  execute (new (mkSelectAction ["nowhere"; "g"] ["gone"])) three_nodes
  = (new (mkSelectAction ["nowhere"; "g"] ["gone"]), three_nodes).
Proof.
  apply execute_nothing_resolved. intros i e Hi He.
  vm_compute in Hi.
  repeat (apply elem_of_cons in Hi as [->|Hi]; [vm_compute in He; by simplify_eq|]).
  by apply elem_of_nil in Hi.
Defined.
End SelectCommandMore.
(** ** The listeners *)

Module SelectListenersFacts.
Import SModel SModelFacts SelectCommand SelectCommandFacts SelectListeners Samples.Select.

Lemma elem_of_all root j e :
  (j, e) ∈ all root ↔ j ∈ all_ids root ∧ getById root j = Some e.
Proof.
  unfold all. rewrite list_elem_of_omap. split.
  - intros (i & Hi & Hj). destruct (getById root i) as [e'|] eqn:He; simpl in Hj; [|done].
    injection Hj as -> ->. done.
  - intros [Hj He]. exists j. split; [done|]. by rewrite He.
Qed.

Lemma elem_of_selected_ids root j :
  j ∈ selected_ids root
  ↔ j ∈ all_ids root
    ∧ ∃ e, getById root j = Some e ∧ isSelectable e = true ∧ SModel.selected e = true.
Proof.
  unfold selected_ids. rewrite list_elem_of_fmap. split.
  - intros ([i e] & -> & Hin). apply list_elem_of_filter in Hin as [Hp Hin].
    apply elem_of_all in Hin as [Hi He]. simpl in *.
    apply andb_true_iff in Hp. split; [done|]. by exists e.
  - intros (Hj & e & He & Hs & Hsel). exists (j, e). split; [done|].
    apply list_elem_of_filter. split; [simpl; by rewrite Hs, Hsel|].
    by apply elem_of_all.
Qed.

Lemma elem_of_selectable_ids root j :
  j ∈ selectable_ids root
  ↔ j ∈ all_ids root ∧ ∃ e, getById root j = Some e ∧ isSelectable e = true.
Proof.
  unfold selectable_ids. rewrite list_elem_of_fmap. split.
  - intros ([i e] & -> & Hin). apply list_elem_of_filter in Hin as [Hp Hin].
    apply elem_of_all in Hin as [Hi He]. simpl in *. split; [done|]. by exists e.
  - intros (Hj & e & He & Hs). exists (j, e). split; [done|].
    apply list_elem_of_filter. split; [done|]. by apply elem_of_all.
Qed.

(** An id of the list that resolves to a selectable child is captured. *)
Lemma captured_of_list root l j e :
  j ∈ l → getById root j = Some e → isSChildElement e = true → isSelectable e = true →
  j ∈ ids (omap (selectable_child root) l).
Proof.
  intros Hj He Hc Hs. unfold ids. apply list_elem_of_fmap.
  exists (selection_of root j e). split; [done|].
  apply list_elem_of_omap. exists j. split; [done|].
  unfold selectable_child. rewrite He. cbn. by rewrite Hc, Hs.
Qed.

Lemma captured_in_list root l j :
  j ∈ ids (omap (selectable_child root) l) →
  j ∈ l ∧ ∃ e, getById root j = Some e ∧ isSChildElement e = true ∧ isSelectable e = true.
Proof.
  unfold ids. rewrite list_elem_of_fmap. intros (s & -> & Hs).
  apply list_elem_of_omap in Hs as (i & Hi & Hsi).
  unfold selectable_child in Hsi.
  destruct (getById root i) as [e|] eqn:He; cbn in Hsi; [|done].
  destruct (isSChildElement e) eqn:Hc; cbn in Hsi; [|done].
  destruct (isSelectable e) eqn:Hsel; cbn in Hsi; [|done].
  injection Hsi as <-. cbn. split; [done|]. by exists e.
Qed.

Lemma connected_edge_in_all root nodes j :
  j ∈ ids (connected_edges root nodes) →
  j ∈ all_ids root ∧ ∃ e, getById root j = Some e ∧ isSEdge e = true.
Proof.
  unfold ids, connected_edges. rewrite list_elem_of_fmap. intros (s & -> & Hs).
  apply list_elem_of_omap in Hs as ([i e] & Hin & Hsi). simpl in Hsi.
  destruct (isSEdge e) eqn:He; cbn in Hsi; [|done].
  destruct (_ || _); [|done]. injection Hsi as <-. cbn.
  apply elem_of_all in Hin as [Hi Hg]. split; [done|]. by exists e.
Qed.

Lemma selected_capture_new a root j :
  j ∈ ids (selected (capture (new a) root)) →
  (∃ nodes, j ∈ ids (connected_edges root nodes))
  ∨ j ∈ ids (omap (selectable_child root) (selectedElementsIDs a)).
Proof.
  unfold capture. cbn [selected new action]. unfold ids. rewrite !fmap_app.
  rewrite !elem_of_app. intros [H|[H|H]].
  - destruct (selected_nodes root (selectedElementsIDs a)) as [|n ns] eqn:E.
    + by apply elem_of_nil in H.
    + left. by exists (n :: ns).
  - by apply elem_of_nil in H.
  - by right.
Qed.

Section Listeners.
Context {B : Type}.
Variable findParentByFeature : SModelRoot → string → option string.
Variable buttonPressed : SModelRoot → string → option (list (ListenerAction B)).


(** X9. Undoing a plain click on an unselected element gives back the
    selection there was: every element has the flag it had before. *)
Theorem plain_click_undo_restores_selection (this : SelectMouseListener)
    (root : SModelRoot) (target t : string) (e : SModelElement) (event : MouseEvent) :
  button event = 0 → mouse_ctrlOrCmd event = false →
  buttonPressed root target = None →
  findParentByFeature root target = Some t →
  getById root t = Some e → SModel.selected e = false →
  edges_have_parents root →
  ∃ a, (mouseDown findParentByFeature buttonPressed this root target event).1 = [Select a]
    ∧ ∀ j, flag (undo (execute (new a) root).1 (execute (new a) root).2).2 j
           = flag root j.
Proof.
  intros Hb Hc Hbtn Hf He Hsel Hedges.
  exists (mkSelectAction [t] (selected_ids root)).
  split.
  - unfold mouseDown. rewrite Hb, Hbtn, Hf, Hc. cbn.
    unfold selectedAt, flag. rewrite He. cbn. by rewrite Hsel.
  - rewrite execute_capture. cbn [fst snd redo].
    set (cmd := capture (new (mkSelectAction [t] (selected_ids root))) root).
    apply (SelectCommandMore.undo_redo_flags cmd root).
    + intros s Hs.
      assert (element s ∈ ids (deselected cmd)) as Hd
        by (unfold ids; apply list_elem_of_fmap; by exists s).
      unfold cmd, capture in Hd. cbn [deselected new action app] in Hd.
      apply captured_in_list in Hd as [Hd _].
      apply elem_of_selected_ids in Hd as (_ & e' & He' & _ & Hsel').
      unfold flag. rewrite He'. cbn. by rewrite Hsel'.
    + intros s Hs HnD Hsl.
      assert (element s ∈ ids (selected cmd)) as HS
        by (unfold ids; apply list_elem_of_fmap; by exists s).
      unfold selectableAt in Hsl.
      destruct (getById root (element s)) as [e'|] eqn:He'; [|done]. cbn in Hsl.
      unfold flag. rewrite He'. cbn. f_equal.
      destruct (SModel.selected e') eqn:Hsel'; [|done]. exfalso.
      apply selected_capture_new in HS as [(nodes & HS)|HS].
      * apply connected_edge_in_all in HS as (Hall & e'' & He'' & Hedge).
        rewrite He' in He''. injection He'' as <-.
        apply HnD. unfold cmd, capture. cbn [deselected new action app].
        apply (captured_of_list root _ (element s) e'); [|done| |done].
        -- apply elem_of_selected_ids. split; [done|]. by exists e'.
        -- by apply (Hedges (element s)).
      * apply captured_in_list in HS as [HS _]. cbn [selectedElementsIDs] in HS.
        apply list_elem_of_singleton in HS. rewrite HS in He'. congruence.
Qed.

(** X10. Click against drag: pressing the left button without modifier on an
    element that is selected returns no action; releasing the button then
    returns the [SelectAction] that selects the element under the pointer,
    unless the mouse has moved in between, in which case the release returns
    nothing. *)
Theorem click_on_selected_selects_on_release (this : SelectMouseListener)
    (root root' : SModelRoot) (target target' t t' : string) (event event' : MouseEvent) :
  button event = 0 → mouse_ctrlOrCmd event = false →
  buttonPressed root target = None →
  findParentByFeature root target = Some t → selectedAt root t = true →
  button event' = 0 → findParentByFeature root' target' = Some t' →
  let pressed := mouseDown findParentByFeature buttonPressed this root target event in
  pressed.1 = []
  ∧ (mouseUp (B:=B) findParentByFeature pressed.2 root' target' event').1
    = [Select (mkSelectAction [t'] [])]
  ∧ ∀ root'' target'' event'',
      mouseUp (B:=B) findParentByFeature
              (mouseMove (B:=B) pressed.2 root'' target'' event'').2 root' target' event'
      = ([], mkListener true false).
Proof.
  intros Hb Hc Hbtn Hf Hsel Hb' Hf'. unfold mouseDown, mouseUp, mouseMove.
  rewrite Hb, Hbtn, Hf, Hc, Hsel, Hb', Hf'. cbn. done.
Qed.



End Listeners.

(** X13. A [SelectAction] that names nothing to deselect, such as the ones
    [mouseUp] and [keyDown] return, deselects nothing: an element that is
    selected before [execute] is selected after it. *)
Theorem nothing_to_deselect_keeps_selected (a : SelectAction) (root : SModelRoot) (j : string) :
  deselectedElementsIDs a = [] → flag root j = Some true →
  flag (execute (new a) root).2 j = Some true.
Proof.
  intros Ha Hj. rewrite execute_capture. cbn [snd]. rewrite redo_flag.
  destruct (_ && _); [done|].
  unfold capture. cbn [deselected new action app]. rewrite Ha. cbn [omap list_omap ids fmap list_fmap].
  rewrite bool_decide_eq_false_2 by apply not_elem_of_nil. done.
Qed.

(** X14. Control-A: [keyDown] returns one [SelectAction], and after its
    [execute] every selectable child element that the index lists is
    selected. *)
Theorem ctrl_A_selects_every_selectable_child (root : SModelRoot) (event : KeyboardEvent) :
  key_ctrlOrCmd event = true → keyCode event = 65 →
  ∃ a, keyDown root event = [a]
    ∧ deselectedElementsIDs a = []
    ∧ ∀ j e, j ∈ all_ids root → getById root j = Some e →
        isSChildElement e = true → isSelectable e = true →
        flag (execute (new a) root).2 j = Some true.
Proof.
  intros Hc Hk. exists (mkSelectAction (selectable_ids root) []).
  split; [|split; [done|]].
  - unfold keyDown. by rewrite Hc, Hk.
  - intros j e Hj He Hch Hs. rewrite execute_capture. cbn [snd]. rewrite redo_flag.
    assert (selectableAt root j = true) as -> by (unfold selectableAt; by rewrite He).
    rewrite bool_decide_eq_true_2; [done|].
    unfold capture. cbn [selected new action]. unfold ids.
    rewrite !fmap_app, !elem_of_app. right. right.
    apply (captured_of_list root _ j e); [|done..].
    apply elem_of_selectable_ids. split; [done|]. by exists e.
Qed.


(** *** The theorems on the sample graphs *)

Import ListenerSamples.

Ltac lookup_cases H :=
  apply elem_of_list_to_map_2 in H;
  repeat (apply elem_of_cons in H as [H|H]; [injection H as -> ->|]);
  [..|by apply elem_of_nil in H].



Lemma edges_have_parents_wired : edges_have_parents wired.
Proof.
  intros j e He. unfold getById, wired in He. cbn [elements] in He.
  lookup_cases He; done.
Qed.


Lemma plain_click_undo_restores_selection_witness :
  ∃ a, (mouseDown own_feature no_buttons new_listener wired "N1" left_click).1 = [Select a]
    ∧ ∀ j, flag (undo (execute (new a) wired).1 (execute (new a) wired).2).2 j
           = flag wired j.
Proof.
  apply (plain_click_undo_restores_selection own_feature no_buttons new_listener wired
           "N1" "N1" (node "g" false) left_click); try reflexivity.
  apply edges_have_parents_wired.
Defined.

Lemma click_on_selected_selects_on_release_witness :
  (mouseDown own_feature no_buttons new_listener three_nodes "b" left_click).1 = []
  ∧ (mouseUp (B:=Empty_set) own_feature
       (mouseDown own_feature no_buttons new_listener three_nodes "b" left_click).2
       three_nodes "b" left_click).1
    = [Select (mkSelectAction ["b"] [])]
  ∧ ∀ root'' target'' event'',
      mouseUp (B:=Empty_set) own_feature
        (mouseMove (B:=Empty_set)
           (mouseDown own_feature no_buttons new_listener three_nodes "b" left_click).2
           root'' target'' event'').2
        three_nodes "b" left_click
      = ([], mkListener true false).
Proof.
  apply (click_on_selected_selects_on_release own_feature no_buttons new_listener
           three_nodes three_nodes "b" "b" "b" "b" left_click left_click); reflexivity.
Defined.



Lemma nothing_to_deselect_keeps_selected_witness :
  flag (execute (new (mkSelectAction ["a"] [])) three_nodes).2 "b" = Some true.
Proof.
  apply (nothing_to_deselect_keeps_selected (mkSelectAction ["a"] []) three_nodes "b");
    reflexivity.
Defined.

Lemma ctrl_A_selects_every_selectable_child_witness :
  ∃ a, keyDown three_nodes ctrl_A = [a]
    ∧ deselectedElementsIDs a = []
    ∧ ∀ j e, j ∈ all_ids three_nodes → getById three_nodes j = Some e →
        isSChildElement e = true → isSelectable e = true →
        flag (execute (new a) three_nodes).2 j = Some true.
Proof.
  apply (ctrl_A_selects_every_selectable_child three_nodes ctrl_A); reflexivity.
Defined.

End SelectListenersFacts.
(** ** More on SelectAllCommand *)

Module SelectAllCommandMore.
Import SModel SModelFacts SelectAllCommand SelectAllCommandFacts Samples.Select.

(** An element the walk does not meet keeps its record. *)
Lemma foldl_visit_previous_notin b l p r j :
  j ∉ l → (foldl (visit b) (p, r) l).1 !! j = p !! j.
Proof.
  revert p r. induction l as [|i l IH]; intros p r Hj; [done|].
  apply not_elem_of_cons in Hj as [Hne Hj].
  simpl. destruct (visit b (p, r) i) as [p' r'] eqn:Hv.
  rewrite IH by done.
  assert (p' = if selectableAt r i then assign i (default false (flag r i)) p else p) as ->.
  { by rewrite <- (visit_previous b p r i), Hv. }
  destruct (selectableAt r i); [|done].
  by rewrite lookup_assign, (bool_decide_eq_false_2 (j = i)).
Qed.

Lemma execute_walk fuel0 fuel cmd root l :
  descendants fuel0 root (id root) = Some l → (fuel0 ≤ fuel)%nat →
  execute fuel cmd root
  = Some (mkCommand (action cmd)
            (foldl (visit (select (action cmd))) (previousSelection cmd, root) l).1,
          (foldl (visit (select (action cmd))) (previousSelection cmd, root) l).2).
Proof.
  intros Hd Hle. unfold execute.
  rewrite (selectAll_walk fuel _ (id root) (previousSelection cmd, root) l); [done|].
  by apply (descendants_more_fuel fuel0).
Qed.

(** X15. [execute] writes flags and nothing else. On a model whose walk from
    the root ends (children may be shared), and whatever the command has
    recorded before, [execute] returns; the elements, their attributes and
    every list of children are as before; the flag of a selectable element
    of the walk is the action's value and every other flag is as it was;
    and outside the walk the record is untouched. *)
Theorem execute_writes_flags_only (cmd : SelectAllCommand) (root : SModelRoot)
    (fuel0 fuel : nat) (l : list string) :
  descendants fuel0 root (id root) = Some l → (fuel0 ≤ fuel)%nat →
  ∃ cmd' after,
    execute fuel cmd root = Some (cmd', after)
    ∧ action cmd' = action cmd
    ∧ same_static root after
    ∧ kids_same root after
    ∧ (∀ j, flag after j
            = if bool_decide (j ∈ l) && selectableAt root j
              then Some (select (action cmd)) else flag root j)
    ∧ (∀ j, j ∉ l → previousSelection cmd' !! j = previousSelection cmd !! j).
Proof.
  intros Hd Hle. eexists _, _. split; [by apply (execute_walk fuel0 fuel cmd root l)|].
  split; [done|]. split; [|split; [|split]].
  - apply (foldl_visit_static _ l (previousSelection cmd, root)).
  - apply (foldl_visit_kids_same _ l (previousSelection cmd, root)).
  - intros j. apply foldl_visit_flag.
  - intros j Hj. cbn [previousSelection]. by apply foldl_visit_previous_notin.
Qed.

Lemma execute_writes_flags_only_witness :
  ∃ cmd' after,
    execute 2 (new (mkSelectAllAction false)) three_nodes = Some (cmd', after)
    ∧ kids_same three_nodes after
    ∧ flag after "b" = Some false.
Proof.
  destruct (execute_writes_flags_only (new (mkSelectAllAction false)) three_nodes 2 2
              ["g"; "a"; "b"; "c"]) as (cmd' & after & He & _ & _ & Hk & Hf & _).
  - reflexivity.
  - lia.
  - exists cmd', after. split; [done|]. split; [done|]. by rewrite Hf.
Defined.

(** X16. [redo] straight after [execute], on a tree: the model stays as
    [execute] left it, but the record now holds the flags [execute] has set
    (for the id [__proto__] it holds nothing, as before), so that an [undo]
    after it changes nothing any more. *)
Theorem redo_after_execute_forgets (a : SelectAllAction) (root : SModelRoot)
    (fuel0 fuel : nat) (l : list string) :
  descendants fuel0 root (id root) = Some l → NoDup l → (fuel0 ≤ fuel)%nat →
  ∃ cmd1 after cmd2,
    execute fuel (new a) root = Some (cmd1, after)
    ∧ redo fuel cmd1 after = Some (cmd2, after)
    ∧ (∀ j, j ∈ l → selectableAt root j = true →
          previousSelection cmd2 !! j
          = if bool_decide (j = "__proto__") then None else Some (select a))
    ∧ (undo cmd2 after).2 = after.
Proof.
  intros Hd Hnd Hle.
  set (st := foldl (visit (select a)) (∅, root) l).
  assert (same_static root st.2) as Hst by apply (foldl_visit_static _ l (∅, root)).
  assert (kids_same root st.2) as Hks by apply (foldl_visit_kids_same _ l (∅, root)).
  assert (∀ j, flag st.2 j
               = if bool_decide (j ∈ l) && selectableAt root j then Some (select a)
                 else flag root j) as Hflag.
  { intros j. unfold st. apply foldl_visit_flag. }
  assert (descendants fuel0 st.2 (id st.2) = Some l) as Hd'.
  { rewrite <- (descendants_kids_same fuel0 root st.2) by done.
    destruct Hst as (<- & _). done. }
  set (st2 := foldl (visit (select a)) (st.1, st.2) l).
  assert (st2.2 = st.2) as Hsame.
  { apply root_ext.
    - apply same_static_sym, (foldl_visit_static _ l (st.1, st.2)).
    - intros j. unfold st2. rewrite foldl_visit_flag, Hflag.
      rewrite (same_static_selectableAt root st.2) by done.
      by destruct (bool_decide (j ∈ l) && selectableAt root j).
    - intros j. symmetry. apply (foldl_visit_kids_same _ l (st.1, st.2)). }
  assert (∀ j, st2.1 !! j
               = if bool_decide (j ∈ l) && selectableAt root j && bool_decide (j ≠ "__proto__")
                 then Some (select a) else None) as Hprev2.
  { intros j. unfold st2. rewrite foldl_visit_previous by done.
    rewrite (same_static_selectableAt root st.2) by done. rewrite Hflag.
    destruct (bool_decide (j ∈ l) && selectableAt root j && bool_decide (j ≠ "__proto__"))
      eqn:E.
    - apply andb_true_iff in E as [-> _]. done.
    - unfold st. rewrite foldl_visit_previous by done. by rewrite E, lookup_empty. }
  exists (mkCommand a st.1), st.2, (mkCommand a st2.1).
  split; [|split; [|split]].
  - by rewrite (execute_walk fuel0 fuel (new a) root l).
  - pose proof (execute_walk fuel0 fuel (mkCommand a st.1) st.2 l Hd' Hle) as Hr.
    unfold execute in Hr. unfold redo. rewrite Hr. cbn [action previousSelection].
    fold st2. by rewrite Hsame.
  - intros j Hj Hs. cbn [previousSelection]. rewrite Hprev2, Hs.
    rewrite (bool_decide_eq_true_2 _ Hj). cbn [andb].
    destruct (decide (j = "__proto__")) as [->|Hp].
    + by rewrite (bool_decide_eq_false_2 ("__proto__" ≠ "__proto__")) by (intros H; by apply H).
    + by rewrite (bool_decide_eq_true_2 _ Hp), (bool_decide_eq_false_2 _ Hp).
  - destruct (undo_effect (mkCommand a st2.1) st.2) as (Hs & Hk & Hf).
    symmetry. apply root_ext; [done| |done].
    intros j. rewrite Hf. cbn [previousSelection]. rewrite Hprev2.
    rewrite (same_static_selectableAt root st.2) by done.
    destruct (bool_decide (j ∈ l)) eqn:Hl, (selectableAt root j) eqn:Hsl; cbn; try done.
    destruct (bool_decide (j ≠ "__proto__")); [|done].
    by rewrite Hflag, Hl, Hsl.
Qed.

Lemma redo_after_execute_forgets_witness :
  ∃ cmd1 after cmd2,
    execute 2 (new (mkSelectAllAction true)) with_proto = Some (cmd1, after)
    ∧ redo 2 cmd1 after = Some (cmd2, after)
    ∧ previousSelection cmd2 !! "a" = Some true
    ∧ previousSelection cmd2 !! "__proto__" = None
    ∧ (undo cmd2 after).2 = after.
Proof.
  destruct (redo_after_execute_forgets (mkSelectAllAction true) with_proto 2 2
              ["g"; "__proto__"; "a"]) as (cmd1 & after & cmd2 & He & Hr & Hp & Hu).
  - reflexivity.
  - apply (bool_decide_unpack _). vm_compute. exact I.
  - lia.
  - exists cmd1, after, cmd2. split; [done|]. split; [done|]. split; [|split; [|done]].
    + rewrite (Hp "a"); [reflexivity| |reflexivity].
      apply (bool_decide_unpack _). vm_compute. exact I.
    + rewrite (Hp "__proto__"); [reflexivity| |reflexivity].
      apply (bool_decide_unpack _). vm_compute. exact I.
Defined.

(** X17. [undo] writes the recorded flags and nothing else: the elements,
    their attributes and the lists of children stay, an element without a
    record keeps its flag, the command keeps its record, and a second
    [undo] changes nothing. *)
Theorem undo_writes_recorded_flags_only (cmd : SelectAllCommand) (r : SModelRoot) :
  (undo cmd r).1 = cmd
  ∧ same_static r (undo cmd r).2
  ∧ kids_same r (undo cmd r).2
  ∧ (∀ j, previousSelection cmd !! j = None → flag (undo cmd r).2 j = flag r j)
  ∧ (undo cmd (undo cmd r).2).2 = (undo cmd r).2.
Proof.
  destruct (undo_effect cmd r) as (Hs & Hk & Hf).
  destruct (undo_effect cmd (undo cmd r).2) as (Hs' & Hk' & Hf').
  split; [done|]. split; [done|]. split; [done|]. split.
  - intros j Hj. by rewrite Hf, Hj.
  - symmetry. apply root_ext; [done| |done].
    intros j. rewrite Hf', Hf.
    rewrite (same_static_selectableAt r (undo cmd r).2) by done.
    destruct (previousSelection cmd !! j); [|done].
    by destruct (selectableAt r j).
Qed.

(** X29. An element with the id [__proto__] is never recorded: on a tree
    that holds a selectable element of that id, [execute] returns with a
    record that has no entry for it, and [undo] leaves its flag at the
    action's value, whatever the flag was before. *)
Theorem undo_leaves_proto (b : bool) (root : SModelRoot) (fuel0 fuel : nat)
    (l : list string) :
  descendants fuel0 root (id root) = Some l → NoDup l → (fuel0 ≤ fuel)%nat →
  "__proto__" ∈ l → selectableAt root "__proto__" = true →
  ∃ cmd after,
    execute fuel (new (mkSelectAllAction b)) root = Some (cmd, after)
    ∧ previousSelection cmd !! "__proto__" = None
    ∧ flag (undo cmd after).2 "__proto__" = Some b.
Proof.
  intros Hd Hnd Hle Hin Hsel.
  set (st := foldl (visit b) (∅, root) l).
  exists (mkCommand (mkSelectAllAction b) st.1), st.2.
  assert (st.1 !! "__proto__" = None) as Hprev.
  { unfold st. rewrite foldl_visit_previous by done.
    rewrite (bool_decide_eq_false_2 ("__proto__" ≠ "__proto__")) by (intros H; by apply H).
    by rewrite andb_false_r, lookup_empty. }
  split; [|split; [done|]].
  - by rewrite (execute_walk fuel0 fuel (new (mkSelectAllAction b)) root l).
  - destruct (undo_effect (mkCommand (mkSelectAllAction b) st.1) st.2) as (_ & _ & Hf).
    rewrite Hf. cbn [previousSelection]. rewrite Hprev.
    unfold st. rewrite foldl_visit_flag.
    by rewrite (bool_decide_eq_true_2 _ Hin), Hsel.
Qed.

Lemma undo_leaves_proto_witness :
  flag with_proto "__proto__" = Some false
  ∧ ∃ cmd after,
      execute 2 (new (mkSelectAllAction true)) with_proto = Some (cmd, after)
      ∧ previousSelection cmd !! "__proto__" = None
      ∧ flag (undo cmd after).2 "__proto__" = Some true.
Proof.
  split; [reflexivity|].
  apply (undo_leaves_proto true with_proto 2 2 ["g"; "__proto__"; "a"]).
  - reflexivity.
  - apply (bool_decide_unpack _). vm_compute. exact I.
  - lia.
  - apply (bool_decide_unpack _). vm_compute. exact I.
  - reflexivity.
Defined.

End SelectAllCommandMore.
(** ** More on the diagram server *)

Module DiagramServerMore.
Import DiagramServer DiagramServerEffects DiagramServerFacts Samples.Server.

Lemma storeNewModel_effects a this :
  this_clientId (storeNewModel a this) = this_clientId this
  ∧ needsServerLayout (storeNewModel a this) = needsServerLayout this
  ∧ ∃ tr, trace (storeNewModel a this) = trace this ++ tr ∧ Forall own_effect tr.
Proof.
  unfold storeNewModel.
  destruct (_ || _).
  2:{ split; [done|]. split; [done|]. exists []. by rewrite app_nil_r. }
  destruct (newRoot a) as [r|].
  2:{ split; [done|]. split; [done|]. exists []. by rewrite app_nil_r. }
  destruct (_ || _); (split; [done|]; split; [done|]; eexists; split; [reflexivity|]);
    by repeat constructor.
Qed.

Lemma handleLocally_effects a this :
  this_clientId (handleLocally a this).2 = this_clientId this
  ∧ needsServerLayout (handleLocally a this).2 = needsServerLayout this
  ∧ ∃ tr, trace (handleLocally a this).2 = trace this ++ tr ∧ Forall own_effect tr.
Proof.
  destruct (storeNewModel_effects a this) as (Hc & Hn & tr & Htr & Hok).
  unfold handleLocally.
  repeat case_bool_decide; cbn [snd]; try (split; [done|]; split; [done|]; by exists tr).
  - unfold handleComputedBounds.
    destruct (needsServerLayout (storeNewModel a this)) eqn:Hnsl; cbn [snd].
    + split; [done|]. split; [congruence|]. by exists tr.
    + case_bool_decide; cbn; (split; [done|]); (split; [congruence|]);
        rewrite Htr, <- app_assoc;
        (eexists; split; [reflexivity|]); apply Forall_app; by repeat constructor.
  - unfold handleExportSvgAction. cbn. split; [done|]. split; [done|].
    rewrite Htr, <- app_assoc. eexists; split; [reflexivity|].
    apply Forall_app; by repeat constructor.
Qed.

Lemma handle_effects a this :
  this_clientId (handle a this) = this_clientId this
  ∧ needsServerLayout (handle a this) = needsServerLayout this
  ∧ ∃ tr, trace (handle a this) = trace this ++ tr ∧ Forall own_effect tr.
Proof.
  destruct (handleLocally_effects a this) as (Hc & Hn & tr & Htr & Hok).
  unfold handle. destruct (handleLocally a this) as [[] this1]; cbn [snd] in *.
  - split; [done|]. split; [done|].
    exists (tr ++ [LoggerLog "sending"; SendMessage (mkActionMessage (this_clientId this1) a)]).
    cbn. rewrite Htr, <- !app_assoc. split; [done|].
    apply Forall_app. split; [done|]. by repeat constructor.
  - split; [done|]. split; [done|]. by exists tr.
Qed.

(** X18. What [handle] leaves alone, whatever the action: the client id and
    the layout option stay; the effects so far stay, and what is added is
    never an error log nor a dispatch of a received action; and unless the
    action is a computedBounds action or carries a new root under one of the
    three model kinds, [currentRoot] and [lastSubmittedModelType] stay. *)
Theorem handle_frame (a : Action) (this : DiagramServer) :
  this_clientId (handle a this) = this_clientId this
  ∧ needsServerLayout (handle a this) = needsServerLayout this
  ∧ (∃ tr, trace (handle a this) = trace this ++ tr ∧ Forall own_effect tr)
  ∧ (kind a ≠ ComputedBoundsAction_KIND →
     newRoot a = None
     ∨ (kind a ≠ SetModelCommand_KIND ∧ kind a ≠ UpdateModelCommand_KIND
        ∧ kind a ≠ RequestBoundsCommand_KIND) →
     currentRoot (handle a this) = currentRoot this
     ∧ lastSubmittedModelType (handle a this) = lastSubmittedModelType this).
Proof.
  destruct (handle_effects a this) as (Hc & Hn & Htr).
  assert (currentRoot (handle a this) = currentRoot (handleLocally a this).2
          ∧ lastSubmittedModelType (handle a this)
            = lastSubmittedModelType (handleLocally a this).2) as [Hr Hl].
  { unfold handle. by destruct (handleLocally a this) as [[] this1]. }
  split; [done|]. split; [done|]. split; [done|].
  intros Hk Hno. rewrite Hr, Hl.
  assert (storeNewModel a this = this) as Hst.
  { unfold storeNewModel. destruct Hno as [Hno|(H1 & H2 & H3)].
    - rewrite Hno. by destruct (_ || _).
    - by rewrite !bool_decide_eq_false_2. }
  unfold handleLocally. rewrite Hst.
  rewrite (bool_decide_eq_false_2 _ Hk).
  by repeat case_bool_decide.
Qed.

Lemma handle_frame_witness :
  currentRoot (handle (echo_action false) bounds_server) = bounds_root
  ∧ lastSubmittedModelType (handle (echo_action false) bounds_server) = Some "graph".
Proof.
  destruct (handle_frame (echo_action false) bounds_server) as (_ & _ & _ & H).
  apply H; [discriminate|by left].
Defined.

(** X19. The three kinds that stay local. A requestBounds action does what
    [storeNewModel] does and no more; an export action saves the SVG text
    under the name [diagram.svg] and no more; a serverStatus action does
    nothing. None of them is sent, marked as received or not. *)
Theorem local_kinds_stay_local (a : Action) (this : DiagramServer) :
  (kind a = RequestBoundsCommand_KIND → handle a this = storeNewModel a this)
  ∧ (kind a = ExportSvgAction_KIND →
     handle a this = emit (SaveAs (svg a) "diagram.svg") this)
  ∧ (kind a = ServerStatusAction_KIND → handle a this = this)
  ∧ (kind a ∈ [RequestBoundsCommand_KIND; ExportSvgAction_KIND; ServerStatusAction_KIND] →
     sent (trace (handle a this)) = sent (trace this)).
Proof.
  assert (kind a = RequestBoundsCommand_KIND → handle a this = storeNewModel a this) as H1.
  { intros Hk. unfold handle, handleLocally. by rewrite Hk. }
  assert (kind a = ExportSvgAction_KIND →
          handle a this = emit (SaveAs (svg a) "diagram.svg") this) as H2.
  { intros Hk. unfold handle, handleLocally, storeNewModel. by rewrite Hk. }
  assert (kind a = ServerStatusAction_KIND → handle a this = this) as H3.
  { intros Hk. unfold handle, handleLocally, storeNewModel. by rewrite Hk. }
  split; [done|]. split; [done|]. split; [done|].
  intros Hk. rewrite !elem_of_cons in Hk. destruct Hk as [Hk|[Hk|[Hk|Hk]]].
  - rewrite H1 by done. apply sent_storeNewModel.
  - rewrite H2 by done. cbn. rewrite sent_app. apply app_nil_r.
  - by rewrite H3.
  - by apply elem_of_nil in Hk.
Qed.

Lemma local_kinds_stay_local_witness :
  handle (mkAction ExportSvgAction_KIND false None [] None "<svg/>") idle_server
  = emit (SaveAs "<svg/>" "diagram.svg") idle_server
  ∧ handle (mkAction ServerStatusAction_KIND false None [] None "") idle_server
    = idle_server.
Proof.
  destruct (local_kinds_stay_local
              (mkAction ExportSvgAction_KIND false None [] None "<svg/>") idle_server)
    as (_ & H2 & _).
  destruct (local_kinds_stay_local
              (mkAction ServerStatusAction_KIND false None [] None "") idle_server)
    as (_ & _ & H3 & _).
  split; [by apply H2|by apply H3].
Defined.

(** *** Laying out *)

Lemma handle_computedBounds_locally a this :
  kind a = ComputedBoundsAction_KIND → needsServerLayout this = false →
  handle a this
  = mkServer (this_clientId this) false (laid_out a (currentRoot this))
      (Some (type (currentRoot this)))
      (trace this ++
         [Dispatch (if bool_decide (Some (type (currentRoot this))
                                    = lastSubmittedModelType this)
                    then UpdateModelAction (laid_out a (currentRoot this))
                    else SetModelAction (laid_out a (currentRoot this)))]).
Proof.
  intros Hk Hn.
  assert (storeNewModel a this = this) as Hst.
  { unfold storeNewModel. by rewrite Hk. }
  unfold handle, handleLocally. rewrite Hst, Hk.
  rewrite bool_decide_eq_true_2 by done.
  rewrite handleComputedBounds_laid_out by done. cbn zeta.
  by rewrite type_laid_out.
Qed.

Lemma layout_eq bs als t i p s al ch :
  with_alignment als (with_bounds bs (mkSchema t i p s al ch))
  = mkSchema t i
      (match last_bounds bs i with Some nb => Some (mkPoint (x nb) (y nb)) | None => p end)
      (match last_bounds bs i with
       | Some nb => Some (mkDimension (width nb) (height nb)) | None => s end)
      (match last_alignment als i with
       | Some pt => Some (mkPoint (x pt) (y pt)) | None => al end)
      ch.
Proof.
  unfold with_alignment, with_bounds. cbn [id].
  destruct (last_bounds bs i) as [nb|]; cbn [id applyBounds];
    by destruct (last_alignment als i).
Qed.

Lemma laid_out_idempotent a root : laid_out a (laid_out a root) = laid_out a root.
Proof.
  unfold laid_out.
  induction root as [t i p s al ch IH] using schema_ind_all.
  cbn [map_elements children]. rewrite (layout_eq _ _ t i p s al ch).
  cbn [type id position size alignment]. rewrite layout_eq.
  cbn [type id position size alignment].
  rewrite map_map.
  assert (map (λ x, map_elements
                      (λ e, with_alignment (default [] (alignments a))
                              (with_bounds (bounds a) e))
                      (map_elements
                         (λ e, with_alignment (default [] (alignments a))
                                 (with_bounds (bounds a) e)) x)) ch
          = map (map_elements
                   (λ e, with_alignment (default [] (alignments a))
                           (with_bounds (bounds a) e))) ch) as ->.
  { apply map_ext_Forall. exact IH. }
  by destruct (last_bounds (bounds a) i), (last_alignment (default [] (alignments a)) i).
Qed.

(** X20. Laying out twice. Without server layout, a computedBounds action
    handled a second time finds the model already laid out: the root stays
    as the first time left it, and what is dispatched is an action of kind
    [updateModel] carrying that root, whichever of the two the first time
    dispatched. *)
Theorem computedBounds_again (a : Action) (this : DiagramServer) :
  kind a = ComputedBoundsAction_KIND → needsServerLayout this = false →
  handle a (handle a this)
  = emit (Dispatch (mkAction "updateModel" false (Some (currentRoot (handle a this)))
                             [] None ""))
         (handle a this).
Proof.
  intros Hk Hn.
  rewrite (handle_computedBounds_locally a this Hk Hn).
  rewrite handle_computedBounds_locally by done.
  cbn [currentRoot lastSubmittedModelType trace this_clientId].
  rewrite laid_out_idempotent, type_laid_out.
  by rewrite (bool_decide_eq_true_2 (Some (type (currentRoot this))
                                     = Some (type (currentRoot this)))).
Qed.

Lemma computedBounds_again_witness :
  handle bounds_action (handle bounds_action bounds_server)
  = mkServer "sprotty" false bounds_root_after (Some "graph")
      [Dispatch (mkAction "updateModel" false (Some bounds_root_after) [] None "");
       Dispatch (mkAction "updateModel" false (Some bounds_root_after) [] None "")].
Proof.
  rewrite (computedBounds_again bounds_action bounds_server); reflexivity.
Defined.

(** X21. The first layout of a new model. After a setModel or updateModel
    action with a new root, the layout computed for that root is dispatched
    in an action of kind [updateModel]; after a requestBounds action with a
    new root, it is dispatched in an action of kind [updateModel] when the
    root has the type last submitted and of kind [setModel] otherwise. The
    action dispatched carries the laid-out root as its [newRoot]. *)
Theorem computedBounds_after_new_model (a b : Action) (r : SModelRootSchema)
    (this : DiagramServer) :
  newRoot a = Some r → kind b = ComputedBoundsAction_KIND →
  needsServerLayout this = false →
  (kind a = SetModelCommand_KIND ∨ kind a = UpdateModelCommand_KIND →
     trace (handle b (handle a this))
     = trace (handle a this)
       ++ [Dispatch (mkAction "updateModel" false (Some (laid_out b r)) [] None "")])
  ∧ (kind a = RequestBoundsCommand_KIND →
     trace (handle b (handle a this))
     = trace this
       ++ [StorageStore r;
           Dispatch (mkAction (if bool_decide (Some (type r) = lastSubmittedModelType this)
                               then "updateModel" else "setModel")
                              false (Some (laid_out b r)) [] None "")]).
Proof.
  intros Hr Hb Hn.
  destruct (handle_effects a this) as (_ & Hnsl & _).
  rewrite Hn in Hnsl.
  rewrite (handle_computedBounds_locally b (handle a this) Hb Hnsl).
  cbn [trace]. split.
  - intros Hk.
    assert (currentRoot (handle a this) = r
            ∧ lastSubmittedModelType (handle a this) = Some (type r)) as [-> ->].
    { unfold handle, handleLocally, storeNewModel. rewrite Hr.
      destruct Hk as [-> | ->]; cbn; by destruct (receivedFromServer a). }
    by rewrite bool_decide_eq_true_2.
  - intros Hk.
    assert (handle a this
            = mkServer (this_clientId this) (needsServerLayout this) r
                (lastSubmittedModelType this) (trace this ++ [StorageStore r])) as ->.
    { unfold handle, handleLocally, storeNewModel. rewrite Hr, Hk. by cbn. }
    cbn. rewrite <- app_assoc. by destruct (bool_decide _).
Qed.

Lemma computedBounds_after_new_model_witness :
  trace (handle bounds_action
           (handle (mkAction "setModel" false (Some bounds_root) [] None "") idle_server))
  = [StorageStore bounds_root; LoggerLog "sending";
     SendMessage (mkActionMessage "sprotty"
                    (mkAction "setModel" false (Some bounds_root) [] None ""));
     Dispatch (mkAction "updateModel" false (Some bounds_root_after) [] None "")].
Proof.
  destruct (computedBounds_after_new_model
              (mkAction "setModel" false (Some bounds_root) [] None "") bounds_action
              bounds_root idle_server eq_refl eq_refl eq_refl) as [H _].
  rewrite H by (by left). reflexivity.
Defined.

(** X22. Handling a computedBounds action writes positions, sizes and
    alignments only: the elements of [currentRoot] are the same in number
    and order, with the types and ids they had. *)
Theorem computedBounds_keeps_ids_and_types (a : Action) (this : DiagramServer) :
  kind a = ComputedBoundsAction_KIND →
  (λ e, (type e, id e)) <$> index_all (currentRoot (handle a this))
  = (λ e, (type e, id e)) <$> index_all (currentRoot this).
Proof.
  intros Hk. destruct (needsServerLayout this) eqn:Hn.
  - assert (storeNewModel a this = this) as Hst.
    { unfold storeNewModel. by rewrite Hk. }
    unfold handle, handleLocally. rewrite Hst, Hk. cbn.
    unfold handleComputedBounds. by rewrite Hn.
  - rewrite (handle_computedBounds_locally a this Hk Hn). cbn [currentRoot].
    unfold laid_out. rewrite index_all_map_elements.
    rewrite <- list_fmap_compose. apply list_fmap_ext. intros _ e _. cbn.
    destruct e as [t i p s al ch]. cbn.
    unfold with_alignment, with_bounds. cbn.
    destruct (last_bounds _ _); cbn; by destruct (last_alignment _ _).
Qed.

Lemma computedBounds_keeps_ids_and_types_witness :
  (λ e, (type e, id e)) <$> index_all (currentRoot (handle bounds_action bounds_server))
  = [("graph", "g"); ("node", "n1")].
Proof.
  rewrite (computedBounds_keeps_ids_and_types bounds_action bounds_server); reflexivity.
Defined.

(** *** Receiving *)

Lemma get_set_property p q v props :
  get q (JsObject (set_property p v props))
  = if decide (q = p) then v else get q (JsObject props).
Proof.
  cbn [get]. induction props as [|[k w] props IH]; cbn [set_property assoc].
  - destruct (decide (p = q)), (decide (q = p)); cbn; congruence.
  - destruct (decide (k = p)) as [->|Hkp]; cbn [assoc].
    + destruct (decide (p = q)), (decide (q = p)); cbn; congruence.
    + destruct (decide (k = q)) as [->|Hkq]; [|exact IH].
      destruct (decide (q = p)); cbn; congruence.
Qed.

Lemma isActionMessage_object props :
  isActionMessage (JsObject props)
  = match assoc "hasOwnProperty" props with
    | Some _ => ThrowsTypeError
    | None => Returns (bool_decide (is_Some (assoc "clientId" props))
                       && bool_decide (is_Some (assoc "action" props)))
    end.
Proof.
  unfold isActionMessage, hasOwnProperty.
  destruct (assoc "hasOwnProperty" props); cbn [and_then]; [done|].
  by destruct (bool_decide (is_Some (assoc "clientId" props))).
Qed.

Section Receiving.
Variable JSON_parse : string → option JsValue.
Variable dispatch : JsValue → (Action → DiagramServer → DiagramServer) →
                    DiagramServer → Outcome DiagramServer.

(** X23. A message addressed to another client (its [clientId] is a
    non-empty string other than this instance's) that carries an action is
    dropped, when the object has no property [hasOwnProperty] of its own:
    nothing is logged, the dispatcher is not called, nothing changes. *)
Theorem messageReceived_other_client (props : list (string * JsValue)) (c : string)
    (this : DiagramServer) :
  assoc "hasOwnProperty" props = None →
  assoc "clientId" props = Some (JsString c) → c ≠ "" → c ≠ this_clientId this →
  truthy (get "action" (JsObject props)) = true →
  messageReceived JSON_parse dispatch (Value (JsObject props)) this = Returns this.
Proof.
  intros Hown Hc Hne Hother Ha.
  assert (is_Some (assoc "action" props)) as Hap.
  { cbn in Ha. destruct (assoc "action" props); [done|]. by cbn in Ha. }
  unfold messageReceived. rewrite isActionMessage_object, Hown. cbn [and_then].
  rewrite !bool_decide_eq_true_2 by (done || by rewrite Hc).
  rewrite Ha. cbn [andb get]. rewrite Hc. cbn.
  by rewrite !bool_decide_eq_false_2.
Qed.

(** X24. A message without a [clientId] property of its own is not an
    action message, whatever else it holds: the error is logged and the
    dispatcher is not called. Only a [clientId] that is there and falsy
    counts as "no client". When the object has a property [hasOwnProperty]
    of its own, not even that happens: the test throws a TypeError. *)
Theorem messageReceived_without_clientId (props : list (string * JsValue))
    (this : DiagramServer) :
  assoc "clientId" props = None →
  messageReceived JSON_parse dispatch (Value (JsObject props)) this
  = match assoc "hasOwnProperty" props with
    | None =>
        Returns (emit (LoggerError "received data is not an action message"
                         (JsObject props)) this)
    | Some _ => ThrowsTypeError
    end.
Proof.
  intros Hc. unfold messageReceived. rewrite isActionMessage_object.
  destruct (assoc "hasOwnProperty" props); cbn [and_then]; [done|].
  rewrite Hc. rewrite (bool_decide_eq_false_2 (is_Some None)); [done|].
  by intros [? ?].
Qed.

(** X25. A message for this client (the [clientId] is there and is falsy or
    this instance's id; no property [hasOwnProperty] of the object's own)
    whose action is an object: the action gets the mark and keeps every
    other property, the receipt is logged, and the action goes to the
    dispatcher together with [storeNewModel] as the callback; what
    [messageReceived] returns is what the dispatcher returns. *)
Theorem messageReceived_marks_action (props aprops : list (string * JsValue))
    (c : JsValue) (this : DiagramServer) :
  assoc "hasOwnProperty" props = None →
  assoc "clientId" props = Some c →
  truthy c = false ∨ c = JsString (this_clientId this) →
  assoc "action" props = Some (JsObject aprops) →
  ∃ a, messageReceived JSON_parse dispatch (Value (JsObject props)) this
       = dispatch a storeNewModel
           (mkServer (this_clientId this) (needsServerLayout this) (currentRoot this)
              (lastSubmittedModelType this)
              (trace this ++ [LoggerLog "receiving"; DispatchReceived a]))
    ∧ get receivedFromServerProperty a = JsBoolean true
    ∧ ∀ p, p ≠ receivedFromServerProperty → get p a = get p (JsObject aprops).
Proof.
  intros Hown Hc Hmine Ha.
  exists (JsObject (set_property receivedFromServerProperty (JsBoolean true) aprops)).
  split; [|split].
  - unfold messageReceived. rewrite isActionMessage_object, Hown. cbn [and_then get].
    rewrite Hc, Ha. rewrite !bool_decide_eq_true_2 by done.
    cbn [default from_option Datatypes.id truthy andb].
    assert (negb (truthy c) || strict_equals_string c (this_clientId this) = true) as ->.
    { destruct Hmine as [->| ->]; [done|]. cbn [strict_equals_string].
      rewrite (bool_decide_eq_true_2 (this_clientId this = this_clientId this)) by done.
      apply orb_true_r. }
    cbn [and_then mark_received]. unfold emit. cbn [trace this_clientId needsServerLayout
      currentRoot lastSubmittedModelType]. by rewrite <- app_assoc.
  - rewrite get_set_property. by destruct (decide _).
  - intros p Hp. rewrite get_set_property. by destruct (decide _).
Qed.

(** X26. What [messageReceived] does by itself. Every call ends in one of
    five ways: [JSON.parse] throws; a TypeError; the instance as it was (a
    message for another client); the instance with one error logged; or
    the call of the dispatcher, with an action carrying the mark and with
    [storeNewModel] as the callback, on the instance with the receipt
    logged. Until the dispatcher is called nothing is sent and no field is
    written: what happens to the model is the dispatcher's doing. *)
Theorem messageReceived_frame (data : Data) (this : DiagramServer) :
  messageReceived JSON_parse dispatch data this = ThrowsSyntaxError
  ∨ messageReceived JSON_parse dispatch data this = ThrowsTypeError
  ∨ messageReceived JSON_parse dispatch data this = Returns this
  ∨ (∃ object,
       messageReceived JSON_parse dispatch data this
       = Returns (emit (LoggerError "received data is not an action message" object) this))
  ∨ (∃ a, get receivedFromServerProperty a = JsBoolean true
          ∧ messageReceived JSON_parse dispatch data this
            = dispatch a storeNewModel
                (emit (DispatchReceived a) (emit (LoggerLog "receiving") this))).
Proof.
  unfold messageReceived.
  destruct (match data with
            | Text s => JSON_parse s
            | Value (JsString s) => JSON_parse s
            | Value v => Some v
            end) as [object|]; [|by left].
  destruct (isActionMessage object) as [m| |]; cbn [and_then];
    [|by right; left|by left].
  destruct (m && _).
  - destruct (_ || _); [|by right; right; left].
    destruct (get "action" object) as [| | | | |aprops]; cbn [mark_received and_then];
      try (by right; left).
    right. right. right. right. eexists. split; [|reflexivity].
    rewrite get_set_property. by destruct (decide _).
  - right. right. right. left. by eexists.
Qed.

End Receiving.

Lemma messageReceived_other_client_witness :
  messageReceived (λ _, None) storing_dispatch
    (Value (JsObject [("clientId", JsString "other");
                      ("action", JsObject [("kind", JsString "elementSelected")])]))
    idle_server
  = Returns idle_server.
Proof.
  apply (messageReceived_other_client (λ _, None) storing_dispatch _ "other" idle_server);
    [reflexivity|reflexivity|discriminate|discriminate|reflexivity].
Defined.

Lemma messageReceived_without_clientId_witness :
  messageReceived (λ _, None) storing_dispatch
    (Value (JsObject [("action", JsObject [("kind", JsString "elementSelected")])]))
    idle_server
  = Returns (emit (LoggerError "received data is not an action message"
                     (JsObject [("action", JsObject [("kind", JsString "elementSelected")])]))
                  idle_server)
  ∧ messageReceived (λ _, None) storing_dispatch
      (Value (JsObject [("hasOwnProperty", JsNumber 1);
                        ("action", JsObject [("kind", JsString "elementSelected")])]))
      idle_server
    = ThrowsTypeError.
Proof.
  split.
  - apply (messageReceived_without_clientId (λ _, None) storing_dispatch
             [("action", JsObject [("kind", JsString "elementSelected")])] idle_server).
    reflexivity.
  - apply (messageReceived_without_clientId (λ _, None) storing_dispatch
             [("hasOwnProperty", JsNumber 1);
              ("action", JsObject [("kind", JsString "elementSelected")])] idle_server).
    reflexivity.
Defined.

Lemma messageReceived_marks_action_witness :
  ∃ a, messageReceived (λ _, None) storing_dispatch
         (Value (JsObject [("clientId", JsString "sprotty");
                           ("action", JsObject [("kind", JsString "elementSelected")])]))
         idle_server
       = Returns (mkServer "sprotty" false small_root (Some "graph")
                    [LoggerLog "receiving"; DispatchReceived a; StorageStore small_root])
    ∧ get receivedFromServerProperty a = JsBoolean true
    ∧ get "kind" a = JsString "elementSelected".
Proof.
  destruct (messageReceived_marks_action (λ _, None) storing_dispatch
              [("clientId", JsString "sprotty");
               ("action", JsObject [("kind", JsString "elementSelected")])]
              [("kind", JsString "elementSelected")] (JsString "sprotty") idle_server)
    as (a & H & Hm & Hp); [reflexivity|reflexivity|by right|reflexivity|].
  exists a. split; [|split; [done|]].
  - rewrite H. reflexivity.
  - rewrite Hp; [reflexivity|discriminate].
Defined.

End DiagramServerMore.
(** ** action-handler.ts *)

Module ActionsFacts.
Import DiagramServer ActionHandlerRegistry Actions Samples.Registry.

(** X27. [isAction] returns a truthy value exactly for an object that has
    a property [kind] of its own holding a string and no property
    [hasOwnProperty] of its own; it throws a TypeError exactly for an object
    that has a property [hasOwnProperty] of its own; for a falsy argument
    ([undefined] and [null] among them) it returns the argument itself, and
    whenever it returns for a truthy one, it returns a boolean. *)
Theorem isAction_iff (object : JsValue) :
  ((∃ v, isAction object = Returns v ∧ truthy v = true)
   ↔ ∃ props s, object = JsObject props ∧ assoc "hasOwnProperty" props = None
                ∧ assoc "kind" props = Some (JsString s))
  ∧ (isAction object = ThrowsTypeError
     ↔ ∃ props, object = JsObject props ∧ is_Some (assoc "hasOwnProperty" props))
  ∧ (truthy object = false → isAction object = Returns object)
  ∧ (truthy object = true → ∀ v, isAction object = Returns v → ∃ b, v = JsBoolean b).
Proof.
  split; [|split; [|split]].
  - split.
    + intros (v & Hv & Ht). unfold isAction in Hv.
      destruct (truthy object) eqn:Hto; [|injection Hv as <-; congruence].
      destruct object as [| | | | |props]; cbn [hasOwnProperty and_then] in Hv;
        try (injection Hv as <-; done).
      destruct (assoc "hasOwnProperty" props) eqn:Hown; [done|]. cbn [and_then] in Hv.
      case_bool_decide as Hk; [|injection Hv as <-; done]. destruct Hk as [w Hw].
      cbn [get] in Hv. rewrite Hw in Hv. cbn in Hv. injection Hv as <-.
      cbn in Ht. apply bool_decide_eq_true_1 in Ht.
      destruct w; try done. by eexists _, _.
    + intros (props & s & -> & Hown & Hk). eexists. unfold isAction. cbn.
      rewrite Hown. cbn. rewrite Hk.
      rewrite (bool_decide_eq_true_2 (is_Some _)) by done. cbn. done.
  - unfold isAction. split.
    + destruct (truthy object); [|done].
      destruct object as [| | | | |props]; cbn [hasOwnProperty and_then]; try done.
      destruct (assoc "hasOwnProperty" props) eqn:Hown; cbn [and_then].
      * intros _. exists props. split; [done|]. by rewrite Hown.
      * by case_bool_decide.
    + intros (props & -> & [w Hw]). cbn. by rewrite Hw.
  - intros Ht. unfold isAction. by rewrite Ht.
  - intros Ht v. unfold isAction. rewrite Ht.
    destruct (hasOwnProperty "kind" object) as [[]| |]; cbn [and_then]; try done;
      intros [= <-]; by eexists.
Qed.

Lemma isAction_iff_witness :
  isAction JsNull = Returns JsNull
  ∧ isAction (JsObject [("hasOwnProperty", JsNumber 1); ("kind", JsString "x")])
    = ThrowsTypeError
  ∧ (∃ v, isAction (JsObject [("kind", JsString "x")]) = Returns v ∧ truthy v = true).
Proof.
  destruct (isAction_iff JsNull) as (_ & _ & H & _).
  destruct (isAction_iff (JsObject [("hasOwnProperty", JsNumber 1); ("kind", JsString "x")]))
    as (_ & [_ H'] & _).
  destruct (isAction_iff (JsObject [("kind", JsString "x")])) as ([_ H''] & _).
  split; [by apply H|]. split.
  - apply H'. eexists. split; [reflexivity|]. by eexists.
  - apply H''. by eexists _, _.
Defined.

Section Construction.
Context {Elements : Type}.
Variable register : string → ActionHandler → Elements → option Elements.

Lemma foldl_registerCommand_None ctrs :
  foldl (λ this c, this ≫= registerCommand register c) None ctrs = None.
Proof. by induction ctrs. Qed.

Lemma foldl_register_None (kcs : list (string * CommandConstructor)) :
  foldl (λ acc kc, acc ≫= register kc.1 (CommandActionHandler kc.2)) None kcs = None.
Proof. by induction kcs. Qed.

Lemma foldl_registerCommand ctrs (this : Registry) :
  foldl (λ this c, this ≫= registerCommand register c) (Some this) ctrs
  = (λ els, mkRegistry els (logger_errors this
                            ++ (error_message <$> filter (λ c, KIND c = None) ctrs)))
      <$> foldl (λ acc kc, acc ≫= register kc.1 (CommandActionHandler kc.2))
                (Some (elements this)) (with_KIND ctrs).
Proof.
  revert this. induction ctrs as [|c ctrs IH]; intros [els errs].
  - cbn. by rewrite app_nil_r.
  - cbn [foldl]. unfold with_KIND. cbn [omap list_omap mbind option_bind].
    unfold registerCommand at 2. destruct (KIND c) as [k|] eqn:Hk.
    + rewrite filter_cons_False by (by rewrite Hk).
      cbn [fmap option_fmap option_map foldl fst snd elements logger_errors mbind option_bind].
      destruct (register k (CommandActionHandler c) els) as [els'|].
      * cbn [fmap option_fmap option_map]. apply IH.
      * cbn [fmap option_fmap option_map].
        by rewrite foldl_registerCommand_None, foldl_register_None.
    + rewrite filter_cons_True by done.
      cbn [fmap option_fmap option_map list_fmap elements logger_errors].
      rewrite IH. cbn [elements logger_errors]. unfold with_KIND.
      by rewrite <- app_assoc.
Qed.

(** X28. The constructor registers the command constructors it is given, in
    their order: those with a [KIND] go through [register], one after the
    other, and the first exception of [register] is the constructor's;
    for every one without a [KIND] its error message is logged, in order,
    and that never stops the others from being registered. *)
Theorem constructor_registers_in_order (super : Elements)
    (commandCtrs : list CommandConstructor) (logger : list string) :
  constructor register super commandCtrs logger
  = (λ els, mkRegistry els
              (logger ++ (error_message <$> filter (λ c, KIND c = None) commandCtrs)))
      <$> foldl (λ acc kc, acc ≫= register kc.1 (CommandActionHandler kc.2))
                (Some super) (with_KIND commandCtrs).
Proof. unfold constructor. by rewrite foldl_registerCommand. Qed.

End Construction.

End ActionsFacts.
